(** * A shallow embedding of [interpreter.py]

    The program is a three-stage arithmetic evaluator: a pull-based [Lexer],
    a recursive-descent [Parser] with one token of lookahead, and an
    [Interpreter] that walks the tree.

    Conventions of the embedding.
    - A Python [str] is a Rocq [string]; a character is an [ascii], read as
      the code point U+0000..U+00FF.  [isspace] and [isdigit] are the tables
      of [str.isspace] and [str.isdigit] on that range.
    - A Python [int] is a [Z]; a Python [float] is a binary64 [spec_float].
    - The two mutable objects ([Lexer], [Parser]) are records threaded
      explicitly; a method returns the new object next to its result.
    - An exception is the [Raise] outcome.  Every [while] loop and the
      recursion [expr -> term -> factor -> expr] are driven by a fuel
      argument; running out of it is the separate outcome [OutOfFuel].  A
      loop tests its condition before it spends fuel, results do not depend
      on the budget once there is one ([approx]), and the budget
      [fuel_bound], the length of the line plus two, always suffices.
    - Of the host's own limits, the cap on the digits of a conversion
      between [str] and [int] is modelled ([int_max_str_digits]).  The
      recursion limit is not: a statement that promises a result for lines
      that may nest parentheses or operations is made for lines of at most
      [max_line] characters, which cannot reach it. *)

From Stdlib Require Import ZArith NArith List String Ascii Bool Lia QArith.
From Stdlib Require Import Floats.SpecFloat.
From Stdlib Require Import Qabs Qpower Qfield Lqa.
From Stdlib Require DecimalString DecimalZ.
Import ListNotations.

Close Scope Q_scope.
Open Scope string_scope.

(** ** Outcomes *)

Inductive exn : Type :=
| LexicalError
| ParsingError
| ValueError
| IndexError
| TypeError
| ZeroDivisionError
| OverflowError.

Inductive outcome (A : Type) : Type :=
| Ok (a : A)
| Raise (e : exn)
| OutOfFuel.

Arguments Ok {A} a.
Arguments Raise {A} e.
Arguments OutOfFuel {A}.

Definition bind {A B : Type} (m : outcome A) (k : A -> outcome B) : outcome B :=
  match m with
  | Ok a => k a
  | Raise e => Raise e
  | OutOfFuel => OutOfFuel
  end.

Notation "x <- m ;; k" := (bind m (fun x => k))
  (at level 61, m at next level, right associativity).
Notation "' pat <- m ;; k" := (bind m (fun x => match x with pat => k end))
  (at level 61, pat pattern, m at next level, right associativity).

(** ** Python values *)

Inductive pyval : Type :=
| PyNone
| PyInt (n : Z)
| PyFloat (x : spec_float)
| PyStr (s : string).

(** ** Tokens *)

Inductive TokenType : Type :=
| INTEGER | PLUS | MINUS | MUL | DIV | LPAREN | RPAREN | EOF.

Definition TokenType_eqb (a b : TokenType) : bool :=
  match a, b with
  | INTEGER, INTEGER | PLUS, PLUS | MINUS, MINUS | MUL, MUL
  | DIV, DIV | LPAREN, LPAREN | RPAREN, RPAREN | EOF, EOF => true
  | _, _ => false
  end.

Record Token : Type := mkToken { type : TokenType; value : pyval }.

(** ** Characters *)

Definition ord (c : ascii) : Z := Z.of_N (N_of_ascii c).

(** [str.isspace] on one character: TAB..CR, FS..US, SPACE, NEL, NBSP. *)
Definition isspace (c : ascii) : bool :=
  let n := ord c in
  ((9 <=? n) && (n <=? 13) || (28 <=? n) && (n <=? 32)
   || (n =? 133) || (n =? 160))%Z.

(** [str.isdigit] on one character: the decimal digits and the three
    superscript digits of Latin-1, which have the Digit property without
    being decimal. *)
Definition isdigit (c : ascii) : bool :=
  let n := ord c in
  ((48 <=? n) && (n <=? 57) || (n =? 178) || (n =? 179) || (n =? 185))%Z.

Definition decimal_value (c : ascii) : option Z :=
  let n := ord c in
  if ((48 <=? n) && (n <=? 57))%Z then Some (n - 48)%Z else None.

Fixpoint int_digits (acc : Z) (s : string) : option Z :=
  match s with
  | EmptyString => Some acc
  | String c s' =>
      match decimal_value c with
      | Some d => int_digits (10 * acc + d)%Z s'
      | None => None
      end
  end.

(** [sys.int_max_str_digits] as the interpreter sets it by default: the most
    digits a conversion between [str] and [int] accepts. *)
Definition int_max_str_digits : Z := 4300.

(** [int(result)] for the strings [Lexer.integer] builds, runs of [isdigit]
    characters: the base-10 value when every character is a decimal digit,
    [ValueError] on the empty string, on a superscript digit and on a run of
    more than [int_max_str_digits] digits. *)
Definition int (s : string) : outcome Z :=
  match s with
  | EmptyString => Raise ValueError
  | _ =>
      if (int_max_str_digits <? Z.of_nat (String.length s))%Z
      then Raise ValueError
      else match int_digits 0 s with
           | Some n => Ok n
           | None => Raise ValueError
           end
  end.

(** ** Lexer *)

Record Lexer : Type := mkLexer {
  text : string;
  pos : nat;
  current_char : option ascii
}.

(** [Lexer.__init__]: [self.text[0]] raises [IndexError] on the empty string. *)
Definition Lexer_init (txt : string) : outcome Lexer :=
  match String.get 0 txt with
  | Some c => Ok (mkLexer txt 0 (Some c))
  | None => Raise IndexError
  end.

Definition advance (l : Lexer) : Lexer :=
  let pos' := S (pos l) in
  if (Z.of_nat pos' >? Z.of_nat (String.length (text l)) - 1)%Z
  then mkLexer (text l) pos' None
  else mkLexer (text l) pos' (String.get pos' (text l)).

Fixpoint skip_whitespace (fuel : nat) (l : Lexer) : outcome Lexer :=
  match current_char l with
  | Some c =>
      if isspace c then
        match fuel with
        | O => OutOfFuel
        | S fuel' => skip_whitespace fuel' (advance l)
        end
      else Ok l
  | None => Ok l
  end.

Fixpoint integer_loop (fuel : nat) (result : string) (l : Lexer)
  : outcome (string * Lexer) :=
  match current_char l with
  | Some c =>
      if isdigit c then
        match fuel with
        | O => OutOfFuel
        | S fuel' => integer_loop fuel' (result ++ String c EmptyString) (advance l)
        end
      else Ok (result, l)
  | None => Ok (result, l)
  end.

Definition integer (fuel : nat) (l : Lexer) : outcome (Z * Lexer) :=
  '(result, l') <- integer_loop fuel "" l ;;
  n <- int result ;;
  Ok (n, l').

Fixpoint get_next_token (fuel : nat) (l : Lexer) : outcome (Token * Lexer) :=
  match current_char l with
  | None => Ok (mkToken EOF PyNone, l)
  | Some c =>
      match fuel with
      | O => OutOfFuel
      | S fuel' =>
          if isspace c then
            l' <- skip_whitespace fuel' l ;;
            get_next_token fuel' l'
          else if isdigit c then
            '(n, l') <- integer fuel' l ;;
            Ok (mkToken INTEGER (PyInt n), l')
          else if (c =? "+")%char then Ok (mkToken PLUS (PyStr "+"), advance l)
          else if (c =? "-")%char then Ok (mkToken MINUS (PyStr "-"), advance l)
          else if (c =? "*")%char then Ok (mkToken MUL (PyStr "*"), advance l)
          else if (c =? "/")%char then Ok (mkToken DIV (PyStr "/"), advance l)
          else if (c =? "(")%char then Ok (mkToken LPAREN (PyStr "("), advance l)
          else if (c =? ")")%char then Ok (mkToken RPAREN (PyStr ")"), advance l)
          else Raise LexicalError
      end
  end.

(** ** Arithmetic of the host language

    [int] arithmetic is exact.  [/] is true division: on two [int]s it is the
    correctly rounded binary64 quotient (round to nearest, ties to even),
    [ZeroDivisionError] on a zero divisor and [OverflowError] when the
    quotient exceeds the range of a float.  A mixed operation first converts
    the [int] operand to a float. *)

Definition prec : Z := 53.
Definition emax : Z := 1024.

Definition finite_or_overflow (x : spec_float) : outcome spec_float :=
  match x with
  | S754_infinity _ => Raise OverflowError
  | _ => Ok x
  end.

Definition float_of_int (n : Z) : outcome spec_float :=
  finite_or_overflow (binary_normalize prec emax n 0 false).

Definition int_true_divide (a b : Z) : outcome spec_float :=
  if (b =? 0)%Z then Raise ZeroDivisionError
  else if (a =? 0)%Z then Ok (S754_zero (b <? 0)%Z)
  else
    let '(q, e, loc) := SFdiv_core_binary prec emax (Z.abs a) 0 (Z.abs b) 0 in
    finite_or_overflow
      (binary_round_aux prec emax (xorb (a <? 0)%Z (b <? 0)%Z) q e loc).

Definition float_true_divide (x y : spec_float) : outcome spec_float :=
  match y with
  | S754_zero _ => Raise ZeroDivisionError
  | _ => Ok (SFdiv prec emax x y)
  end.

Fixpoint str_repeat (s : string) (n : nat) : string :=
  match n with
  | O => ""
  | S n' => s ++ str_repeat s n'
  end.

Definition py_add (a b : pyval) : outcome pyval :=
  match a, b with
  | PyInt x, PyInt y => Ok (PyInt (x + y))
  | PyInt x, PyFloat y => fx <- float_of_int x ;; Ok (PyFloat (SFadd prec emax fx y))
  | PyFloat x, PyInt y => fy <- float_of_int y ;; Ok (PyFloat (SFadd prec emax x fy))
  | PyFloat x, PyFloat y => Ok (PyFloat (SFadd prec emax x y))
  | PyStr s, PyStr t => Ok (PyStr (s ++ t))
  | _, _ => Raise TypeError
  end.

Definition py_sub (a b : pyval) : outcome pyval :=
  match a, b with
  | PyInt x, PyInt y => Ok (PyInt (x - y))
  | PyInt x, PyFloat y => fx <- float_of_int x ;; Ok (PyFloat (SFsub prec emax fx y))
  | PyFloat x, PyInt y => fy <- float_of_int y ;; Ok (PyFloat (SFsub prec emax x fy))
  | PyFloat x, PyFloat y => Ok (PyFloat (SFsub prec emax x y))
  | _, _ => Raise TypeError
  end.

Definition py_mul (a b : pyval) : outcome pyval :=
  match a, b with
  | PyInt x, PyInt y => Ok (PyInt (x * y))
  | PyInt x, PyFloat y => fx <- float_of_int x ;; Ok (PyFloat (SFmul prec emax fx y))
  | PyFloat x, PyInt y => fy <- float_of_int y ;; Ok (PyFloat (SFmul prec emax x fy))
  | PyFloat x, PyFloat y => Ok (PyFloat (SFmul prec emax x y))
  | PyStr s, PyInt n | PyInt n, PyStr s => Ok (PyStr (str_repeat s (Z.to_nat n)))
  | _, _ => Raise TypeError
  end.

Definition py_truediv (a b : pyval) : outcome pyval :=
  match a, b with
  | PyInt x, PyInt y => q <- int_true_divide x y ;; Ok (PyFloat q)
  | PyInt x, PyFloat y =>
      fx <- float_of_int x ;; q <- float_true_divide fx y ;; Ok (PyFloat q)
  | PyFloat x, PyInt y =>
      fy <- float_of_int y ;; q <- float_true_divide x fy ;; Ok (PyFloat q)
  | PyFloat x, PyFloat y => q <- float_true_divide x y ;; Ok (PyFloat q)
  | _, _ => Raise TypeError
  end.

(** The exact rational a finite float stands for. *)
Definition float_to_Q (x : spec_float) : option Q :=
  match x with
  | S754_zero _ => Some 0%Q
  | S754_finite s m e =>
      let v := match e with
               | Zneg k => Qmake (Zpos m) (2 ^ k)%positive
               | _ => inject_Z (Zpos m * 2 ^ e)%Z
               end in
      Some (if s then Qopp v else v)
  | _ => None
  end.

(** ** Abstract syntax *)

Inductive AST : Type :=
| BinOp (left_ : AST) (op : Token) (right_ : AST)
| Num (token : Token).

(** [Num.__init__] copies [token.value] into [self.value]. *)
Definition Num_value (token : Token) : pyval := value token.

(** ** Parser *)

Record Parser : Type := mkParser { lexer : Lexer; current_token : Token }.

Definition Parser_init (fuel : nat) (l : Lexer) : outcome Parser :=
  '(tok, l') <- get_next_token fuel l ;;
  Ok (mkParser l' tok).

Definition error {A : Type} : outcome A := Raise ParsingError.

Definition eat (fuel : nat) (token_type : TokenType) (p : Parser) : outcome Parser :=
  if TokenType_eqb (type (current_token p)) token_type then
    '(tok, l') <- get_next_token fuel (lexer p) ;;
    Ok (mkParser l' tok)
  else error.

Section Productions.
(** One level of the grammar: [fuel] bounds the loops of this level and of
    the lexer, [expr_rec] is the call of [expr] made by [factor]. *)
Variable fuel : nat.
Variable expr_rec : Parser -> outcome (AST * Parser).

Definition factor_body (p : Parser) : outcome (AST * Parser) :=
  let token := current_token p in
  if TokenType_eqb (type token) INTEGER then
    p1 <- eat fuel INTEGER p ;;
    Ok (Num token, p1)
  else if TokenType_eqb (type token) LPAREN then
    p1 <- eat fuel LPAREN p ;;
    '(node, p2) <- expr_rec p1 ;;
    p3 <- eat fuel RPAREN p2 ;;
    Ok (node, p3)
  else error.

Fixpoint term_loop (n : nat) (node : AST) (p : Parser) : outcome (AST * Parser) :=
  let token := current_token p in
  if TokenType_eqb (type token) MUL || TokenType_eqb (type token) DIV then
    match n with
    | O => OutOfFuel
    | S n' =>
        p1 <- (if TokenType_eqb (type token) MUL then eat fuel MUL p
               else if TokenType_eqb (type token) DIV then eat fuel DIV p
               else Ok p) ;;
        '(right_, p2) <- factor_body p1 ;;
        term_loop n' (BinOp node token right_) p2
    end
  else Ok (node, p).

Definition term_body (p : Parser) : outcome (AST * Parser) :=
  '(node, p1) <- factor_body p ;;
  term_loop fuel node p1.

Fixpoint expr_loop (n : nat) (node : AST) (p : Parser) : outcome (AST * Parser) :=
  let token := current_token p in
  if TokenType_eqb (type token) PLUS || TokenType_eqb (type token) MINUS then
    match n with
    | O => OutOfFuel
    | S n' =>
        p1 <- (if TokenType_eqb (type token) PLUS then eat fuel PLUS p
               else if TokenType_eqb (type token) MINUS then eat fuel MINUS p
               else Ok p) ;;
        '(right_, p2) <- term_body p1 ;;
        expr_loop n' (BinOp node token right_) p2
    end
  else Ok (node, p).

Definition expr_body (p : Parser) : outcome (AST * Parser) :=
  '(node, p1) <- term_body p ;;
  expr_loop fuel node p1.
End Productions.

Fixpoint expr (fuel : nat) (p : Parser) : outcome (AST * Parser) :=
  match fuel with
  | O => OutOfFuel
  | S fuel' => expr_body fuel' (expr fuel') p
  end.

Definition term (fuel : nat) : Parser -> outcome (AST * Parser) :=
  term_body fuel (expr fuel).

Definition factor (fuel : nat) : Parser -> outcome (AST * Parser) :=
  factor_body fuel (expr fuel).

(** ** Interpreter *)

Fixpoint visit (node : AST) : outcome pyval :=
  match node with
  | Num token => Ok (Num_value token)
  | BinOp left_ op right_ =>
      if TokenType_eqb (type op) PLUS then
        a <- visit left_ ;; b <- visit right_ ;; py_add a b
      else if TokenType_eqb (type op) MINUS then
        a <- visit left_ ;; b <- visit right_ ;; py_sub a b
      else if TokenType_eqb (type op) MUL then
        a <- visit left_ ;; b <- visit right_ ;; py_mul a b
      else if TokenType_eqb (type op) DIV then
        a <- visit left_ ;; b <- visit right_ ;; py_truediv a b
      else Ok PyNone
  end.

Definition interpret (fuel : nat) (p : Parser) : outcome pyval :=
  '(tree, _) <- expr fuel p ;;
  visit tree.

(** The three stages as [main] chains them, on one line of input. *)
Definition parse (fuel : nat) (txt : string) : outcome (AST * Parser) :=
  l <- Lexer_init txt ;;
  p <- Parser_init fuel l ;;
  expr fuel p.

Definition evaluate (fuel : nat) (txt : string) : outcome pyval :=
  l <- Lexer_init txt ;;
  p <- Parser_init fuel l ;;
  interpret fuel p.

(** All tokens up to and including the first [EOF], as successive calls of
    [get_next_token] deliver them. *)
Fixpoint tokens (fuel : nat) (l : Lexer) : outcome (list Token) :=
  match fuel with
  | O => OutOfFuel
  | S fuel' =>
      '(tok, l') <- get_next_token fuel' l ;;
      if TokenType_eqb (type tok) EOF then Ok [tok]
      else rest <- tokens fuel' l' ;; Ok (tok :: rest)
  end.

Definition tokenize (fuel : nat) (txt : string) : outcome (list Token) :=
  l <- Lexer_init txt ;;
  tokens fuel l.

(** ** The interactive loop

    [main] reads lines until one spells [exit].  The model feeds it a list
    of lines, after which every [input()] raises [EOFError], and records
    what it writes as a list of events: the prompt written by [input], and
    the argument of each [print].  How a value or an exception is turned
    into text by [print] is not modelled, except that [print] of an [int]
    with more than [int_max_str_digits] digits raises [ValueError]. *)

(** [str(n)] for an [int]: its decimal digits, with a sign when negative. *)
Definition str_int (z : Z) : string :=
  DecimalString.NilZero.string_of_int (Z.to_int z).

(** [str.lower] on one character: A..Z and the capital letters of Latin-1,
    U+00C0..U+00DE without the multiplication sign, move up by 32. *)
Definition lower_char (c : ascii) : ascii :=
  let n := ord c in
  if ((65 <=? n) && (n <=? 90)
      || (192 <=? n) && (n <=? 222) && negb (n =? 215))%Z
  then ascii_of_N (Z.to_N (n + 32))
  else c.

Fixpoint lower (s : string) : string :=
  match s with
  | EmptyString => EmptyString
  | String c s' => String (lower_char c) (lower s')
  end.

Inductive main_exn : Type :=
| Core (e : exn)
| EOFError.

Inductive event : Type :=
| Prompt
| PrintResult (v : pyval)
| PrintException (e : main_exn)
| PrintExit.

(** [print(result)]: the result is written, unless it is an [int] whose
    digits, the sign apart, exceed the cap of [str]; then [str] raises
    [ValueError] inside the [try], and the handler prints that exception. *)
Definition print (v : pyval) : event :=
  match v with
  | PyInt n =>
      if (int_max_str_digits
          <? Z.of_nat (String.length (str_int (Z.abs n))))%Z
      then PrintException (Core ValueError)
      else PrintResult v
  | _ => PrintResult v
  end.

(** One round of the loop body after [input] has returned [text], with the
    budget the line needs. *)
Definition run (text : string) : outcome pyval :=
  evaluate (String.length text + 2) text.

(** [main fuel lines] is the output of at most [fuel] rounds, and whether
    the loop was left through [break]. *)
Fixpoint main (fuel : nat) (lines : list string) : list event * bool :=
  match fuel with
  | O => ([], false)
  | S fuel' =>
      match lines with
      | [] =>
          let (out, done) := main fuel' [] in
          (Prompt :: PrintException EOFError :: out, done)
      | text :: rest =>
          if String.eqb (lower text) "exit" then ([Prompt; PrintExit], true)
          else
            match run text with
            | Ok result =>
                let (out, done) := main fuel' rest in
                (Prompt :: print result :: out, done)
            | Raise e =>
                let (out, done) := main fuel' rest in
                (Prompt :: PrintException (Core e) :: out, done)
            | OutOfFuel => ([Prompt], false)
            end
      end
  end.

(** ** Printing a tree

    [print_ast] as the list of the lines it prints.  The name of a token
    type is the string [TokenType] gives it; [f"{node.value}"] is modelled
    for the values a token can hold other than a float. *)

Definition TokenType_name (t : TokenType) : string :=
  match t with
  | INTEGER => "INTEGER"
  | PLUS => "PLUS"
  | MINUS => "MINUS"
  | MUL => "MUL"
  | DIV => "DIV"
  | LPAREN => "LPAREN"
  | RPAREN => "RPAREN"
  | EOF => "EOF"
  end.

Definition format_value (v : pyval) : option string :=
  match v with
  | PyNone => Some "None"
  | PyInt n => Some (str_int n)
  | PyStr s => Some s
  | PyFloat _ => None
  end.

Fixpoint indent (level : nat) : string :=
  match level with
  | O => ""
  | S level' => "  " ++ indent level'
  end.

(** A line printed at [level]. *)
Definition line (level : nat) (s : string) : string := indent level ++ s.

Fixpoint print_ast (node : AST) (level : nat) : option (list string) :=
  match node with
  | Num token =>
      match format_value (Num_value token) with
      | Some v => Some [line level ("Num(" ++ v ++ ")")]
      | None => None
      end
  | BinOp left_ op right_ =>
      match print_ast left_ (level + 2), print_ast right_ (level + 2) with
      | Some ls, Some rs =>
          Some (line level "BinOp:"
                :: line level "  left: "
                :: ls
                ++ line level ("  op: " ++ TokenType_name (type op))
                :: line level "  right: "
                :: rs)%list
      | _, _ => None
      end
  end.

(** * Vocabulary of the properties

    ** Budgets

    [approx r r'] : whatever [r] delivers, [r'] delivers too; only an
    exhausted budget may turn into a result. *)

Definition approx {A : Type} (r r' : outcome A) : Prop :=
  r <> OutOfFuel -> r' = r.

(** [ends P r]: [r] is not an exhausted budget, and a returned value
    satisfies [P]. *)
Definition ends {A : Type} (P : A -> Prop) (r : outcome A) : Prop :=
  match r with
  | Ok a => P a
  | Raise _ => True
  | OutOfFuel => False
  end.

(** The budget that suffices for a line. *)
Definition fuel_bound (txt : string) : nat := String.length txt + 2.

(** ** What is left to read

    [remaining l] bounds the number of [advance] calls the lexer [l] can
    still make; [mu p] adds one for a lookahead token that is not [EOF], so
    that it counts the tokens the parser [p] has not consumed yet by the
    characters that carry them. *)

Definition remaining (l : Lexer) : nat :=
  match current_char l with
  | None => 0
  | Some _ => Nat.max 1 (String.length (text l) - pos l)
  end.

Definition weight (tok : Token) : nat :=
  if TokenType_eqb (type tok) EOF then 0 else 1.

Definition mu (p : Parser) : nat :=
  remaining (lexer p) + weight (current_token p).

Definition nonspace (l : Lexer) : Prop :=
  match current_char l with
  | Some c => isspace c = false
  | None => True
  end.

(** [consumes p r]: the production returned with strictly less to read, or
    raised; [keeps p r] allows it to return without reading. *)
Definition consumes (p : Parser) (r : outcome (AST * Parser)) : Prop :=
  ends (fun np => mu (snd np) < mu p) r.

Definition keeps (p : Parser) (r : outcome (AST * Parser)) : Prop :=
  ends (fun np => mu (snd np) <= mu p) r.

(** ** Tokens and their values *)

Definition EOF_token : Token := mkToken EOF PyNone.

(** What [get_next_token] stores in [Token.value], by token type. *)
Definition token_value_ok (tok : Token) : Prop :=
  match type tok with
  | INTEGER => exists n, value tok = PyInt n /\ (0 <= n)%Z
  | PLUS => value tok = PyStr "+"
  | MINUS => value tok = PyStr "-"
  | MUL => value tok = PyStr "*"
  | DIV => value tok = PyStr "/"
  | LPAREN => value tok = PyStr "("
  | RPAREN => value tok = PyStr ")"
  | EOF => value tok = PyNone
  end.

(** The six characters [get_next_token] accepts besides digits and
    whitespace. *)
Definition operator_chars : list ascii := ["+"; "-"; "*"; "/"; "("; ")"]%char.

(** [n] successive calls of [get_next_token]. *)
Fixpoint pull (fuel n : nat) (l : Lexer) : outcome (list Token * Lexer) :=
  match n with
  | O => Ok ([], l)
  | S n' =>
      '(tok, l1) <- get_next_token fuel l ;;
      '(toks, l2) <- pull fuel n' l1 ;;
      Ok (tok :: toks, l2)
  end.

(** The floats 3.5 and 3.0. *)
Definition three_and_a_half : spec_float :=
  S754_finite false 7881299347898368 (-51).

Definition three_point_zero : spec_float :=
  S754_finite false 6755399441055744 (-51).

(** ** Lines of text *)

Fixpoint all_chars (f : ascii -> bool) (s : string) : bool :=
  match s with
  | EmptyString => true
  | String c s' => f c && all_chars f s'
  end.

Fixpoint drop (n : nat) (s : string) : string :=
  match n, s with
  | O, _ => s
  | S n', String _ s' => drop n' s'
  | S _, EmptyString => EmptyString
  end.

(** The lexer's [current_char] is the character of [text] at [pos]. *)
Definition synced (l : Lexer) : Prop :=
  current_char l = String.get (pos l) (text l).

(** The lexer of [txt] standing at index [k]. *)
Definition at_pos (txt : string) (k : nat) : Lexer :=
  mkLexer txt k (String.get k txt).

Definition is_decimal (c : ascii) : bool :=
  ((48 <=? ord c) && (ord c <=? 57))%Z.

Definition starts_nondigit (s : string) : Prop :=
  match s with
  | String c _ => isdigit c = false
  | EmptyString => True
  end.

(** A decimal literal, that is a run of decimal digits that [int] accepts:
    not empty and of at most [int_max_str_digits] digits; its value and its
    token. *)
Definition literal (s : string) : Prop :=
  s <> "" /\ all_chars is_decimal s = true
  /\ (Z.of_nat (String.length s) <= int_max_str_digits)%Z.

Definition literal_value (ds : string) : Z :=
  match int_digits 0 ds with Some n => n | None => 0%Z end.

Definition number (ds : string) : Token :=
  mkToken INTEGER (PyInt (literal_value ds)).

(** A binary operator character, its token and the operation
    [visit_BinOp] performs for it. *)
Definition operator_token (c : ascii) : Token :=
  if (c =? "+")%char then mkToken PLUS (PyStr "+")
  else if (c =? "-")%char then mkToken MINUS (PyStr "-")
  else if (c =? "*")%char then mkToken MUL (PyStr "*")
  else mkToken DIV (PyStr "/").

Definition py_binop (o : ascii) : pyval -> pyval -> outcome pyval :=
  if (o =? "+")%char then py_add
  else if (o =? "-")%char then py_sub
  else if (o =? "*")%char then py_mul
  else py_truediv.

(** The token types the loop of [expr], respectively of [term], goes on
    with. *)
Definition additive (t : TokenType) : bool :=
  TokenType_eqb t PLUS || TokenType_eqb t MINUS.

Definition multiplicative (t : TokenType) : bool :=
  TokenType_eqb t MUL || TokenType_eqb t DIV.

Definition same_level (o1 o2 : ascii) : Prop :=
  (In o1 ["+"; "-"]%char /\ In o2 ["+"; "-"]%char)
  \/ (In o1 ["*"; "/"]%char /\ In o2 ["*"; "/"]%char).

(** The line [a o1 b o2 c] and the tree that groups it to the left. *)
Definition chain_text (a : string) (o1 : ascii) (b : string) (o2 : ascii)
           (c : string) : string :=
  a ++ String o1 (b ++ String o2 c).

Definition left_fold (a : string) (o1 : ascii) (b : string) (o2 : ascii)
           (c : string) : AST :=
  BinOp (BinOp (Num (number a)) (operator_token o1) (Num (number b)))
        (operator_token o2) (Num (number c)).

(** ** Invariants of the lexer and shape of the trees *)

(** The lexer shows the character of its text at its position, and the
    position is not past the end of the text. *)
Definition in_bounds (l : Lexer) : Prop :=
  synced l /\ pos l <= String.length (text l).

(** A leaf as [factor] builds it, an operator as the loops store it. *)
Definition is_number (tok : Token) : bool :=
  match type tok, value tok with
  | INTEGER, PyInt n => (0 <=? n)%Z
  | _, _ => false
  end.

Definition is_operator (tok : Token) : bool :=
  match type tok, value tok with
  | PLUS, PyStr s => String.eqb s "+"
  | MINUS, PyStr s => String.eqb s "-"
  | MUL, PyStr s => String.eqb s "*"
  | DIV, PyStr s => String.eqb s "/"
  | _, _ => false
  end.

Fixpoint well_formed (t : AST) : bool :=
  match t with
  | Num tok => is_number tok
  | BinOp l op r => well_formed l && is_operator op && well_formed r
  end.

Fixpoint size (t : AST) : nat :=
  match t with
  | Num _ => 1
  | BinOp l _ r => S (size l + size r)
  end.

Fixpoint depth (t : AST) : nat :=
  match t with
  | Num _ => 1
  | BinOp l _ r => S (Nat.max (depth l) (depth r))
  end.

(** What a production leaves behind when it returns [r] from [p]: a tree of
    the right shape, a lookahead as the lexer makes them, and no more nodes
    than it has consumed. *)
Definition parsed (p : Parser) (r : AST * Parser) : Prop :=
  well_formed (fst r) = true
  /\ token_value_ok (current_token (snd r))
  /\ size (fst r) + mu (snd r) <= mu p.

(** The exceptions of the lexer, and those of the parser. *)
Definition lexer_exn (e : exn) : Prop :=
  e = LexicalError \/ e = ValueError.

Definition parser_exn (e : exn) : Prop :=
  e = LexicalError \/ e = ValueError \/ e = ParsingError.

(** The results of [visit] on a tree of the right shape. *)
Definition numeric_outcome (r : outcome pyval) : Prop :=
  match r with
  | Ok (PyInt _) | Ok (PyFloat _) => True
  | Raise ZeroDivisionError | Raise OverflowError => True
  | _ => False
  end.

Definition numeric (v : pyval) : Prop :=
  match v with
  | PyInt _ | PyFloat _ => True
  | _ => False
  end.

(** [raises_only P r]: if [r] is an exception, it is one of [P]. *)
Definition raises_only {A : Type} (P : exn -> Prop) (r : outcome A) : Prop :=
  forall e, r = Raise e -> P e.

(** ** The unread text

    What the lexer does, told on the text that is left to read: the
    whitespace [skip_whitespace] passes, the digits [integer] collects, and
    the token [get_next_token] returns together with the text behind it. *)

Fixpoint skip_spaces (s : string) : string :=
  match s with
  | String c s' => if isspace c then skip_spaces s' else s
  | EmptyString => EmptyString
  end.

Fixpoint span_digits (s : string) : string * string :=
  match s with
  | String c s' =>
      if isdigit c then
        let (ds, rest) := span_digits s' in (String c ds, rest)
      else (EmptyString, s)
  | EmptyString => (EmptyString, EmptyString)
  end.

Definition next_token (s : string) : outcome (Token * string) :=
  match skip_spaces s with
  | EmptyString => Ok (EOF_token, EmptyString)
  | String c s' =>
      if isdigit c then
        let (ds, rest) := span_digits (String c s') in
        n <- int ds ;;
        Ok (mkToken INTEGER (PyInt n), rest)
      else if (c =? "+")%char then Ok (mkToken PLUS (PyStr "+"), s')
      else if (c =? "-")%char then Ok (mkToken MINUS (PyStr "-"), s')
      else if (c =? "*")%char then Ok (mkToken MUL (PyStr "*"), s')
      else if (c =? "/")%char then Ok (mkToken DIV (PyStr "/"), s')
      else if (c =? "(")%char then Ok (mkToken LPAREN (PyStr "("), s')
      else if (c =? ")")%char then Ok (mkToken RPAREN (PyStr ")"), s')
      else Raise LexicalError
  end.

(** The parser [p] over the line [txt] has [tok] as lookahead and [rest]
    left to read. *)
Definition stands (txt : string) (p : Parser) (tok : Token) (rest : string)
  : Prop :=
  current_token p = tok
  /\ exists k, lexer p = at_pos txt k /\ drop k txt = rest.

(** [returns r Q]: unless the budget ran out, [r] is a value that satisfies
    [Q]. *)
Definition returns {A : Type} (r : outcome A) (Q : A -> Prop) : Prop :=
  r <> OutOfFuel -> exists a, r = Ok a /\ Q a.

(** ** Writing a tree back as a line *)

Definition operator_char (t : TokenType) : ascii :=
  match t with
  | PLUS => "+"
  | MINUS => "-"
  | MUL => "*"
  | _ => "/"
  end%char.

(** A tree as a line, every operation in parentheses. *)
Fixpoint render (t : AST) : string :=
  match t with
  | Num tok =>
      match value tok with
      | PyInt n => str_int n
      | _ => EmptyString
      end
  | BinOp l op r =>
      String "(" (render l ++ String (operator_char (type op)) (render r ++ ")"))
  end.

(** The unread text [s] does not go on with a digit, and its first token can
    be read. *)
Definition follows (s : string) : Prop :=
  starts_nondigit s /\ exists tok rest, next_token s = Ok (tok, rest).

(** ** Lines with the same tokens *)

(** [n] tokens of the unread text [s], or the exception that stops them. *)
Fixpoint pulls (n : nat) (s : string) : outcome (list Token) :=
  match n with
  | O => Ok []
  | S n' =>
      '(tok, rest) <- next_token s ;;
      toks <- pulls n' rest ;;
      Ok (tok :: toks)
  end.

Definition same_tokens (s1 s2 : string) : Prop :=
  forall n, pulls n s1 = pulls n s2.

(** Two parsers, over two lines, with the same lookahead and the same
    tokens to come. *)
Definition alike_parsers (p1 p2 : Parser) : Prop :=
  exists txt1 txt2 tok s1 s2,
    stands txt1 p1 tok s1 /\ stands txt2 p2 tok s2 /\ same_tokens s1 s2.

Definition alike_results (r1 r2 : AST * Parser) : Prop :=
  fst r1 = fst r2 /\ alike_parsers (snd r1) (snd r2).

(** [alike R r1 r2]: unless a budget ran out, [r1] and [r2] are values
    related by [R], or the same exception. *)
Definition alike {A B : Type} (R : A -> B -> Prop)
           (r1 : outcome A) (r2 : outcome B) : Prop :=
  r1 <> OutOfFuel -> r2 <> OutOfFuel ->
  match r1, r2 with
  | Ok a, Ok b => R a b
  | Raise e1, Raise e2 => e1 = e2
  | _, _ => False
  end.

Definition first_is_digit (s : string) : bool :=
  match s with
  | String c _ => isdigit c
  | EmptyString => false
  end.

Fixpoint last_is_digit (s : string) : bool :=
  match s with
  | EmptyString => false
  | String c EmptyString => isdigit c
  | String _ s' => last_is_digit s'
  end.

(** ** Lines without a division sign *)

Definition no_slash (s : string) : bool :=
  all_chars (fun c => negb (c =? "/")%char) s.

Fixpoint no_division (t : AST) : bool :=
  match t with
  | Num _ => true
  | BinOp l op r =>
      no_division l && negb (TokenType_eqb (type op) DIV) && no_division r
  end.

(** The value of a tree in exact integer arithmetic. *)
Fixpoint int_value (t : AST) : Z :=
  match t with
  | Num tok => match value tok with PyInt n => n | _ => 0 end
  | BinOp l op r =>
      match type op with
      | PLUS => int_value l + int_value r
      | MINUS => int_value l - int_value r
      | MUL => int_value l * int_value r
      | _ => 0
      end
  end%Z.

(** The parser has no [/] as lookahead and none in the text to come. *)
Definition slash_free (p : Parser) : Prop :=
  type (current_token p) <> DIV
  /\ exists txt k, lexer p = at_pos txt k /\ no_slash (drop k txt) = true.

(** ** Sessions *)

Definition is_exit (text : string) : bool := String.eqb (lower text) "exit".

(** What one round writes for a line that is not [exit]. *)
Definition report (text : string) : list event :=
  Prompt
  :: match run text with
     | Ok v => [print v]
     | Raise e => [PrintException (Core e)]
     | OutOfFuel => []
     end.

(** What [n] rounds write once the input is exhausted. *)
Fixpoint end_of_input (n : nat) : list event :=
  match n with
  | O => []
  | S n' => Prompt :: PrintException EOFError :: end_of_input n'
  end.

(** [get_next_token] on a lexer in step with its text returns what
    [next_token] tells for the unread text. *)
Definition token_at (txt : string) (fuel k : nat)
           (r : outcome (Token * string)) : Prop :=
  match r with
  | Ok (tok, rest) =>
      exists k',
        get_next_token fuel (at_pos txt k) = Ok (tok, at_pos txt k')
        /\ drop k' txt = rest /\ k <= k'
  | Raise e => get_next_token fuel (at_pos txt k) = Raise e
  | OutOfFuel => False
  end.

(** [gives txt a tok s x]: the production returned the tree [a] and left
    the parser with lookahead [tok] before the text [s]. *)
Definition gives (txt : string) (a : AST) (tok : Token) (s : string)
           (x : AST * Parser) : Prop :=
  fst x = a /\ stands txt (snd x) tok s.

(** ** The grammar the parser follows *)

(** The three productions, from the loosest to the tightest. *)
Inductive level : Type := AtExpr | AtTerm | AtFactor.

(** [derives lv s t]: the line [s], written without spaces, is a phrase of
    production [lv] and [t] is its tree.  The rules are those of the three
    methods of [Parser]: a factor is a number or an expression in
    parentheses; a term is a factor, or a term, one of [*] and [/], and a
    factor; an expression is a term, or an expression, one of [+] and [-],
    and a term. *)
Inductive derives : level -> string -> AST -> Prop :=
| derives_number (ds : string) :
    literal ds -> derives AtFactor ds (Num (number ds))
| derives_parenthesis (s : string) (t : AST) :
    derives AtExpr s t -> derives AtFactor (String "(" (s ++ ")")) t
| derives_factor (s : string) (t : AST) :
    derives AtFactor s t -> derives AtTerm s t
| derives_product (s1 : string) (l : AST) (o : ascii) (s2 : string)
                  (r : AST) :
    derives AtTerm s1 l -> In o ["*"; "/"]%char -> derives AtFactor s2 r ->
    derives AtTerm (s1 ++ String o s2) (BinOp l (operator_token o) r)
| derives_term (s : string) (t : AST) :
    derives AtTerm s t -> derives AtExpr s t
| derives_sum (s1 : string) (l : AST) (o : ascii) (s2 : string) (r : AST) :
    derives AtExpr s1 l -> In o ["+"; "-"]%char -> derives AtTerm s2 r ->
    derives AtExpr (s1 ++ String o s2) (BinOp l (operator_token o) r).

(** What each production does on a phrase [s] of its level that is followed
    by [rest]: [factor] returns the tree and stops before [rest]; [term]
    and [expr] reach, after the phrase, the test of their loop with the
    tree as [node]. *)
Definition factor_reads (s : string) (t : AST) : Prop :=
  forall fuel txt p tok s1 rest tokR sR,
    starts_nondigit rest -> next_token rest = Ok (tokR, sR) ->
    next_token (s ++ rest) = Ok (tok, s1) -> stands txt p tok s1 ->
    returns (factor fuel p) (gives txt t tokR sR).

Definition term_reads (s : string) (t : AST) : Prop :=
  forall fuel txt p tok s1 rest tokR sR n (Q : AST * Parser -> Prop),
    starts_nondigit rest -> next_token rest = Ok (tokR, sR) ->
    next_token (s ++ rest) = Ok (tok, s1) -> stands txt p tok s1 ->
    (forall n' p', stands txt p' tokR sR ->
                   returns (term_loop fuel (expr fuel) n' t p') Q) ->
    returns ('(a, p1) <- factor fuel p ;;
             term_loop fuel (expr fuel) n a p1) Q.

Definition expr_reads (s : string) (t : AST) : Prop :=
  forall fuel txt p tok s1 rest tokR sR n (Q : AST * Parser -> Prop),
    starts_nondigit rest -> next_token rest = Ok (tokR, sR) ->
    multiplicative (type tokR) = false ->
    next_token (s ++ rest) = Ok (tok, s1) -> stands txt p tok s1 ->
    (forall n' p', stands txt p' tokR sR ->
                   returns (expr_loop fuel (expr fuel) n' t p') Q) ->
    returns ('(a, p1) <- term fuel p ;;
             expr_loop fuel (expr fuel) n a p1) Q.

Definition reads (lv : level) : string -> AST -> Prop :=
  match lv with
  | AtExpr => expr_reads
  | AtTerm => term_reads
  | AtFactor => factor_reads
  end.

(** The first token of a phrase can be read, whatever follows it. *)
Definition begins (s : string) : Prop :=
  forall rest, starts_nondigit rest ->
               exists tok s1, next_token (s ++ rest) = Ok (tok, s1).

(** ** Writing a tree with the parentheses it needs *)

Definition binding (op : Token) : level :=
  if additive (type op) then AtExpr else AtTerm.

Definition tighter (lv : level) : level :=
  match lv with
  | AtExpr => AtTerm
  | _ => AtFactor
  end.

(** A phrase of level [lv] can stand bare where a phrase of level [ctx] is
    expected: it binds at least as tightly. *)
Definition fits (lv ctx : level) : bool :=
  match ctx, lv with
  | AtExpr, _ => true
  | AtTerm, AtTerm | AtTerm, AtFactor => true
  | AtFactor, AtFactor => true
  | _, _ => false
  end.

(** The tree as a phrase of level [ctx]: the left operand of an operation
    at the level of the operation, the right operand one level tighter,
    parentheses only around an operation too loose for its place. *)
Fixpoint write (ctx : level) (t : AST) : string :=
  match t with
  | Num tok =>
      match value tok with
      | PyInt n => str_int n
      | _ => EmptyString
      end
  | BinOp l op r =>
      let lv := binding op in
      let body := write lv l
                  ++ String (operator_char (type op)) (write (tighter lv) r) in
      if fits lv ctx then body else String "(" (body ++ ")")
  end.

(** ** Lines without whitespace *)

Definition spaceless (s : string) : bool :=
  all_chars (fun c => negb (isspace c)) s.

(** The parser [p] over the line [txt] has as lookahead the first token of
    [s0], a part of the line without whitespace, and the rest of [s0] left
    to read. *)
Definition at_token (txt : string) (p : Parser) (s0 : string) : Prop :=
  spaceless s0 = true
  /\ exists s1, next_token s0 = Ok (current_token p, s1)
                /\ stands txt p (current_token p) s1.

(** [phrase lv txt s0 r]: the production of level [lv], started at [s0],
    read a phrase of its level and returned the tree of that phrase. *)
Definition phrase (lv : level) (txt s0 : string) (r : AST * Parser) : Prop :=
  exists c s0', s0 = c ++ s0' /\ derives lv c (fst r)
                /\ at_token txt (snd r) s0'.

(** ** The type of a result *)

Definition is_float (v : pyval) : bool :=
  match v with
  | PyFloat _ => true
  | _ => false
  end.

(** ** The limits of the host

    Two limits of the interpreter that runs the program bear on what a line
    gives.  The digits of a conversion between [str] and [int] are capped
    at [int_max_str_digits], which [int] models.  The depth of the call
    stack is capped too (1000 frames by default): [factor] calls [expr]
    once for each open parenthesis, three frames deep, and [visit] descends
    two frames for each level of the tree.  A line of [n] characters opens
    at most [n / 2] parentheses and gives a tree of depth at most [n / 2],
    so a line of at most [max_line] characters stays well below that cap;
    its numbers and its result stay below the cap on digits as well.  The
    statements that promise a result are made for such lines. *)
Definition max_line : nat := 300.

(** The largest number of digits of a number in the tree. *)
Fixpoint longest_number (t : AST) : nat :=
  match t with
  | Num tok =>
      match value tok with
      | PyInt n => String.length (str_int n)
      | _ => 0
      end
  | BinOp l _ r => Nat.max (longest_number l) (longest_number r)
  end.

(** SUPERSCRIPT TWO, U+00B2: [str.isdigit] accepts it, [int] does not. *)
Definition superscript_two : ascii := ascii_of_nat 178.

Definition one_plus_superscript : string :=
  "1 + " ++ String superscript_two "".

(** ** Rounding to the nearest float *)

Section RoundingVocabulary.
Local Open Scope Z_scope.

(** [located N D mrs]: the mantissa of [mrs] is the integer part of [N / D],
    its round bit tells whether the rest reaches one half, its sticky bit
    whether the rest is neither zero nor one half. *)
Definition located (N D : Z) (mrs : shr_record) : Prop :=
  0 <= shr_m mrs
  /\ exists rho,
      N = shr_m mrs * D + rho /\ 0 <= rho < D
      /\ (shr_r mrs = true <-> D <= 2 * rho)
      /\ (shr_s mrs = true <-> rho <> 0 /\ 2 * rho <> D).

(** [rounds_to sx N D e x]: the float [x] is the number [N / D * 2 ^ e],
    with the sign [sx], rounded to the nearest float: a valid float that
    differs from it by at most half a unit in its last place, or a zero
    when that number is at most half the least positive float, or an
    infinity when the rounding leaves the range of the floats. *)
Definition rounds_to (sx : bool) (N D e' : Z) (x : spec_float) : Prop :=
  match x with
  | S754_zero s =>
      s = sx /\ e' <= -1074 /\ 2 * N <= D * 2 ^ (-1074 - e')
  | S754_finite s m e =>
      s = sx /\ bounded prec emax m e = true /\ e' <= e
      /\ 2 * Z.abs (Zpos m * (D * 2 ^ (e - e')) - N) <= D * 2 ^ (e - e')
  | S754_infinity s =>
      s = sx
      /\ exists m e,
          2 ^ 52 <= m /\ 971 < e /\ e' <= e
          /\ 2 * Z.abs (m * (D * 2 ^ (e - e')) - N) <= D * 2 ^ (e - e')
  | S754_nan => False
  end.
End RoundingVocabulary.

(** The number [v] with the sign bit [s]. *)
Definition signed (s : bool) (v : Q) : Q := if s then Qopp v else v.

(** [accurate exact x]: the float [x] is the rational [exact] rounded to
    the nearest float.  A finite [x] is a valid float that differs from
    [exact] by at most half a unit in its last place; a zero stands for a
    number of at most half the least positive float; an infinity for a
    number beyond the largest float. *)
Definition accurate (exact : Q) (x : spec_float) : Prop :=
  match x with
  | S754_zero _ => (Qabs exact * 2 <= 2 ^ (-1074))%Q
  | S754_finite _ _ e =>
      valid_binary prec emax x = true
      /\ exists q, float_to_Q x = Some q
                   /\ (Qabs (q - exact) * 2 <= 2 ^ e)%Q
  | S754_infinity _ => (2 ^ 1024 - 2 ^ 971 <= Qabs exact)%Q
  | S754_nan => False
  end.

(** [rounded exact r]: the outcome [r] of an operation whose exact result
    is the rational [exact]. *)
Definition rounded (exact : Q) (r : outcome spec_float) : Prop :=
  match r with
  | Ok x => accurate exact x /\ forall s, x <> S754_infinity s
  | Raise e => e = OverflowError /\ (2 ^ 1024 - 2 ^ 971 <= Qabs exact)%Q
  | OutOfFuel => False
  end.

(** [quotient exact r]: the outcome [r] of [/] is a float, the rational
    [exact] rounded to the nearest, or [OverflowError]. *)
Definition quotient (exact : Q) (r : outcome pyval) : Prop :=
  match r with
  | Ok (PyFloat x) => accurate exact x
  | Ok _ => False
  | Raise e => e = OverflowError /\ (2 ^ 1024 - 2 ^ 971 <= Qabs exact)%Q
  | OutOfFuel => False
  end.

(** * Budgets are monotone *)

Lemma approx_refl {A : Type} (r : outcome A) : approx r r.
Proof. intros _; reflexivity. Qed.

Lemma approx_oof {A : Type} (r : outcome A) : approx OutOfFuel r.
Proof. intros H; contradiction H; reflexivity. Qed.

Lemma approx_bind {A B : Type} (m m' : outcome A) (k k' : A -> outcome B) :
  approx m m' -> (forall a, approx (k a) (k' a)) ->
  approx (bind m k) (bind m' k').
Proof.
  intros Hm Hk. destruct m as [a | e |]; simpl.
  - rewrite Hm by discriminate. simpl. apply Hk.
  - rewrite Hm by discriminate. intros _; reflexivity.
  - apply approx_oof.
Qed.

Create HintDb fuel.
#[local] Hint Resolve approx_refl approx_oof : fuel.

Lemma skip_whitespace_mono (f f' : nat) (l : Lexer) :
  f <= f' -> approx (skip_whitespace f l) (skip_whitespace f' l).
Proof.
  revert f' l. induction f as [| f IH]; intros f' l Hle; destruct f' as [| f'];
    simpl; destruct (current_char l) as [c |]; try destruct (isspace c);
    auto with fuel; try lia.
  apply IH; lia.
Qed.

Lemma integer_loop_mono (f f' : nat) (acc : string) (l : Lexer) :
  f <= f' -> approx (integer_loop f acc l) (integer_loop f' acc l).
Proof.
  revert f' acc l. induction f as [| f IH]; intros f' acc l Hle;
    destruct f' as [| f']; simpl; destruct (current_char l) as [c |];
    try destruct (isdigit c); auto with fuel; try lia.
  apply IH; lia.
Qed.

Lemma integer_mono (f f' : nat) (l : Lexer) :
  f <= f' -> approx (integer f l) (integer f' l).
Proof.
  intros Hle. unfold integer. apply approx_bind.
  - apply integer_loop_mono; exact Hle.
  - intros [s l']; apply approx_refl.
Qed.

Lemma get_next_token_mono (f f' : nat) (l : Lexer) :
  f <= f' -> approx (get_next_token f l) (get_next_token f' l).
Proof.
  revert f' l. induction f as [| f IH]; intros f' l Hle; destruct f' as [| f'];
    simpl; destruct (current_char l) as [c |]; auto with fuel; try lia.
  destruct (isspace c).
  - apply approx_bind; [apply skip_whitespace_mono; lia |].
    intros l'; apply IH; lia.
  - destruct (isdigit c); [| apply approx_refl].
    apply approx_bind; [apply integer_mono; lia |].
    intros [n l']; apply approx_refl.
Qed.

Lemma eat_mono (f f' : nat) (tt : TokenType) (p : Parser) :
  f <= f' -> approx (eat f tt p) (eat f' tt p).
Proof.
  intros Hle. unfold eat.
  destruct (TokenType_eqb (type (current_token p)) tt); [| apply approx_refl].
  apply approx_bind; [apply get_next_token_mono; exact Hle |].
  intros [tok l']; apply approx_refl.
Qed.

Section ProductionsMono.
Variables f f' : nat.
Variables rec rec' : Parser -> outcome (AST * Parser).
Hypothesis Hle : f <= f'.
Hypothesis Hrec : forall p, approx (rec p) (rec' p).

Lemma factor_body_mono (p : Parser) :
  approx (factor_body f rec p) (factor_body f' rec' p).
Proof.
  unfold factor_body.
  destruct (TokenType_eqb (type (current_token p)) INTEGER).
  - apply approx_bind; [apply eat_mono; exact Hle |].
    intros p1; apply approx_refl.
  - destruct (TokenType_eqb (type (current_token p)) LPAREN);
      [| apply approx_refl].
    apply approx_bind; [apply eat_mono; exact Hle |]. intros p1.
    apply approx_bind; [apply Hrec |]. intros [node p2].
    apply approx_bind; [apply eat_mono; exact Hle |].
    intros p3; apply approx_refl.
Qed.

Lemma term_loop_mono (n n' : nat) (node : AST) (p : Parser) :
  n <= n' ->
  approx (term_loop f rec n node p) (term_loop f' rec' n' node p).
Proof.
  revert n' node p. induction n as [| n IH]; intros n' node p Hn;
    destruct n' as [| n']; simpl;
    destruct (TokenType_eqb (type (current_token p)) MUL
              || TokenType_eqb (type (current_token p)) DIV);
    auto with fuel; try lia.
  apply approx_bind.
  - destruct (TokenType_eqb (type (current_token p)) MUL);
      [apply eat_mono; exact Hle |].
    destruct (TokenType_eqb (type (current_token p)) DIV);
      [apply eat_mono; exact Hle | apply approx_refl].
  - intros p1. apply approx_bind; [apply factor_body_mono |].
    intros [r p2]. apply IH; lia.
Qed.

Lemma term_body_mono (p : Parser) :
  approx (term_body f rec p) (term_body f' rec' p).
Proof.
  unfold term_body. apply approx_bind; [apply factor_body_mono |].
  intros [node p1]. apply term_loop_mono; exact Hle.
Qed.

Lemma expr_loop_mono (n n' : nat) (node : AST) (p : Parser) :
  n <= n' ->
  approx (expr_loop f rec n node p) (expr_loop f' rec' n' node p).
Proof.
  revert n' node p. induction n as [| n IH]; intros n' node p Hn;
    destruct n' as [| n']; simpl;
    destruct (TokenType_eqb (type (current_token p)) PLUS
              || TokenType_eqb (type (current_token p)) MINUS);
    auto with fuel; try lia.
  apply approx_bind.
  - destruct (TokenType_eqb (type (current_token p)) PLUS);
      [apply eat_mono; exact Hle |].
    destruct (TokenType_eqb (type (current_token p)) MINUS);
      [apply eat_mono; exact Hle | apply approx_refl].
  - intros p1. apply approx_bind; [apply term_body_mono |].
    intros [r p2]. apply IH; lia.
Qed.

Lemma expr_body_mono (p : Parser) :
  approx (expr_body f rec p) (expr_body f' rec' p).
Proof.
  unfold expr_body. apply approx_bind; [apply term_body_mono |].
  intros [node p1]. apply expr_loop_mono; exact Hle.
Qed.
End ProductionsMono.

Lemma expr_mono (f f' : nat) (p : Parser) :
  f <= f' -> approx (expr f p) (expr f' p).
Proof.
  revert f' p. induction f as [| f IH]; intros f' p Hle; simpl;
    [apply approx_oof |].
  destruct f' as [| f']; [lia |]. simpl.
  apply expr_body_mono; [lia |]. intros q; apply IH; lia.
Qed.

Lemma parse_mono (f f' : nat) (txt : string) :
  f <= f' -> approx (parse f txt) (parse f' txt).
Proof.
  intros Hle. unfold parse. apply approx_bind; [apply approx_refl |].
  intros l. apply approx_bind.
  - unfold Parser_init. apply approx_bind;
      [apply get_next_token_mono; exact Hle |].
    intros [tok l']; apply approx_refl.
  - intros p. apply expr_mono; exact Hle.
Qed.

Lemma evaluate_mono (f f' : nat) (txt : string) :
  f <= f' -> approx (evaluate f txt) (evaluate f' txt).
Proof.
  intros Hle. unfold evaluate. apply approx_bind; [apply approx_refl |].
  intros l. apply approx_bind.
  - unfold Parser_init. apply approx_bind;
      [apply get_next_token_mono; exact Hle |].
    intros [tok l']; apply approx_refl.
  - intros p. unfold interpret. apply approx_bind;
      [apply expr_mono; exact Hle |].
    intros [tree p']; apply approx_refl.
Qed.

Lemma ends_bind {A B : Type} (Q : A -> Prop) (P : B -> Prop)
      (m : outcome A) (k : A -> outcome B) :
  ends Q m -> (forall a, Q a -> ends P (k a)) -> ends P (bind m k).
Proof. destruct m; simpl; auto. Qed.

Lemma ends_weaken {A : Type} (Q P : A -> Prop) (r : outcome A) :
  ends Q r -> (forall a, Q a -> P a) -> ends P r.
Proof. destruct r; simpl; auto. Qed.

Lemma ends_not_oof {A : Type} (P : A -> Prop) (r : outcome A) :
  ends P r -> r <> OutOfFuel.
Proof. destruct r; simpl; congruence. Qed.

Lemma ends_ok {A : Type} (P : A -> Prop) (r : outcome A) (a : A) :
  ends P r -> r = Ok a -> P a.
Proof. intros H E; rewrite E in H; exact H. Qed.

Lemma TokenType_eqb_eq (a b : TokenType) : TokenType_eqb a b = true <-> a = b.
Proof. destruct a, b; simpl; split; congruence. Qed.

Lemma TokenType_eqb_refl (a : TokenType) : TokenType_eqb a a = true.
Proof. destruct a; reflexivity. Qed.

Lemma advance_pos (l : Lexer) : pos (advance l) = S (pos l).
Proof. unfold advance. destruct (_ >? _)%Z; reflexivity. Qed.

Lemma advance_text (l : Lexer) : text (advance l) = text l.
Proof. unfold advance. destruct (_ >? _)%Z; reflexivity. Qed.

Lemma advance_remaining (l : Lexer) (c : ascii) :
  current_char l = Some c -> remaining (advance l) < remaining l.
Proof.
  intros Hc. unfold remaining at 2. rewrite Hc.
  unfold advance, remaining.
  destruct (Z.gtb_spec (Z.of_nat (S (pos l)))
                       (Z.of_nat (String.length (text l)) - 1)) as [Hgt | Hle];
    cbn [current_char pos text]; [lia |].
  destruct (String.get (S (pos l)) (text l)); lia.
Qed.

Lemma skip_whitespace_ends (fuel : nat) (l : Lexer) :
  remaining l <= fuel ->
  ends (fun l' => nonspace l' /\ remaining l' <= remaining l)
       (skip_whitespace fuel l).
Proof.
  revert l. induction fuel as [| fuel IH]; intros l Hf; simpl;
    destruct (current_char l) as [c |] eqn:Hc;
    try (simpl; unfold nonspace; rewrite Hc; split; [exact I | lia]);
    destruct (isspace c) eqn:Hs;
    try (simpl; unfold nonspace; rewrite Hc; split; [exact Hs | lia]).
  - unfold remaining in Hf; rewrite Hc in Hf; lia.
  - pose proof (advance_remaining l c Hc) as Hadv.
    eapply ends_weaken; [apply IH; lia |].
    simpl; intros l' [Hn Hr]; split; [exact Hn | lia].
Qed.

Lemma skip_whitespace_strict (fuel : nat) (l : Lexer) (c : ascii) :
  current_char l = Some c -> isspace c = true -> remaining l <= fuel ->
  ends (fun l' => nonspace l' /\ remaining l' < remaining l)
       (skip_whitespace fuel l).
Proof.
  intros Hc Hs Hf. pose proof (advance_remaining l c Hc) as Hadv.
  destruct fuel as [| fuel]; simpl; rewrite Hc, Hs; [simpl; lia |].
  eapply ends_weaken; [apply skip_whitespace_ends; lia |].
  simpl; intros l' [Hn Hr]; split; [exact Hn | lia].
Qed.

Lemma integer_loop_ends (fuel : nat) (acc : string) (l : Lexer) :
  remaining l <= fuel ->
  ends (fun r => remaining (snd r) <= remaining l) (integer_loop fuel acc l).
Proof.
  revert acc l. induction fuel as [| fuel IH]; intros acc l Hf; simpl;
    destruct (current_char l) as [c |] eqn:Hc; try (simpl; lia);
    destruct (isdigit c) eqn:Hd; try (simpl; lia).
  - unfold remaining in Hf; rewrite Hc in Hf; lia.
  - pose proof (advance_remaining l c Hc) as Hadv.
    eapply ends_weaken; [apply IH; lia |].
    simpl; intros r Hr; lia.
Qed.

Lemma int_cases (s : string) :
  (exists n, int s = Ok n /\ int_digits 0 s = Some n /\ s <> ""
             /\ (Z.of_nat (String.length s) <= int_max_str_digits)%Z)
  \/ int s = Raise ValueError.
Proof.
  unfold int. destruct s as [| d s]; [right; reflexivity |].
  destruct (Z.ltb_spec int_max_str_digits
              (Z.of_nat (String.length (String d s)))) as [H | H];
    [right; reflexivity |].
  destruct (int_digits 0 (String d s)) as [n |]; [| right; reflexivity].
  left. exists n. repeat split; [discriminate | exact H].
Qed.

Lemma int_total (s : string) : int s <> OutOfFuel.
Proof.
  destruct (int_cases s) as [(n & -> & _) | ->]; discriminate.
Qed.

Lemma integer_ends (fuel : nat) (l : Lexer) (c : ascii) :
  current_char l = Some c -> isdigit c = true -> remaining l <= fuel ->
  ends (fun r => remaining (snd r) < remaining l) (integer fuel l).
Proof.
  intros Hc Hd Hf. pose proof (advance_remaining l c Hc) as Hadv.
  unfold integer.
  apply ends_bind with (Q := fun r => remaining (snd r) < remaining l).
  - destruct fuel as [| fuel]; simpl; rewrite Hc, Hd; [simpl; lia |].
    eapply ends_weaken; [apply integer_loop_ends; lia |].
    simpl; intros r Hr; lia.
  - intros [s l'] Hr. simpl in Hr.
    destruct (int_cases s) as [(n & -> & _) | ->]; simpl; auto.
Qed.

Lemma get_next_token_nonspace_ends (fuel : nat) (l : Lexer) :
  nonspace l -> remaining l + 1 <= fuel ->
  ends (fun r => remaining (snd r) + weight (fst r) <= remaining l)
       (get_next_token fuel l).
Proof.
  intros Hn Hf. destruct fuel as [| fuel]; [lia |]. simpl.
  unfold nonspace in Hn.
  destruct (current_char l) as [c |] eqn:Hc; [| simpl; unfold weight; simpl; lia].
  rewrite Hn. pose proof (advance_remaining l c Hc) as Hadv.
  destruct (isdigit c) eqn:Hd.
  - eapply ends_bind; [apply (integer_ends fuel l c Hc Hd); lia |].
    intros [n l'] Hr; simpl in *. unfold weight; simpl. lia.
  - repeat match goal with
           | |- ends _ (if ?b then _ else _) => destruct b
           end; simpl; unfold weight; simpl; auto; lia.
Qed.

Lemma get_next_token_ends (fuel : nat) (l : Lexer) :
  remaining l + 1 <= fuel ->
  ends (fun r => remaining (snd r) + weight (fst r) <= remaining l)
       (get_next_token fuel l).
Proof.
  intros Hf.
  destruct (current_char l) as [c |] eqn:Hc.
  - destruct (isspace c) eqn:Hs.
    + destruct fuel as [| fuel]; [lia |]. simpl. rewrite Hc, Hs.
      eapply ends_bind; [apply (skip_whitespace_strict fuel l c Hc Hs); lia |].
      intros l' [Hn Hr]. simpl.
      eapply ends_weaken; [apply get_next_token_nonspace_ends; auto; lia |].
      simpl; intros r H; lia.
    + apply get_next_token_nonspace_ends; [| exact Hf].
      unfold nonspace; rewrite Hc; exact Hs.
  - apply get_next_token_nonspace_ends; [| exact Hf].
    unfold nonspace; rewrite Hc; exact I.
Qed.

Lemma eat_ends (fuel : nat) (tt : TokenType) (p : Parser) :
  tt <> EOF -> remaining (lexer p) + 1 <= fuel ->
  ends (fun p' => mu p' < mu p) (eat fuel tt p).
Proof.
  intros Htt Hf. unfold eat.
  destruct (TokenType_eqb (type (current_token p)) tt) eqn:E; [| exact I].
  apply TokenType_eqb_eq in E.
  eapply ends_bind; [apply get_next_token_ends; exact Hf |].
  intros [tok l'] Hr; simpl in *. unfold mu; simpl.
  assert (weight (current_token p) = 1) as ->; [| lia].
  unfold weight. rewrite E. destruct tt; try reflexivity. congruence.
Qed.

Lemma mu_zero_EOF (p : Parser) :
  mu p = 0 -> type (current_token p) = EOF.
Proof.
  unfold mu, weight. intros H.
  destruct (TokenType_eqb (type (current_token p)) EOF) eqn:E; [| lia].
  apply TokenType_eqb_eq; exact E.
Qed.

Section ProductionsEnd.
Variable f : nat.
Variable rec : Parser -> outcome (AST * Parser).

Lemma factor_body_ends (p : Parser) :
  mu p + 1 <= f ->
  (forall q, mu q < mu p -> consumes q (rec q)) ->
  consumes p (factor_body f rec p).
Proof.
  intros Hf Hrec. unfold consumes, factor_body.
  assert (remaining (lexer p) + 1 <= f) as Hl by (unfold mu in Hf; lia).
  destruct (TokenType_eqb (type (current_token p)) INTEGER).
  - eapply ends_bind; [apply eat_ends; [discriminate | exact Hl] |].
    intros p1 H1; exact H1.
  - destruct (TokenType_eqb (type (current_token p)) LPAREN); [| exact I].
    eapply ends_bind; [apply eat_ends; [discriminate | exact Hl] |].
    intros p1 H1. simpl in H1.
    eapply ends_bind; [apply (Hrec p1 H1) |].
    intros [node p2] H2. simpl in H2.
    eapply ends_bind;
      [apply eat_ends; [discriminate | unfold mu in *; lia] |].
    intros p3 H3. simpl in *. lia.
Qed.

Lemma term_loop_ends (n : nat) (node : AST) (p : Parser) :
  mu p <= n -> mu p + 1 <= f ->
  (forall q, mu q < mu p -> consumes q (rec q)) ->
  keeps p (term_loop f rec n node p).
Proof.
  revert node p. induction n as [| n IH]; intros node p Hn Hf Hrec;
    unfold keeps; simpl;
    destruct (TokenType_eqb (type (current_token p)) MUL
              || TokenType_eqb (type (current_token p)) DIV) eqn:Hop;
    try (simpl; lia).
  - rewrite (mu_zero_EOF p) in Hop by lia. discriminate.
  - assert (remaining (lexer p) + 1 <= f) as Hl by (unfold mu in Hf; lia).
    apply ends_bind with (Q := fun p1 => mu p1 < mu p).
    + destruct (TokenType_eqb (type (current_token p)) MUL);
        [apply eat_ends; [discriminate | exact Hl] |].
      destruct (TokenType_eqb (type (current_token p)) DIV);
        [apply eat_ends; [discriminate | exact Hl] | discriminate].
    + intros p1 H1.
      eapply ends_bind.
      * apply (factor_body_ends p1); [lia |].
        intros q Hq; apply Hrec; lia.
      * intros [r p2] H2. simpl in H2.
        eapply ends_weaken.
        -- apply (IH (BinOp node (current_token p) r) p2); [lia | lia |].
           intros q Hq; apply Hrec; lia.
        -- simpl; intros np H; lia.
Qed.

Lemma term_body_ends (p : Parser) :
  mu p + 1 <= f ->
  (forall q, mu q < mu p -> consumes q (rec q)) ->
  consumes p (term_body f rec p).
Proof.
  intros Hf Hrec. unfold consumes, term_body.
  eapply ends_bind; [apply (factor_body_ends p Hf Hrec) |].
  intros [node p1] H1. simpl in H1.
  eapply ends_weaken.
  - apply (term_loop_ends f node p1); [lia | lia |].
    intros q Hq; apply Hrec; lia.
  - simpl; intros np H; lia.
Qed.

Lemma expr_loop_ends (n : nat) (node : AST) (p : Parser) :
  mu p <= n -> mu p + 1 <= f ->
  (forall q, mu q < mu p -> consumes q (rec q)) ->
  keeps p (expr_loop f rec n node p).
Proof.
  revert node p. induction n as [| n IH]; intros node p Hn Hf Hrec;
    unfold keeps; simpl;
    destruct (TokenType_eqb (type (current_token p)) PLUS
              || TokenType_eqb (type (current_token p)) MINUS) eqn:Hop;
    try (simpl; lia).
  - rewrite (mu_zero_EOF p) in Hop by lia. discriminate.
  - assert (remaining (lexer p) + 1 <= f) as Hl by (unfold mu in Hf; lia).
    apply ends_bind with (Q := fun p1 => mu p1 < mu p).
    + destruct (TokenType_eqb (type (current_token p)) PLUS);
        [apply eat_ends; [discriminate | exact Hl] |].
      destruct (TokenType_eqb (type (current_token p)) MINUS);
        [apply eat_ends; [discriminate | exact Hl] | discriminate].
    + intros p1 H1.
      eapply ends_bind.
      * apply (term_body_ends p1); [lia |].
        intros q Hq; apply Hrec; lia.
      * intros [r p2] H2. simpl in H2.
        eapply ends_weaken.
        -- apply (IH (BinOp node (current_token p) r) p2); [lia | lia |].
           intros q Hq; apply Hrec; lia.
        -- simpl; intros np H; lia.
Qed.

Lemma expr_body_ends (p : Parser) :
  mu p + 1 <= f ->
  (forall q, mu q < mu p -> consumes q (rec q)) ->
  consumes p (expr_body f rec p).
Proof.
  intros Hf Hrec. unfold consumes, expr_body.
  eapply ends_bind; [apply (term_body_ends p Hf Hrec) |].
  intros [node p1] H1. simpl in H1.
  eapply ends_weaken.
  - apply (expr_loop_ends f node p1); [lia | lia |].
    intros q Hq; apply Hrec; lia.
  - simpl; intros np H; lia.
Qed.
End ProductionsEnd.

Lemma expr_ends (fuel : nat) (p : Parser) :
  mu p + 2 <= fuel -> consumes p (expr fuel p).
Proof.
  revert p. induction fuel as [| fuel IH]; intros p Hf; [lia |]. simpl.
  apply expr_body_ends; [lia |].
  intros q Hq; apply IH; lia.
Qed.

(** A production that returns has read something, whatever the budget. *)
Lemma expr_consumes (fuel : nat) (p : Parser) (node : AST) (p' : Parser) :
  expr fuel p = Ok (node, p') -> mu p' < mu p.
Proof.
  intros E.
  pose proof (expr_ends (fuel + (mu p + 2)) p ltac:(lia)) as H.
  rewrite (expr_mono fuel (fuel + (mu p + 2)) p) in H
    by (try lia; rewrite E; discriminate).
  rewrite E in H. exact H.
Qed.

Lemma factor_consumes (fuel : nat) (p : Parser) (node : AST) (p' : Parser) :
  factor fuel p = Ok (node, p') -> mu p' < mu p.
Proof.
  intros E. set (F := fuel + (mu p + 2)).
  assert (consumes p (factor F p)) as H.
  { apply factor_body_ends; [unfold F; lia |].
    intros q Hq; apply expr_ends; unfold F; lia. }
  unfold factor in *.
  rewrite (factor_body_mono fuel F (expr fuel) (expr F)) in H.
  - rewrite E in H. exact H.
  - unfold F; lia.
  - intros q; apply expr_mono; unfold F; lia.
  - rewrite E; discriminate.
Qed.

Lemma term_consumes (fuel : nat) (p : Parser) (node : AST) (p' : Parser) :
  term fuel p = Ok (node, p') -> mu p' < mu p.
Proof.
  intros E. set (F := fuel + (mu p + 2)).
  assert (consumes p (term F p)) as H.
  { apply term_body_ends; [unfold F; lia |].
    intros q Hq; apply expr_ends; unfold F; lia. }
  unfold term in *.
  rewrite (term_body_mono fuel F (expr fuel) (expr F)) in H.
  - rewrite E in H. exact H.
  - unfold F; lia.
  - intros q; apply expr_mono; unfold F; lia.
  - rewrite E; discriminate.
Qed.

(** ** The interpreter needs no budget *)

Lemma finite_or_overflow_ends (x : spec_float) :
  finite_or_overflow x <> OutOfFuel.
Proof. destruct x; discriminate. Qed.

Lemma float_of_int_ends (n : Z) : float_of_int n <> OutOfFuel.
Proof. apply finite_or_overflow_ends. Qed.

Lemma int_true_divide_ends (a b : Z) : int_true_divide a b <> OutOfFuel.
Proof.
  unfold int_true_divide.
  destruct (b =? 0)%Z; [discriminate |].
  destruct (a =? 0)%Z; [discriminate |].
  destruct (SFdiv_core_binary prec emax (Z.abs a) 0 (Z.abs b) 0) as [[q e] loc].
  apply finite_or_overflow_ends.
Qed.

Lemma float_true_divide_ends (x y : spec_float) :
  float_true_divide x y <> OutOfFuel.
Proof. destruct y; discriminate. Qed.

Lemma bind_not_oof {A B : Type} (m : outcome A) (k : A -> outcome B) :
  m <> OutOfFuel -> (forall a, k a <> OutOfFuel) -> bind m k <> OutOfFuel.
Proof. destruct m; simpl; auto; discriminate. Qed.

#[local] Hint Resolve float_of_int_ends int_true_divide_ends
  float_true_divide_ends bind_not_oof : fuel.

Ltac not_oof :=
  repeat (first [ discriminate
                | apply bind_not_oof; [auto with fuel | intros ?] ]).

Lemma py_add_ends (a b : pyval) : py_add a b <> OutOfFuel.
Proof. destruct a, b; simpl; not_oof. Qed.

Lemma py_sub_ends (a b : pyval) : py_sub a b <> OutOfFuel.
Proof. destruct a, b; simpl; not_oof. Qed.

Lemma py_mul_ends (a b : pyval) : py_mul a b <> OutOfFuel.
Proof. destruct a, b; simpl; not_oof. Qed.

Lemma py_truediv_ends (a b : pyval) : py_truediv a b <> OutOfFuel.
Proof. destruct a, b; simpl; not_oof. Qed.

Lemma visit_ends (node : AST) : visit node <> OutOfFuel.
Proof.
  induction node as [l IHl op r IHr | tok]; simpl; [| discriminate].
  repeat match goal with
         | |- (if ?b then _ else _) <> _ => destruct b
         end; try discriminate;
    (apply bind_not_oof; [assumption | intros a]);
    (apply bind_not_oof; [assumption | intros b]).
  - apply py_add_ends.
  - apply py_sub_ends.
  - apply py_mul_ends.
  - apply py_truediv_ends.
Qed.

(** ** The budget that always suffices *)

Lemma Lexer_init_remaining (txt : string) (l : Lexer) :
  Lexer_init txt = Ok l -> remaining l = String.length txt.
Proof.
  unfold Lexer_init. destruct txt as [| c s]; simpl; [discriminate |].
  intros E; injection E as <-. unfold remaining; simpl. lia.
Qed.

Lemma Parser_init_ends (fuel : nat) (l : Lexer) :
  remaining l + 1 <= fuel ->
  ends (fun p => mu p <= remaining l) (Parser_init fuel l).
Proof.
  intros Hf. unfold Parser_init.
  eapply ends_bind; [apply get_next_token_ends; exact Hf |].
  intros [tok l'] H. simpl in *. unfold mu; simpl. lia.
Qed.

Lemma parse_ends (fuel : nat) (txt : string) :
  fuel_bound txt <= fuel -> parse fuel txt <> OutOfFuel.
Proof.
  unfold fuel_bound, parse. intros Hf.
  destruct (Lexer_init txt) as [l | e |] eqn:El; simpl; try discriminate.
  - pose proof (Lexer_init_remaining txt l El) as Hr.
    apply (ends_not_oof (fun _ => True)).
    eapply ends_bind; [apply Parser_init_ends; lia |].
    intros p Hp. simpl in Hp.
    eapply ends_weaken; [apply expr_ends; lia | auto].
  - unfold Lexer_init in El. destruct (String.get 0 txt); discriminate.
Qed.

Lemma evaluate_ends (fuel : nat) (txt : string) :
  fuel_bound txt <= fuel -> evaluate fuel txt <> OutOfFuel.
Proof.
  unfold fuel_bound, evaluate. intros Hf.
  destruct (Lexer_init txt) as [l | e |] eqn:El; simpl; try discriminate.
  - pose proof (Lexer_init_remaining txt l El) as Hr.
    apply (ends_not_oof (fun _ => True)).
    eapply ends_bind; [apply Parser_init_ends; lia |].
    intros p Hp. simpl in Hp. unfold interpret.
    eapply ends_bind; [apply expr_ends; lia |].
    intros [tree p'] _.
    pose proof (visit_ends tree). destruct (visit tree); simpl; auto.
  - unfold Lexer_init in El. destruct (String.get 0 txt); discriminate.
Qed.

Lemma parse_enough (fuel : nat) (txt : string) :
  fuel_bound txt <= fuel -> parse fuel txt = parse (fuel_bound txt) txt.
Proof.
  intros Hf. apply parse_mono; [exact Hf |].
  apply parse_ends. apply Nat.le_refl.
Qed.

Lemma evaluate_enough (fuel : nat) (txt : string) :
  fuel_bound txt <= fuel -> evaluate fuel txt = evaluate (fuel_bound txt) txt.
Proof.
  intros Hf. apply evaluate_mono; [exact Hf |].
  apply evaluate_ends. apply Nat.le_refl.
Qed.

Lemma tokens_mono (f f' : nat) (l : Lexer) :
  f <= f' -> approx (tokens f l) (tokens f' l).
Proof.
  revert f' l. induction f as [| f IH]; intros f' l Hle; simpl;
    [apply approx_oof |].
  destruct f' as [| f']; [lia |]. simpl.
  apply approx_bind; [apply get_next_token_mono; lia |].
  intros [tok l']. destruct (TokenType_eqb (type tok) EOF);
    [apply approx_refl |].
  apply approx_bind; [apply IH; lia | intros r; apply approx_refl].
Qed.

Lemma tokenize_mono (f f' : nat) (txt : string) :
  f <= f' -> approx (tokenize f txt) (tokenize f' txt).
Proof.
  intros Hle. unfold tokenize. apply approx_bind; [apply approx_refl |].
  intros l; apply tokens_mono; exact Hle.
Qed.

(** * Sample runs *)

Example run_parentheses : evaluate 13 "(2 + 3) * 4" = Ok (PyInt 20).
Proof. vm_compute; reflexivity. Qed.

Example run_whitespace :
  tokenize 9 "1+2" = tokenize 9 " 1 + 2 "
  /\ tokenize 9 "1+2"
     = Ok [mkToken INTEGER (PyInt 1); mkToken PLUS (PyStr "+");
           mkToken INTEGER (PyInt 2); EOF_token].
Proof. vm_compute; split; reflexivity. Qed.

Example run_leading_zeros : evaluate 5 "007" = Ok (PyInt 7).
Proof. vm_compute; reflexivity. Qed.

Example run_unary_minus : evaluate 4 "-5" = Raise ParsingError.
Proof. vm_compute; reflexivity. Qed.

Example run_empty_line : evaluate 2 "" = Raise IndexError.
Proof. vm_compute; reflexivity. Qed.

Example run_division_by_zero : evaluate 5 "1/0" = Raise ZeroDivisionError.
Proof. vm_compute; reflexivity. Qed.

(** SUPERSCRIPT TWO passes [isdigit] and is rejected by [int]. *)
Example run_superscript_digit :
  evaluate 3 (String (ascii_of_nat 178) "") = Raise ValueError.
Proof. vm_compute; reflexivity. Qed.

(** * The properties of the specification *)

(** ** Precedence *)

(** C1. For the input "2 + 3 * 4" the three stages yield 14: the product is
    parsed as the right operand of the sum, because [expr] takes its
    operands from [term]. *)
Theorem C1_precedence (fuel : nat) :
  fuel_bound "2 + 3 * 4" <= fuel ->
  (exists p',
      parse fuel "2 + 3 * 4" =
      Ok (BinOp (Num (mkToken INTEGER (PyInt 2)))
                (mkToken PLUS (PyStr "+"))
                (BinOp (Num (mkToken INTEGER (PyInt 3)))
                       (mkToken MUL (PyStr "*"))
                       (Num (mkToken INTEGER (PyInt 4)))), p'))
  /\ evaluate fuel "2 + 3 * 4" = Ok (PyInt 14)
  /\ evaluate fuel "2 + 3 * 4" <> Ok (PyInt 20).
Proof.
  intros Hf. rewrite (parse_enough fuel), (evaluate_enough fuel) by exact Hf.
  vm_compute. repeat split; [eexists; reflexivity | discriminate].
Qed.

Lemma C1_precedence_witness :
  fuel_bound "2 + 3 * 4" <= 11 /\ evaluate 11 "2 + 3 * 4" = Ok (PyInt 14).
Proof.
  assert (H : fuel_bound "2 + 3 * 4" <= 11) by (vm_compute; apply le_n).
  split; [exact H | exact (proj1 (proj2 (C1_precedence 11 H)))].
Defined.

(** * Division rounds to the nearest float

    [SFdiv_core_binary] and [binary_round_aux], which [int_true_divide] and
    [SFdiv] are made of, give the exact quotient rounded to the nearest
    float, ties to even. *)

Section Division.
Local Open Scope Z_scope.

(** * Binary digits *)

Lemma digits2_pos_size (p : positive) : digits2_pos p = Pos.size p.
Proof. induction p; simpl; congruence. Qed.

Lemma Zdigits2_log2 (m : Z) : 0 < m -> Zdigits2 m = Z.log2 m + 1.
Proof.
  destruct m as [| p | p]; try lia. intros _. cbn [Zdigits2].
  rewrite digits2_pos_size. destruct p; cbn [Z.log2 Pos.size]; lia.
Qed.

Lemma Zdigits2_bounds (m : Z) :
  0 < m -> 0 < Zdigits2 m /\ 2 ^ (Zdigits2 m - 1) <= m < 2 ^ Zdigits2 m.
Proof.
  intros H. rewrite (Zdigits2_log2 m H).
  pose proof (Z.log2_nonneg m). pose proof (Z.log2_spec m H) as S.
  replace (Z.log2 m + 1 - 1) with (Z.log2 m) by lia.
  replace (Z.log2 m + 1) with (Z.succ (Z.log2 m)) by lia. lia.
Qed.

Lemma pow2_pos (k : Z) : 0 <= k -> 0 < 2 ^ k.
Proof. intros H. apply Z.pow_pos_nonneg; lia. Qed.

Lemma pow2_le (a b : Z) : 0 <= a <= b -> 2 ^ a <= 2 ^ b.
Proof. intros H. apply Z.pow_le_mono_r; lia. Qed.

Lemma pow2_lt_inv (a b : Z) : 0 <= a -> 0 <= b -> 2 ^ a < 2 ^ b -> a < b.
Proof. intros Ha Hb H. apply (Z.pow_lt_mono_r_iff 2); lia. Qed.

Lemma Zdigits2_le (m k : Z) : 0 <= k -> 0 <= m < 2 ^ k -> Zdigits2 m <= k.
Proof.
  intros Hk [H0 H]. destruct (Z.eq_dec m 0) as [-> | Hm]; [simpl; lia |].
  destruct (Zdigits2_bounds m ltac:(lia)) as [Hd [Hl _]].
  assert (Hlt : 2 ^ (Zdigits2 m - 1) < 2 ^ k) by lia.
  apply pow2_lt_inv in Hlt; lia.
Qed.

Lemma Zdigits2_ge (m k : Z) : 0 <= k -> 2 ^ k <= m -> k + 1 <= Zdigits2 m.
Proof.
  intros Hk H. pose proof (pow2_pos k Hk).
  destruct (Zdigits2_bounds m ltac:(lia)) as [Hd [_ Hu]].
  assert (Hlt : 2 ^ k < 2 ^ Zdigits2 m) by lia.
  apply pow2_lt_inv in Hlt; lia.
Qed.

(** * Shifting with a round bit and a sticky bit *)

Lemma shr_1_located (N D : Z) (mrs : shr_record) :
  located N D mrs -> located N (2 * D) (shr_1 mrs).
Proof.
  destruct mrs as [m r s]. unfold located; cbn [shr_m shr_r shr_s].
  intros (Hm & rho & HN & Hrho & Hr & Hs).
  assert (Hor : orb r s = true <-> rho <> 0).
  { rewrite orb_true_iff, Hr, Hs. lia. }
  destruct m as [| [p | p |] | p]; try lia; cbn [shr_1 shr_m shr_r shr_s].
  - split; [lia |]. exists rho. rewrite Hor.
    split; [lia |]. split; [lia |].
    split; [split; [discriminate | lia] |]. lia.
  - split; [lia |]. exists (rho + D).
    rewrite Pos2Z.inj_xI in HN. rewrite Hor.
    split; [lia |]. split; [lia |]. split; [split; [lia | reflexivity] |]. lia.
  - split; [lia |]. exists rho.
    rewrite Pos2Z.inj_xO in HN. rewrite Hor.
    split; [lia |]. split; [lia |].
    split; [split; [discriminate | lia] |]. lia.
  - split; [lia |]. exists (rho + D). rewrite Hor.
    split; [lia |]. split; [lia |]. split; [split; [lia | reflexivity] |]. lia.
Qed.

Lemma iter_pos_inv {A : Type} (f : A -> A) (P : Z -> A -> Prop) :
  (forall k x, 0 <= k -> P k x -> P (k + 1) (f x)) ->
  forall p k x, 0 <= k -> P k x -> P (k + Zpos p) (SpecFloat.iter_pos f p x).
Proof.
  intros Hf. induction p as [p IH | p IH |]; intros k x Hk Hx;
    cbn [SpecFloat.iter_pos].
  - replace (k + Zpos p~1) with (k + 1 + Zpos p + Zpos p) by lia.
    apply IH; [lia |]. apply IH; [lia |]. apply Hf; assumption.
  - replace (k + Zpos p~0) with (k + Zpos p + Zpos p) by lia.
    apply IH; [lia |]. apply IH; assumption.
  - apply Hf; assumption.
Qed.

Lemma iter_shr_1_located (N D : Z) (p : positive) (mrs : shr_record) :
  located N D mrs -> located N (D * 2 ^ Zpos p) (SpecFloat.iter_pos shr_1 p mrs).
Proof.
  intros H.
  pose proof (iter_pos_inv shr_1 (fun k x => located N (D * 2 ^ k) x)) as I.
  cbv beta in I. replace (Zpos p) with (0 + Zpos p) by lia.
  apply I; [| lia | rewrite Z.mul_1_r; exact H].
  intros k x Hk Hx. rewrite Z.pow_add_r, Z.pow_1_r by lia.
  replace (D * (2 ^ k * 2)) with (2 * (D * 2 ^ k)) by lia.
  apply shr_1_located. exact Hx.
Qed.

Lemma shr_located (N D : Z) (mrs : shr_record) (e n : Z) :
  located N D mrs ->
  located N (D * 2 ^ Z.max n 0) (fst (shr mrs e n))
  /\ snd (shr mrs e n) = e + Z.max n 0.
Proof.
  intros H. destruct n as [| p | p]; cbn [shr fst snd].
  - rewrite Z.mul_1_r. split; [exact H | lia].
  - rewrite Z.max_l by lia. split; [apply iter_shr_1_located; exact H | lia].
  - rewrite Z.max_r by lia. rewrite Z.mul_1_r. split; [exact H | lia].
Qed.

(** * The location of a remainder *)

Ltac settle_bit :=
  let E := fresh in
  split;
  [ intros E; first [discriminate E | lia]
  | intros E; first [reflexivity | exfalso; lia] ].

Lemma new_location_located (D q r : Z) :
  0 < D -> 0 <= q -> 0 <= r < D ->
  located (q * D + r) D (shr_record_of_loc q (new_location D r)).
Proof.
  intros HD Hq Hr. unfold new_location, new_location_even, new_location_odd.
  assert (G : forall mrs, shr_m mrs = q ->
                (shr_r mrs = true <-> D <= 2 * r) ->
                (shr_s mrs = true <-> r <> 0 /\ 2 * r <> D) ->
                located (q * D + r) D mrs).
  { intros mrs Em Er Es. split; [lia |]. exists r. rewrite Em. auto. }
  destruct (Z.even D) eqn:Ev.
  - destruct (Z.eqb_spec r 0) as [-> | Hr0].
    + apply G; cbn [shr_m shr_r shr_s shr_record_of_loc]; try reflexivity; settle_bit.
    + destruct (Z.compare_spec (2 * r) D); apply G; cbn [shr_m shr_r shr_s shr_record_of_loc];
        try reflexivity; settle_bit.
  - assert (Hodd : Z.odd D = true) by (rewrite <- Z.negb_even, Ev; reflexivity).
    apply Z.odd_spec in Hodd. destruct Hodd as [k Hk].
    destruct (Z.eqb_spec r 0) as [-> | Hr0].
    + apply G; cbn [shr_m shr_r shr_s shr_record_of_loc]; try reflexivity; settle_bit.
    + destruct (Z.compare_spec (2 * r + 1) D); apply G; cbn [shr_m shr_r shr_s shr_record_of_loc];
        try reflexivity; settle_bit.
Qed.

(** * Rounding to nearest, ties to even *)

Lemma round_nearest_even_located (N D : Z) (mrs : shr_record) :
  0 < D -> located N D mrs ->
  let m := round_nearest_even (shr_m mrs) (loc_of_shr_record mrs) in
  shr_m mrs <= m <= shr_m mrs + 1 /\ 2 * Z.abs (m * D - N) <= D.
Proof.
  intros HD (Hm & rho & HN & Hrho & Hr & Hs).
  destruct mrs as [m r s]. cbn [shr_m shr_r shr_s] in *.
  destruct r, s; cbn [loc_of_shr_record round_nearest_even].
  - assert (D <= 2 * rho) by (apply Hr; reflexivity). split; [lia |].
    replace ((m + 1) * D - N) with (D - rho) by lia. lia.
  - assert (D <= 2 * rho) by (apply Hr; reflexivity).
    assert (~ (rho <> 0 /\ 2 * rho <> D)) by (rewrite <- Hs; discriminate).
    destruct (Z.even m); (split; [lia |]).
    + replace (m * D - N) with (- rho) by lia. lia.
    + replace ((m + 1) * D - N) with (D - rho) by lia. lia.
  - assert (~ D <= 2 * rho) by (rewrite <- Hr; discriminate). split; [lia |].
    replace (m * D - N) with (- rho) by lia. lia.
  - assert (~ (rho <> 0 /\ 2 * rho <> D)) by (rewrite <- Hs; discriminate).
    assert (~ D <= 2 * rho) by (rewrite <- Hr; discriminate). split; [lia |].
    replace (m * D - N) with (- rho) by lia. lia.
Qed.

(** * Rounding a quotient *)

Lemma fexp_eq (e : Z) : fexp prec emax e = Z.max (e - 53) (-1074).
Proof. reflexivity. Qed.

Lemma round_first (D q r e' : Z) :
  0 < D -> 0 <= q -> 0 <= r < D ->
  e' <= fexp prec emax (Zdigits2 q + e') ->
  forall mrs e1,
    shr_fexp prec emax q e' (new_location D r) = (mrs, e1) ->
    let m := round_nearest_even (shr_m mrs) (loc_of_shr_record mrs) in
    e1 = fexp prec emax (Zdigits2 q + e')
    /\ 0 <= m <= 2 ^ 53
    /\ (-1074 < e1 -> 2 ^ 52 <= m)
    /\ 2 * Z.abs (m * (D * 2 ^ (e1 - e')) - (q * D + r)) <= D * 2 ^ (e1 - e').
Proof.
  intros HD Hq Hr He mrs e1 E. unfold shr_fexp in E.
  set (n := fexp prec emax (Zdigits2 q + e') - e') in *.
  assert (Hn : 0 <= n) by (unfold n; lia).
  pose proof (shr_located (q * D + r) D _ e' n
                (new_location_located D q r HD Hq Hr)) as [L Ee].
  rewrite E in L, Ee. cbn [fst snd] in L, Ee.
  rewrite Z.max_l in L, Ee by exact Hn.
  assert (He1 : e1 = fexp prec emax (Zdigits2 q + e')) by (unfold n in Ee; lia).
  assert (Hd : e1 - e' = n) by lia.
  pose proof (pow2_pos n Hn) as Hp.
  assert (HD' : 0 < D * 2 ^ n) by lia.
  pose proof (round_nearest_even_located _ _ mrs HD' L) as [Hm Herr].
  cbv zeta. split; [exact He1 |]. rewrite Hd.
  destruct L as (Hm0 & rho & HN & Hrho & _).
  set (m1 := shr_m mrs) in *.
  set (m := round_nearest_even m1 (loc_of_shr_record mrs)) in *.
  (* m1 * 2^n <= q *)
  assert (Hle : m1 * 2 ^ n <= q).
  { assert (m1 * 2 ^ n * D < (q + 1) * D) by nia. nia. }
  assert (Hlt : q < (m1 + 1) * 2 ^ n).
  { assert (q * D < (m1 + 1) * 2 ^ n * D) by nia. nia. }
  rewrite fexp_eq in He1.
  assert (Hup : m1 < 2 ^ 53).
  { destruct (Z.eq_dec q 0) as [Hq0 | Hq0].
    - assert (m1 = 0) by nia. subst m1. lia.
    - destruct (Zdigits2_bounds q ltac:(lia)) as [Hdq [_ Hqu]].
      assert (Hdn : Zdigits2 q <= n + 53) by lia.
      pose proof (pow2_le (Zdigits2 q) (n + 53) ltac:(lia)) as Hpw.
      rewrite Z.pow_add_r in Hpw by lia. nia. }
  split; [lia |]. split; [| exact Herr].
  intros Hbig.
  assert (Hn53 : n = Zdigits2 q - 53) by lia.
  assert (Hq0 : 0 < q).
  { destruct (Z.eq_dec q 0) as [-> | ]; [simpl in Hn53; lia | lia]. }
  destruct (Zdigits2_bounds q Hq0) as [Hdq [Hql _]].
  replace (Zdigits2 q - 1) with (52 + n) in Hql by lia.
  rewrite Z.pow_add_r in Hql by lia.
  assert (2 ^ 52 < m1 + 1) by nia. lia.
Qed.

Lemma shr_1_even (k : Z) :
  0 < k ->
  shr_1 (Build_shr_record (2 * k) false false) = Build_shr_record k false false.
Proof. destruct k; try lia. intros _. reflexivity. Qed.

Lemma canonical_53 (m : positive) (e : Z) :
  -1074 <= e -> Zpos m < 2 ^ 53 -> (-1074 < e -> 2 ^ 52 <= Zpos m) ->
  canonical_mantissa prec emax m e = true.
Proof.
  intros He Hu Hl. unfold canonical_mantissa. apply Z.eqb_eq.
  rewrite fexp_eq.
  change (Zpos (digits2_pos m)) with (Zdigits2 (Zpos m)).
  pose proof (Zdigits2_le (Zpos m) 53 ltac:(lia) ltac:(lia)) as H1.
  destruct (Z.eq_dec e (-1074)) as [-> | Hne]; [lia |].
  pose proof (Zdigits2_ge (Zpos m) 52 ltac:(lia) ltac:(apply Hl; lia)) as H2.
  lia.
Qed.

Lemma round_second (m e1 : Z) :
  0 <= m <= 2 ^ 53 -> -1074 <= e1 -> (-1074 < e1 -> 2 ^ 52 <= m) ->
  forall mrs e2,
    shr_fexp prec emax m e1 loc_Exact = (mrs, e2) ->
    (m = 0 /\ shr_m mrs = 0)
    \/ (exists mf,
           shr_m mrs = Zpos mf /\ Zpos mf * 2 ^ (e2 - e1) = m
           /\ e1 <= e2 <= e1 + 1
           /\ canonical_mantissa prec emax mf e2 = true).
Proof.
  intros Hm He Hl mrs e2 E. unfold shr_fexp in E. rewrite fexp_eq in E.
  cbn [shr_record_of_loc] in E.
  destruct (Z.eq_dec m 0) as [Hm0 | Hm0].
  - subst m. cbn [Zdigits2] in E.
    replace (Z.max (0 + e1 - 53) (-1074) - e1) with (-1074 - e1) in E by lia.
    destruct (-1074 - e1) as [| p | p] eqn:En; try lia; cbn [shr] in E;
      injection E as <- <-; left; auto.
  - right. destruct (Z.eq_dec m (2 ^ 53)) as [Hm53 | Hm53].
    + subst m.
      assert (Hd : Zdigits2 (2 ^ 53) = 54) by reflexivity. rewrite Hd in E.
      replace (Z.max (54 + e1 - 53) (-1074) - e1) with 1 in E by lia.
      cbn [shr SpecFloat.iter_pos] in E. change (2 ^ 53) with (2 * 2 ^ 52) in E.
      rewrite shr_1_even in E by reflexivity.
      injection E as <- <-. cbn [shr_m].
      exists (Z.to_pos (2 ^ 52)). split; [reflexivity |].
      replace (e1 + 1 - e1) with 1 by lia.
      split; [reflexivity |]. split; [lia |].
      apply canonical_53; [lia | reflexivity |]. intros _. apply Z.le_refl.
    + assert (Hlt : m < 2 ^ 53) by lia.
      pose proof (Zdigits2_le m 53 ltac:(lia) ltac:(lia)) as Hd.
      destruct (Z.max (Zdigits2 m + e1 - 53) (-1074) - e1) as [| p | p] eqn:En;
        try lia; cbn [shr] in E; injection E as <- <-; cbn [shr_m];
        (destruct m as [| mf | mf]; try lia);
        exists mf; (split; [reflexivity |]);
        replace (e1 - e1) with 0 by lia;
        (split; [lia |]); (split; [lia |]);
        apply canonical_53; auto.
Qed.

Lemma canonical_normal (m : positive) (e : Z) :
  canonical_mantissa prec emax m e = true -> -1074 < e -> 2 ^ 52 <= Zpos m.
Proof.
  unfold canonical_mantissa. rewrite fexp_eq. intros H He.
  apply Z.eqb_eq in H.
  change (Zpos (digits2_pos m)) with (Zdigits2 (Zpos m)) in H.
  destruct (Zdigits2_bounds (Zpos m) ltac:(lia)) as [_ [Hl _]].
  replace (Zdigits2 (Zpos m) - 1) with 52 in Hl by lia. exact Hl.
Qed.

Lemma binary_round_aux_spec (sx : bool) (D q r e' : Z) :
  0 < D -> 0 <= q -> 0 <= r < D ->
  e' <= fexp prec emax (Zdigits2 q + e') ->
  rounds_to sx (q * D + r) D e'
    (binary_round_aux prec emax sx q e' (new_location D r)).
Proof.
  intros HD Hq Hr He. unfold binary_round_aux.
  destruct (shr_fexp prec emax q e' (new_location D r)) as [mrs e1] eqn:E1.
  pose proof (round_first D q r e' HD Hq Hr He mrs e1 E1) as F.
  cbv zeta in F. destruct F as (He1 & Hm & Hnorm & Herr).
  set (m := round_nearest_even (shr_m mrs) (loc_of_shr_record mrs)) in *.
  assert (Hemin : -1074 <= e1) by (rewrite He1, fexp_eq; lia).
  assert (Hee : e' <= e1) by lia.
  destruct (shr_fexp prec emax m e1 loc_Exact) as [mrs2 e2] eqn:E2.
  destruct (round_second m e1 Hm Hemin Hnorm mrs2 e2 E2)
    as [[Hm0 ->] | (mf & -> & Hv & He2 & Hc)].
  - cbn [rounds_to]. split; [reflexivity |].
    assert (e1 = -1074).
    { destruct (Z.eq_dec e1 (-1074)); [assumption |].
      pose proof (pow2_pos 52 ltac:(lia)).
      assert (2 ^ 52 <= m) by (apply Hnorm; lia). lia. }
    split; [lia |]. rewrite Hm0, H in Herr. lia.
  - pose proof (pow2_pos (e1 - e') ltac:(lia)) as P1.
    pose proof (pow2_pos (e2 - e1) ltac:(lia)) as P2.
    assert (Hpow : 2 ^ (e2 - e') = 2 ^ (e2 - e1) * 2 ^ (e1 - e')).
    { rewrite <- Z.pow_add_r by lia. f_equal; lia. }
    assert (Hbound : 2 * Z.abs (Zpos mf * (D * 2 ^ (e2 - e')) - (q * D + r))
                     <= D * 2 ^ (e2 - e')).
    { rewrite Hpow.
      replace (Zpos mf * (D * (2 ^ (e2 - e1) * 2 ^ (e1 - e'))))
        with (m * (D * 2 ^ (e1 - e'))) by (rewrite <- Hv; ring).
      nia. }
    destruct (e2 <=? emax - prec) eqn:Ele.
    + cbn [rounds_to]. split; [reflexivity |].
      split; [unfold bounded; rewrite Hc, Ele; reflexivity |].
      split; [lia | exact Hbound].
    + cbn [rounds_to]. split; [reflexivity |].
      apply Z.leb_gt in Ele. unfold emax, prec in Ele.
      exists (Zpos mf), e2.
      split; [apply (canonical_normal mf e2 Hc); lia |].
      split; [lia |]. split; [lia | exact Hbound].
Qed.

(** * The quotient of two mantissas *)

Lemma SFdiv_core_binary_spec (m1 e1 m2 e2 : Z) :
  0 < m1 -> 0 < m2 ->
  exists q r e',
    SFdiv_core_binary prec emax m1 e1 m2 e2 = (q, e', new_location m2 r)
    /\ e' <= e1 - e2
    /\ m1 * 2 ^ (e1 - e2 - e') = q * m2 + r
    /\ 0 <= r < m2 /\ 0 <= q
    /\ e' <= fexp prec emax (Zdigits2 q + e').
Proof.
  intros H1 H2. unfold SFdiv_core_binary.
  set (delta := Zdigits2 m1 + e1 - (Zdigits2 m2 + e2)).
  set (e' := Z.min (fexp prec emax delta) (e1 - e2)).
  set (s := e1 - e2 - e').
  assert (Hs : 0 <= s) by (unfold s, e'; lia).
  set (m' := match s with
             | 0 => m1
             | Zpos _ => Z.shiftl m1 s
             | Zneg _ => 0
             end).
  assert (Hm' : m' = m1 * 2 ^ s).
  { unfold m'. destruct s as [| p | p] eqn:Es; [rewrite Z.pow_0_r; lia | | lia].
    apply Z.shiftl_mul_pow2. lia. }
  pose proof (Z_div_mod m' m2 ltac:(lia)) as Hdiv.
  destruct (Z.div_eucl m' m2) as [q r]. destruct Hdiv as [Hq Hr].
  pose proof (pow2_pos s Hs) as Hp.
  assert (Hq0 : 0 <= q) by nia.
  exists q, r, e'. split; [reflexivity |].
  split; [unfold e'; lia |]. fold s. split; [lia |].
  split; [lia |]. split; [exact Hq0 |].
  rewrite fexp_eq. destruct (Z_le_gt_dec e' (-1074)) as [Hle | Hgt]; [lia |].
  assert (Hdelta : e' <= delta - 53).
  { unfold e' in Hgt |- *. rewrite fexp_eq in *. lia. }
  destruct (Zdigits2_bounds m1 H1) as [Hd1 [Hl1 _]].
  destruct (Zdigits2_bounds m2 H2) as [Hd2 [_ Hu2]].
  assert (Hexp : 52 + Zdigits2 m2 <= Zdigits2 m1 - 1 + s)
    by (unfold s, delta in *; lia).
  assert (Hbig : 2 ^ 52 * 2 ^ Zdigits2 m2 <= m1 * 2 ^ s).
  { rewrite <- Z.pow_add_r by lia.
    apply Z.le_trans with (2 ^ (Zdigits2 m1 - 1 + s)); [apply pow2_le; lia |].
    rewrite Z.pow_add_r by lia. nia. }
  assert (Hq52 : 2 ^ 52 <= q).
  { pose proof (pow2_pos 52 ltac:(lia)).
    destruct (Z_le_gt_dec (2 ^ 52) q); [assumption |]. nia. }
  pose proof (Zdigits2_ge q 52 ltac:(lia) Hq52). lia.
Qed.

Section Rationals.
Local Open Scope Q_scope.

Lemma two_nonzero : ~ 2 == 0.
Proof. discriminate. Qed.

Lemma pow2_Q (k : Z) : (0 <= k)%Z -> inject_Z (2 ^ k) == 2 ^ k.
Proof. intros H. exact (Zpower_Qpower 2 k H). Qed.

Lemma pow2_Q_pos (e : Z) : 0 < 2 ^ e.
Proof. apply Qpower_0_lt. reflexivity. Qed.

Lemma pow2_Q_split (e e' : Z) : 2 ^ e == 2 ^ (e - e') * 2 ^ e'.
Proof.
  rewrite <- Qpower_plus by exact two_nonzero.
  replace (e - e' + e')%Z with e by lia. reflexivity.
Qed.

Lemma float_value (s : bool) (m : positive) (e : Z) :
  exists q, float_to_Q (S754_finite s m e) = Some q
            /\ q == signed s (inject_Z (Zpos m) * 2 ^ e).
Proof.
  cbn [float_to_Q]. eexists; split; [reflexivity |].
  assert (H : match e with
              | Zneg k => Qmake (Zpos m) (2 ^ k)%positive
              | _ => inject_Z (Zpos m * 2 ^ e)%Z
              end == inject_Z (Zpos m) * 2 ^ e).
  { destruct e as [| p | p].
    - rewrite Z.pow_0_r, Z.mul_1_r. cbn [Qpower]. ring.
    - rewrite inject_Z_mult, pow2_Q by lia. reflexivity.
    - rewrite Qmake_Qdiv. rewrite Pos2Z.inj_pow.
      rewrite pow2_Q by lia.
      change (Zneg p) with (- Zpos p)%Z. rewrite Qpower_opp.
      reflexivity. }
  destruct s; cbn [signed]; rewrite H; reflexivity.
Qed.

Lemma signed_diff (s : bool) (a b : Q) :
  Qabs (signed s a - signed s b) == Qabs (a - b).
Proof.
  destruct s; cbn [signed]; [| reflexivity].
  setoid_replace (- a - - b) with (- (a - b)) by ring.
  apply Qabs_opp.
Qed.

Lemma signed_abs (s : bool) (a : Q) : 0 <= a -> Qabs (signed s a) == a.
Proof.
  intros H. destruct s; cbn [signed].
  - rewrite Qabs_opp. apply Qabs_pos. exact H.
  - apply Qabs_pos. exact H.
Qed.

Lemma inject_Z_pos (z : Z) : (0 < z)%Z -> 0 < inject_Z z.
Proof. intros H. unfold Qlt; simpl; lia. Qed.

Lemma inject_Z_nonneg (z : Z) : (0 <= z)%Z -> 0 <= inject_Z z.
Proof. intros H. unfold Qle; simpl; lia. Qed.

Lemma scaled_bound (A N B : Z) (t : Q) :
  0 <= t -> (2 * Z.abs (A - N) <= B)%Z ->
  Qabs (inject_Z A * t - inject_Z N * t) * 2 <= inject_Z B * t.
Proof.
  intros Ht H.
  setoid_replace (inject_Z A * t - inject_Z N * t)
    with (inject_Z (A - N) * t)
    by (unfold Zminus; rewrite inject_Z_plus, inject_Z_opp; ring).
  rewrite Qabs_Qmult, (Qabs_pos t Ht).
  change (Qabs (inject_Z (A - N))) with (inject_Z (Z.abs (A - N))).
  setoid_replace (inject_Z (Z.abs (A - N)) * t * 2)
    with (inject_Z (2 * Z.abs (A - N)) * t)
    by (rewrite inject_Z_mult; ring).
  apply Qmult_le_compat_r; [| exact Ht].
  rewrite <- Zle_Qle. exact H.
Qed.
End Rationals.

Section Accuracy.
Local Open Scope Q_scope.

Variables (sx : bool) (m1 e1 m2 e2 e' : Z).
Hypothesis m1_pos : (0 < m1)%Z.
Hypothesis m2_pos : (0 < m2)%Z.
Hypothesis e'_le : (e' <= e1 - e2)%Z.

Let X : Q := inject_Z m1 * 2 ^ e1 / (inject_Z m2 * 2 ^ e2).
Let t : Q := 2 ^ e' / inject_Z m2.
Let N : Z := (m1 * 2 ^ (e1 - e2 - e'))%Z.

Lemma m2_nonzero : ~ inject_Z m2 == 0.
Proof.
  intros H. pose proof (inject_Z_pos m2 m2_pos) as P.
  rewrite H in P. exact (Qlt_irrefl 0 P).
Qed.

Lemma t_pos : 0 < t.
Proof.
  unfold t. apply Qlt_shift_div_l.
  - exact (inject_Z_pos m2 m2_pos).
  - rewrite Qmult_0_l. apply pow2_Q_pos.
Qed.

Lemma X_nonneg : 0 <= X.
Proof.
  unfold X. apply Qle_shift_div_l.
  - apply Qmult_lt_0_compat; [| apply pow2_Q_pos].
    exact (inject_Z_pos m2 m2_pos).
  - rewrite Qmult_0_l. apply Qmult_le_0_compat.
    + apply inject_Z_nonneg. lia.
    + apply Qlt_le_weak, pow2_Q_pos.
Qed.

Lemma N_scaled : inject_Z N * t == X.
Proof.
  unfold N, t, X. rewrite inject_Z_mult, pow2_Q by lia.
  assert (H1 : 2 ^ e1 == 2 ^ (e1 - e2 - e') * 2 ^ e' * 2 ^ e2).
  { rewrite <- !Qpower_plus by exact two_nonzero.
    replace (e1 - e2 - e' + e' + e2)%Z with e1 by lia. reflexivity. }
  rewrite H1. field. split; [| exact m2_nonzero].
  apply Qpower_not_0. exact two_nonzero.
Qed.

Lemma scaled_mantissa (m e : Z) :
  (e' <= e)%Z ->
  inject_Z (m * (m2 * 2 ^ (e - e'))) * t == inject_Z m * 2 ^ e.
Proof.
  intros He. unfold t. rewrite !inject_Z_mult, pow2_Q by lia.
  rewrite (pow2_Q_split e e'). field. exact m2_nonzero.
Qed.

Lemma scaled_unit (e : Z) :
  (e' <= e)%Z -> inject_Z (m2 * 2 ^ (e - e')) * t == 2 ^ e.
Proof.
  intros He. unfold t. rewrite inject_Z_mult, pow2_Q by lia.
  rewrite (pow2_Q_split e e'). field. exact m2_nonzero.
Qed.

Lemma rounds_to_accurate (x : spec_float) :
  rounds_to sx N m2 e' x -> accurate (signed sx X) x.
Proof.
  pose proof t_pos as Ht. pose proof X_nonneg as HX.
  destruct x as [s | s | | s m e]; cbn [rounds_to accurate].
  - intros (_ & He & H). rewrite (signed_abs sx X HX).
    rewrite <- N_scaled.
    setoid_replace (inject_Z N * t * 2) with (inject_Z (2 * N) * t)
      by (rewrite inject_Z_mult; ring).
    rewrite <- (scaled_unit (-1074)) by lia.
    apply Qmult_le_compat_r; [| apply Qlt_le_weak; exact Ht].
    rewrite <- Zle_Qle. exact H.
  - intros (_ & m & e & Hm & He & Hee & H). rewrite (signed_abs sx X HX).
    assert (H2 : (2 ^ 53 - 1) * 2 ^ 972 <= X * 2).
    { rewrite <- N_scaled.
      setoid_replace (inject_Z N * t * 2) with (inject_Z (2 * N) * t)
        by (rewrite inject_Z_mult; ring).
      apply Qle_trans
        with (inject_Z ((2 * m - 1) * (m2 * 2 ^ (e - e'))) * t).
      - rewrite (scaled_mantissa (2 * m - 1) e Hee).
        apply Qle_trans with (inject_Z (2 * m - 1) * 2 ^ 972).
        + apply Qmult_le_compat_r; [| apply Qlt_le_weak, pow2_Q_pos].
          change ((2 ^ 53 - 1)%Q) with (inject_Z (2 ^ 53 - 1)).
          rewrite <- Zle_Qle. lia.
        + rewrite !(Qmult_comm (inject_Z (2 * m - 1))).
          apply Qmult_le_compat_r.
          * apply Qpower_le_compat_l; [lia | discriminate].
          * apply inject_Z_nonneg. lia.
      - apply Qmult_le_compat_r; [| apply Qlt_le_weak; exact Ht].
        rewrite <- Zle_Qle.
        assert (0 < m2 * 2 ^ (e - e'))%Z
          by (pose proof (pow2_pos (e - e')%Z ltac:(lia)); nia).
        lia. }
    assert (P1 : 2 ^ 1024 == 2 ^ 52 * 2 ^ 972)
      by (rewrite <- Qpower_plus by exact two_nonzero; reflexivity).
    assert (P2 : 2 ^ 972 == 2 ^ 971 * 2)
      by (rewrite <- (Qpower_1_r 2) at 3;
          rewrite <- Qpower_plus by exact two_nonzero; reflexivity).
    assert (P3 : (2 ^ 53 - 1) * 2 ^ 972 == (2 ^ 1024 - 2 ^ 971) * 2).
    { rewrite P1.
      setoid_replace (2 ^ 52 * 2 ^ 972 - 2 ^ 971)
        with ((2 ^ 52 * 2 - 1) * 2 ^ 971) by (rewrite P2; ring).
      rewrite P2. change (2 ^ 53) with (2 ^ 52 * 2). ring. }
    rewrite P3 in H2. lra.
  - contradiction.
  - intros (<- & Hb & He & H). split; [exact Hb |].
    destruct (float_value s m e) as (q & Eq & Hq).
    exists q. split; [exact Eq |]. rewrite Hq, signed_diff.
    rewrite <- N_scaled, <- (scaled_mantissa (Zpos m) e He).
    rewrite <- (scaled_unit e He).
    apply scaled_bound; [apply Qlt_le_weak; exact Ht | exact H].
Qed.
End Accuracy.

Section Operations.
Local Open Scope Q_scope.

Lemma accurate_ext (q1 q2 : Q) (x : spec_float) :
  q1 == q2 -> accurate q1 x -> accurate q2 x.
Proof.
  intros E. destruct x as [s | s | | s m e]; cbn [accurate]; try tauto.
  - rewrite E. tauto.
  - rewrite E. tauto.
  - intros (Hv & q & Hq & H). split; [exact Hv |]. exists q.
    split; [exact Hq |]. rewrite <- E. exact H.
Qed.

Lemma finite_or_overflow_rounded (exact : Q) (x : spec_float) :
  accurate exact x -> rounded exact (finite_or_overflow x).
Proof.
  destruct x as [s | s | | s m e]; cbn [finite_or_overflow rounded accurate];
    try tauto; intros H; (split; [exact H | discriminate]).
Qed.

Lemma divide_accurate (s : bool) (m1 e1 m2 e2 : Z) :
  (0 < m1)%Z -> (0 < m2)%Z ->
  forall q e loc,
    SFdiv_core_binary prec emax m1 e1 m2 e2 = (q, e, loc) ->
    accurate (signed s (inject_Z m1 * 2 ^ e1 / (inject_Z m2 * 2 ^ e2)))
             (binary_round_aux prec emax s q e loc).
Proof.
  intros H1 H2 q e loc E.
  destruct (SFdiv_core_binary_spec m1 e1 m2 e2 H1 H2)
    as (q' & r & e' & E' & He & HN & Hr & Hq & Hf).
  rewrite E in E'. injection E' as -> -> ->.
  apply (rounds_to_accurate s m1 e1 m2 e2 e' H1 H2 He).
  rewrite HN. apply binary_round_aux_spec; assumption.
Qed.

Lemma signed_quotient (a b : Z) :
  (a <> 0)%Z -> (b <> 0)%Z ->
  signed (xorb (a <? 0)%Z (b <? 0)%Z)
         (inject_Z (Z.abs a) * 2 ^ 0 / (inject_Z (Z.abs b) * 2 ^ 0))
  == inject_Z a / inject_Z b.
Proof.
  intros Ha Hb.
  assert (Hb' : ~ inject_Z b == 0).
  { intros E. apply Hb. unfold Qeq in E. simpl in E. lia. }
  cbn [Qpower].
  destruct (Z.ltb_spec a 0), (Z.ltb_spec b 0); cbn [xorb signed];
    rewrite ?(Z.abs_neq a), ?(Z.abs_eq a), ?(Z.abs_neq b), ?(Z.abs_eq b)
      by lia;
    rewrite ?inject_Z_opp; field; exact Hb'.
Qed.

Lemma int_true_divide_rounded (a b : Z) :
  (b <> 0)%Z -> rounded (inject_Z a / inject_Z b) (int_true_divide a b).
Proof.
  intros Hb. unfold int_true_divide.
  destruct (Z.eqb_spec b 0) as [| _]; [contradiction |].
  destruct (Z.eqb_spec a 0) as [-> | Ha].
  - cbn [rounded accurate]. split; [| discriminate].
    setoid_replace (inject_Z 0 / inject_Z b) with 0
      by (unfold Qdiv; ring).
    discriminate.
  - destruct (SFdiv_core_binary prec emax (Z.abs a) 0 (Z.abs b) 0)
      as [[q e] loc] eqn:E.
    apply finite_or_overflow_rounded.
    apply (accurate_ext _ _ _ (signed_quotient a b Ha Hb)).
    apply (divide_accurate _ (Z.abs a) 0 (Z.abs b) 0); [lia | lia | exact E].
Qed.
End Operations.

Section Conversion.
Local Open Scope Q_scope.

Lemma signed_division (sx sy : bool) (a b : Q) :
  ~ b == 0 ->
  signed sx a / signed sy b == signed (xorb sx sy) (a / b).
Proof.
  intros Hb. destruct sx, sy; cbn [xorb signed]; field; exact Hb.
Qed.

Lemma float_true_divide_rounded (x y : spec_float) (qx qy : Q) :
  float_to_Q x = Some qx -> float_to_Q y = Some qy ->
  match y with
  | S754_zero _ => float_true_divide x y = Raise ZeroDivisionError
  | _ => exists r, float_true_divide x y = Ok r /\ accurate (qx / qy) r
  end.
Proof.
  intros Hx Hy. destruct y as [sy | sy | | sy my ey]; try discriminate Hy;
    [reflexivity |].
  destruct (float_value sy my ey) as (qy' & Ey & Hqy).
  rewrite Hy in Ey. injection Ey as <-.
  assert (Hpos : 0 < inject_Z (Zpos my) * 2 ^ ey).
  { apply Qmult_lt_0_compat; [apply inject_Z_pos; lia | apply pow2_Q_pos]. }
  assert (Hnz : ~ inject_Z (Zpos my) * 2 ^ ey == 0).
  { intros E. rewrite E in Hpos. exact (Qlt_irrefl 0 Hpos). }
  eexists. split; [reflexivity |].
  destruct x as [sx | sx | | sx mx ex]; try discriminate Hx.
  - injection Hx as <-. cbn [SFdiv accurate].
    setoid_replace (0 / qy) with 0 by (unfold Qdiv; ring). discriminate.
  - destruct (float_value sx mx ex) as (qx' & Ex & Hqx).
    rewrite Hx in Ex. injection Ex as <-. cbn [SFdiv].
    destruct (SFdiv_core_binary prec emax (Zpos mx) ex (Zpos my) ey)
      as [[q e] loc] eqn:E.
    apply (accurate_ext
             (signed (xorb sx sy)
                (inject_Z (Zpos mx) * 2 ^ ex / (inject_Z (Zpos my) * 2 ^ ey)))).
    + rewrite Hqx, Hqy. symmetry. apply signed_division. exact Hnz.
    + apply (divide_accurate _ (Zpos mx) ex (Zpos my) ey); [lia | lia | exact E].
Qed.

Lemma iter_xO (m d : positive) :
  Zpos (Pos.iter xO m d) = (Zpos m * 2 ^ Zpos d)%Z.
Proof.
  induction d as [| d IH] using Pos.peano_ind.
  - cbn [Pos.iter]. rewrite Pos2Z.inj_xO, Z.pow_1_r. ring.
  - rewrite Pos.iter_succ, Pos2Z.inj_xO, IH, Pos2Z.inj_succ.
    rewrite Z.pow_succ_r by lia. ring.
Qed.

Lemma Zdigits2_shift (m k : Z) :
  (0 < m)%Z -> (0 <= k)%Z -> Zdigits2 (m * 2 ^ k) = (Zdigits2 m + k)%Z.
Proof.
  intros Hm Hk. pose proof (pow2_pos k Hk).
  rewrite !Zdigits2_log2 by nia.
  rewrite Z.log2_mul_pow2 by lia. lia.
Qed.

Lemma binary_round_accurate (s : bool) (m : positive) :
  accurate (signed s (inject_Z (Zpos m))) (binary_round prec emax s m 0).
Proof.
  unfold binary_round.
  set (ex' := fexp prec emax (Zpos (digits2_pos m) + 0)).
  destruct (shl_align m 0 ex') as [mz ez] eqn:E.
  assert (H : (ez <= 0)%Z
              /\ Zpos mz = (Zpos m * 2 ^ (0 - ez))%Z
              /\ (ez <= fexp prec emax (Zdigits2 (Zpos mz) + ez))%Z).
  { unfold shl_align in E. destruct (ex' - 0)%Z as [| d | d] eqn:Ed;
      injection E as <- <-.
    - rewrite Z.pow_0_r. split; [lia |]. split; [lia |].
      fold (Zdigits2 (Zpos m)). fold (Zdigits2 (Zpos m)) in ex'. lia.
    - rewrite Z.pow_0_r. split; [lia |]. split; [lia |].
      fold (Zdigits2 (Zpos m)) in ex'. change (Zpos (digits2_pos m))
        with (Zdigits2 (Zpos m)). lia.
    - split; [lia |]. rewrite iter_xO.
      replace (0 - ex')%Z with (Zpos d) by lia. split; [reflexivity |].
      rewrite Zdigits2_shift by lia.
      fold (Zdigits2 (Zpos m)) in ex'.
      replace (Zdigits2 (Zpos m) + Zpos d + ex')%Z
        with (Zdigits2 (Zpos m) + 0)%Z by lia.
      fold ex'. lia. }
  destruct H as (Hez & Hmz & Hf).
  change loc_Exact with (new_location 1 0).
  pose proof (binary_round_aux_spec s 1 (Zpos mz) 0 ez
                ltac:(lia) ltac:(lia) ltac:(lia) Hf) as R.
  apply (accurate_ext
           (signed s (inject_Z (Zpos mz) * 2 ^ ez / (inject_Z 1 * 2 ^ 0)))).
  - assert (E1 : inject_Z (Zpos mz) * 2 ^ ez == inject_Z (Zpos m)).
    { rewrite Hmz, inject_Z_mult, pow2_Q by lia.
      rewrite <- Qmult_assoc, <- Qpower_plus by exact two_nonzero.
      replace (0 - ez + ez)%Z with 0%Z by lia. cbn [Qpower]. ring. }
    destruct s; cbn [signed]; rewrite <- E1; cbn [Qpower];
      field; discriminate.
  - apply (rounds_to_accurate s (Zpos mz) ez 1 0 ez); [lia | lia | lia |].
    replace (Zpos mz * 2 ^ (ez - 0 - ez))%Z with (Zpos mz * 1 + 0)%Z
      by (replace (ez - 0 - ez)%Z with 0%Z by lia; rewrite Z.pow_0_r; lia).
    exact R.
Qed.

Lemma float_of_int_rounded (n : Z) :
  rounded (inject_Z n) (float_of_int n).
Proof.
  unfold float_of_int. apply finite_or_overflow_rounded.
  destruct n as [| m | m]; cbn [binary_normalize].
  - cbn [accurate]. discriminate.
  - exact (binary_round_accurate false m).
  - exact (binary_round_accurate true m).
Qed.
End Conversion.
End Division.

(** ** True division *)

Lemma quotient_of_rounded (exact : Q) (r : outcome spec_float) :
  rounded exact r -> quotient exact (q <- r ;; Ok (PyFloat q)).
Proof.
  destruct r as [x | e |]; cbn [rounded bind quotient]; tauto.
Qed.

(** C3. [/] is true division.  "7 / 2" evaluates to the float 3.5, whose
    exact value is the rational 7/2, and not to the quotient 3, as an [int]
    or as a float.  For every tree, [visit] applies [/] to the values of
    the operands of a [DIV] node.  On two [int]s, [/] gives a float in every
    case: the exact quotient rounded to the nearest float, within half a
    unit of the last place; it raises [ZeroDivisionError] on a zero
    divisor and [OverflowError] when the quotient is beyond the largest
    float.  On two finite floats it gives their exact quotient rounded in
    the same way, and raises [ZeroDivisionError] on a zero divisor.  An
    [int] next to a float is first converted, again by rounding to the
    nearest float. *)
Theorem C3_true_division (fuel : nat) :
  fuel_bound "7 / 2" <= fuel ->
  evaluate fuel "7 / 2" = Ok (PyFloat three_and_a_half)
  /\ (exists q, float_to_Q three_and_a_half = Some q /\ (q == 7 # 2)%Q)
  /\ valid_binary prec emax three_and_a_half = true
  /\ evaluate fuel "7 / 2" <> Ok (PyInt 3)
  /\ evaluate fuel "7 / 2" <> Ok (PyFloat three_point_zero)
  /\ (forall a b v, py_truediv (PyInt a) (PyInt b) = Ok v ->
                    exists x, v = PyFloat x)
  /\ (forall l op r,
         type op = DIV ->
         visit (BinOp l op r)
         = (a <- visit l ;; b <- visit r ;; py_truediv a b))
  /\ (forall a b,
         b <> 0%Z ->
         quotient (inject_Z a / inject_Z b) (py_truediv (PyInt a) (PyInt b)))
  /\ (forall a, py_truediv (PyInt a) (PyInt 0) = Raise ZeroDivisionError)
  /\ (forall x y qx qy,
         float_to_Q x = Some qx -> float_to_Q y = Some qy ->
         match y with
         | S754_zero _ =>
             py_truediv (PyFloat x) (PyFloat y) = Raise ZeroDivisionError
         | _ => quotient (qx / qy) (py_truediv (PyFloat x) (PyFloat y))
         end)
  /\ (forall a y,
         py_truediv (PyInt a) (PyFloat y)
         = (x <- float_of_int a ;; py_truediv (PyFloat x) (PyFloat y)))
  /\ (forall x b,
         py_truediv (PyFloat x) (PyInt b)
         = (y <- float_of_int b ;; py_truediv (PyFloat x) (PyFloat y)))
  /\ (forall a, rounded (inject_Z a) (float_of_int a)).
Proof.
  intros Hf. rewrite (evaluate_enough fuel) by exact Hf.
  split; [vm_compute; reflexivity |].
  split; [eexists; split; [reflexivity | vm_compute; reflexivity] |].
  split; [vm_compute; reflexivity |].
  split; [vm_compute; discriminate |].
  split; [vm_compute; discriminate |].
  repeat match goal with |- _ /\ _ => split end.
  - intros a b v. simpl. destruct (int_true_divide a b) as [x | e |];
      simpl; try discriminate.
    intros E; injection E as <-. exists x; reflexivity.
  - intros l op r Hop. cbn [visit]. rewrite Hop. reflexivity.
  - intros a b Hb. cbn [py_truediv]. apply quotient_of_rounded.
    apply int_true_divide_rounded. exact Hb.
  - intros a. reflexivity.
  - intros x y qx qy Hx Hy.
    pose proof (float_true_divide_rounded x y qx qy Hx Hy) as H.
    destruct y as [sy | sy | | sy my ey]; try discriminate Hy;
      cbn [py_truediv].
    + rewrite H. reflexivity.
    + destruct H as (r & -> & Hr). exact Hr.
  - intros a y. reflexivity.
  - intros x b. reflexivity.
  - intros a. apply float_of_int_rounded.
Qed.

Lemma C3_true_division_witness :
  fuel_bound "7 / 2" <= 7 /\ evaluate 7 "7 / 2" = Ok (PyFloat three_and_a_half).
Proof.
  assert (H : fuel_bound "7 / 2" <= 7) by (vm_compute; apply le_n).
  split; [exact H | exact (proj1 (C3_true_division 7 H))].
Defined.

(** ** Trailing input *)

(** C5. [expr] does not look for [EOF] after a complete expression: on
    "1 + 2) 3" it returns the tree of "1 + 2" and stops with the closing
    parenthesis as its lookahead; the rest of the line is never examined. *)
Theorem C5_trailing_tokens_ignored (fuel : nat) :
  fuel_bound "1 + 2) 3" <= fuel ->
  exists tree p' q',
    parse fuel "1 + 2) 3" = Ok (tree, p')
    /\ parse (fuel_bound "1 + 2") "1 + 2" = Ok (tree, q')
    /\ tree = BinOp (Num (mkToken INTEGER (PyInt 1)))
                    (mkToken PLUS (PyStr "+"))
                    (Num (mkToken INTEGER (PyInt 2)))
    /\ type (current_token p') = RPAREN
    /\ type (current_token q') = EOF
    /\ evaluate fuel "1 + 2) 3" = Ok (PyInt 3).
Proof.
  intros Hf. rewrite (parse_enough fuel), (evaluate_enough fuel) by exact Hf.
  vm_compute. do 3 eexists. repeat split; reflexivity.
Qed.

Lemma C5_trailing_tokens_ignored_witness :
  fuel_bound "1 + 2) 3" <= 10 /\ evaluate 10 "1 + 2) 3" = Ok (PyInt 3).
Proof.
  assert (H : fuel_bound "1 + 2) 3" <= 10) by (vm_compute; apply le_n).
  split; [exact H |].
  destruct (C5_trailing_tokens_ignored 10 H) as (tree & p' & q' & E).
  exact (proj2 (proj2 (proj2 (proj2 (proj2 E))))).
Defined.

(** ** Unmatched parenthesis *)

(** C7. An opening parenthesis without its closing one is a [ParsingError]:
    [eat RPAREN] raises it on any other lookahead, so does [factor] when the
    bracketed expression is followed by another token or by the end of the
    input, and so does parsing "(1 + 2". *)
Theorem C7_unmatched_parenthesis (fuel : nat) :
  fuel_bound "(1 + 2" <= fuel ->
  parse fuel "(1 + 2" = Raise ParsingError
  /\ (forall p, type (current_token p) <> RPAREN ->
                eat fuel RPAREN p = Raise ParsingError)
  /\ (forall p p1 node p2,
         type (current_token p) = LPAREN ->
         eat fuel LPAREN p = Ok p1 ->
         expr fuel p1 = Ok (node, p2) ->
         type (current_token p2) <> RPAREN ->
         factor fuel p = Raise ParsingError).
Proof.
  intros Hf. rewrite (parse_enough fuel) by exact Hf.
  assert (Heat : forall p, type (current_token p) <> RPAREN ->
                           eat fuel RPAREN p = Raise ParsingError).
  { intros p Hp. unfold eat.
    destruct (TokenType_eqb (type (current_token p)) RPAREN) eqn:E;
      [apply TokenType_eqb_eq in E; contradiction | reflexivity]. }
  split; [vm_compute; reflexivity | split; [exact Heat |]].
  intros p p1 node p2 Hl E1 E2 Hr.
  unfold factor, factor_body. rewrite Hl. simpl.
  rewrite E1. simpl. rewrite E2. simpl. rewrite (Heat p2 Hr). reflexivity.
Qed.

Lemma C7_unmatched_parenthesis_witness :
  fuel_bound "(1 + 2" <= 8 /\ parse 8 "(1 + 2" = Raise ParsingError.
Proof.
  assert (H : fuel_bound "(1 + 2" <= 8) by (vm_compute; apply le_n).
  split; [exact H | exact (proj1 (C7_unmatched_parenthesis 8 H))].
Defined.

(** ** Token values *)

Lemma decimal_value_nonneg (c : ascii) (d : Z) :
  decimal_value c = Some d -> (0 <= d <= 9)%Z.
Proof.
  unfold decimal_value.
  destruct ((48 <=? ord c)%Z && (ord c <=? 57)%Z) eqn:E; [| discriminate].
  apply andb_true_iff in E. destruct E as [E1 E2].
  apply Z.leb_le in E1, E2. intros H; injection H as <-. lia.
Qed.

Lemma int_digits_nonneg (s : string) (acc n : Z) :
  (0 <= acc)%Z -> int_digits acc s = Some n -> (acc <= n)%Z.
Proof.
  revert acc. induction s as [| c s IH]; intros acc Hacc; cbn [int_digits].
  - intros H; injection H as <-. lia.
  - destruct (decimal_value c) as [d |] eqn:Ed; [| discriminate].
    apply decimal_value_nonneg in Ed. intros H.
    apply IH in H; lia.
Qed.

Lemma int_nonneg (s : string) (n : Z) : int s = Ok n -> (0 <= n)%Z.
Proof.
  destruct (int_cases s) as [(m & -> & E & _) | ->]; [| discriminate].
  intros H; injection H as <-.
  apply (int_digits_nonneg _ 0 m) in E; lia.
Qed.

Lemma integer_nonneg (fuel : nat) (l l' : Lexer) (n : Z) :
  integer fuel l = Ok (n, l') -> (0 <= n)%Z.
Proof.
  unfold integer.
  destruct (integer_loop fuel "" l) as [[s l1] | e |]; simpl; try discriminate.
  destruct (int s) as [m | e |] eqn:E; simpl; try discriminate.
  intros H; injection H as <- _. exact (int_nonneg s m E).
Qed.

Lemma get_next_token_value (fuel : nat) (l : Lexer) (tok : Token) (l' : Lexer) :
  get_next_token fuel l = Ok (tok, l') -> token_value_ok tok.
Proof.
  revert l. induction fuel as [| fuel IH]; intros l; simpl;
    destruct (current_char l) as [c |]; try discriminate;
    try (intros E; injection E as <- _; reflexivity).
  destruct (isspace c).
  - destruct (skip_whitespace fuel l) as [l1 | e |]; simpl;
      try discriminate. apply IH.
  - destruct (isdigit c).
    + destruct (integer fuel l) as [[n l1] | e |] eqn:Ei; simpl;
        try discriminate.
      intros E; injection E as <- _. exists n; split; [reflexivity |].
      exact (integer_nonneg fuel l l1 n Ei).
    + repeat match goal with
             | |- (if ?b then _ else _) = _ -> _ => destruct b
             end; try discriminate;
        intros E; injection E as <- _; reflexivity.
Qed.

(** C4, as the code has it.  Only the [EOF] token carries no value.  An
    [INTEGER] token holds a non-negative integer, and every operator or
    parenthesis token holds its own one-character lexeme. *)
Theorem C4_token_values (fuel : nat) (l : Lexer) (tok : Token) (l' : Lexer) :
  get_next_token fuel l = Ok (tok, l') ->
  token_value_ok tok /\ (value tok = PyNone <-> type tok = EOF).
Proof.
  intros E. pose proof (get_next_token_value fuel l tok l' E) as H.
  split; [exact H |]. unfold token_value_ok in H.
  destruct (type tok); split; intros H'; try discriminate; try reflexivity;
    try (rewrite H in H'; discriminate); try exact H.
  destruct H as (n & Hn & _); rewrite Hn in H'; discriminate.
Qed.

Lemma C4_token_values_witness :
  token_value_ok (mkToken INTEGER (PyInt 42)).
Proof.
  exact (proj1 (C4_token_values 3 (mkLexer "42" 0 (Some "4"%char))
                  (mkToken INTEGER (PyInt 42)) (mkLexer "42" 2 None)
                  eq_refl)).
Defined.

(** The first token of "+" is not an [INTEGER] and yet carries a value. *)
Lemma C4_counterexample :
  exists l tok l',
    Lexer_init "+" = Ok l
    /\ get_next_token 1 l = Ok (tok, l')
    /\ type tok = PLUS
    /\ type tok <> INTEGER
    /\ value tok = PyStr "+"
    /\ value tok <> PyNone.
Proof.
  do 3 eexists. repeat split; try reflexivity; simpl; discriminate.
Qed.

(** ** Unsupported characters *)

Lemma pull_mono (f f' n : nat) (l : Lexer) :
  f <= f' -> approx (pull f n l) (pull f' n l).
Proof.
  intros Hle. revert l. induction n as [| n IH]; intros l; simpl;
    [apply approx_refl |].
  apply approx_bind; [apply get_next_token_mono; exact Hle |].
  intros [tok l1]. apply approx_bind; [apply IH |].
  intros [toks l2]; apply approx_refl.
Qed.

(** A current character that fails [str.isspace] and [str.isdigit] and is
    none of [+ - * / ( )] makes [get_next_token] raise [LexicalError].  On
    "1 + a" the lexer delivers the number and the sign, and raises
    [LexicalError] on the third call; so do the token stream and the
    evaluation. *)
Theorem lexical_error_other_character :
  (forall fuel l c,
      current_char l = Some c ->
      isspace c = false -> isdigit c = false -> ~ In c operator_chars ->
      get_next_token (S fuel) l = Raise LexicalError)
  /\ (forall fuel,
         fuel_bound "1 + a" <= fuel ->
         (exists l0 l2,
             Lexer_init "1 + a" = Ok l0
             /\ pull fuel 2 l0
                = Ok ([mkToken INTEGER (PyInt 1); mkToken PLUS (PyStr "+")], l2)
             /\ get_next_token fuel l2 = Raise LexicalError)
         /\ tokenize fuel "1 + a" = Raise LexicalError
         /\ evaluate fuel "1 + a" = Raise LexicalError).
Proof.
  split.
  - intros fuel l c Hc Hs Hd Hop. simpl. rewrite Hc, Hs, Hd.
    repeat match goal with
           | |- (if (c =? ?k)%char then _ else _) = _ =>
               destruct (Ascii.eqb_spec c k) as [-> | _];
               [exfalso; apply Hop; simpl; tauto |]
           end.
    reflexivity.
  - intros fuel Hf. split; [| split].
    + exists (mkLexer "1 + a" 0 (Some "1"%char)),
             (mkLexer "1 + a" 3 (Some " "%char)).
      split; [reflexivity | split].
      * apply (pull_mono (fuel_bound "1 + a") fuel); [exact Hf |].
        vm_compute; discriminate.
      * apply (get_next_token_mono (fuel_bound "1 + a") fuel); [exact Hf |].
        vm_compute; discriminate.
    + apply (tokenize_mono (fuel_bound "1 + a") fuel); [exact Hf |].
      vm_compute; discriminate.
    + rewrite (evaluate_enough fuel) by exact Hf. vm_compute; reflexivity.
Qed.

Lemma lexical_error_other_character_witness :
  get_next_token 1 (mkLexer "1 + a" 4 (Some "a"%char)) = Raise LexicalError.
Proof.
  apply (proj1 lexical_error_other_character 0
           (mkLexer "1 + a" 4 (Some "a"%char)) "a"%char);
    try reflexivity.
  simpl. intros H; repeat destruct H as [H | H]; try discriminate H; exact H.
Defined.

(** C6. The claim fails on a character that [str.isdigit] accepts and
    [int] rejects.  SUPERSCRIPT TWO is no decimal digit, no whitespace and
    none of [+ - * / ( )]; yet on the line made of "1 + " and that character
    the lexer delivers the number and the sign and then raises
    [ValueError], from [int] in [Lexer.integer], and not [LexicalError]; so
    do the token stream and the evaluation. *)
Theorem C6_superscript_digit (fuel : nat) :
  fuel_bound one_plus_superscript <= fuel ->
  (is_decimal superscript_two = false /\ isspace superscript_two = false
   /\ ~ In superscript_two operator_chars)
  /\ (exists l0 l2,
         Lexer_init one_plus_superscript = Ok l0
         /\ pull fuel 2 l0
            = Ok ([mkToken INTEGER (PyInt 1); mkToken PLUS (PyStr "+")], l2)
         /\ get_next_token fuel l2 = Raise ValueError)
  /\ tokenize fuel one_plus_superscript = Raise ValueError
  /\ evaluate fuel one_plus_superscript = Raise ValueError
  /\ tokenize fuel one_plus_superscript <> Raise LexicalError.
Proof.
  intros Hf.
  assert (Ht : tokenize fuel one_plus_superscript = Raise ValueError).
  { apply (tokenize_mono (fuel_bound one_plus_superscript) fuel);
      [exact Hf |].
    vm_compute; discriminate. }
  split; [| split; [| split; [exact Ht | split]]].
  - split; [reflexivity | split; [reflexivity |]].
    simpl. intros H; repeat destruct H as [H | H]; try discriminate H; exact H.
  - exists (mkLexer one_plus_superscript 0 (Some "1"%char)),
           (mkLexer one_plus_superscript 3 (Some " "%char)).
    split; [reflexivity | split].
    + apply (pull_mono (fuel_bound one_plus_superscript) fuel); [exact Hf |].
      vm_compute; discriminate.
    + apply (get_next_token_mono (fuel_bound one_plus_superscript) fuel);
        [exact Hf |].
      vm_compute; discriminate.
  - rewrite (evaluate_enough fuel) by exact Hf. vm_compute; reflexivity.
  - rewrite Ht. discriminate.
Qed.

Lemma C6_superscript_digit_witness :
  tokenize 7 one_plus_superscript = Raise ValueError.
Proof.
  assert (Hf : fuel_bound one_plus_superscript <= 7)
    by (vm_compute; apply le_n).
  exact (proj1 (proj2 (proj2 (C6_superscript_digit 7 Hf)))).
Defined.

(** ** End of input *)

Lemma get_next_token_EOF (fuel : nat) (l : Lexer) (tok : Token) (l' : Lexer) :
  get_next_token fuel l = Ok (tok, l') -> type tok = EOF ->
  current_char l' = None.
Proof.
  revert l. induction fuel as [| fuel IH]; intros l; simpl;
    destruct (current_char l) as [c |] eqn:Hc; try discriminate;
    try (intros E _; injection E as _ <-; exact Hc).
  destruct (isspace c).
  - destruct (skip_whitespace fuel l) as [l1 | e |]; simpl;
      try discriminate. apply IH.
  - destruct (isdigit c).
    + destruct (integer fuel l) as [[n l1] | e |]; simpl; try discriminate.
      intros E; injection E as <- _; discriminate.
    + repeat match goal with
             | |- (if ?b then _ else _) = _ -> _ => destruct b
             end; try discriminate;
        intros E; injection E as <- _; discriminate.
Qed.

(** C8. On an exhausted lexer [get_next_token] returns the [EOF] token and
    leaves the lexer as it is, on the first call and on every later one; and
    a lexer that has returned [EOF] once is exhausted. *)
Theorem C8_end_of_input_idempotent :
  (forall fuel l,
      current_char l = None ->
      get_next_token fuel l = Ok (EOF_token, l)
      /\ (forall n, pull fuel n l = Ok (repeat EOF_token n, l)))
  /\ (forall fuel l tok l',
         get_next_token fuel l = Ok (tok, l') -> type tok = EOF ->
         tok = EOF_token /\ current_char l' = None
         /\ (forall fuel' n, pull fuel' n l' = Ok (repeat EOF_token n, l'))).
Proof.
  assert (H1 : forall fuel l, current_char l = None ->
                              get_next_token fuel l = Ok (EOF_token, l))
    by (intros fuel l Hc; destruct fuel; simpl; rewrite Hc; reflexivity).
  assert (H2 : forall fuel l, current_char l = None ->
                              forall n, pull fuel n l = Ok (repeat EOF_token n, l)).
  { intros fuel l Hc. induction n as [| n IH]; simpl; [reflexivity |].
    rewrite (H1 fuel l Hc). simpl. rewrite IH. reflexivity. }
  split.
  - intros fuel l Hc. split; [apply H1 | apply H2]; exact Hc.
  - intros fuel l tok l' E Ht.
    pose proof (get_next_token_EOF fuel l tok l' E Ht) as Hc.
    split; [| split; [exact Hc | intros fuel' n; apply H2; exact Hc]].
    pose proof (get_next_token_value fuel l tok l' E) as Hv.
    unfold token_value_ok in Hv. rewrite Ht in Hv.
    destruct tok as [t v]; simpl in *. subst. reflexivity.
Qed.

Lemma C8_end_of_input_idempotent_witness :
  pull 0 3 (mkLexer "1" 1 None)
  = Ok ([EOF_token; EOF_token; EOF_token], mkLexer "1" 1 None).
Proof.
  exact (proj2 (proj1 C8_end_of_input_idempotent 0 (mkLexer "1" 1 None)
                  eq_refl) 3).
Defined.

(** ** Termination *)

Lemma skip_whitespace_pos (fuel : nat) (l l' : Lexer) :
  skip_whitespace fuel l = Ok l' -> pos l <= pos l'.
Proof.
  revert l. induction fuel as [| fuel IH]; intros l; simpl;
    destruct (current_char l) as [c |]; try destruct (isspace c);
    try discriminate; try (intros E; injection E as <-; apply Nat.le_refl).
  intros E. apply IH in E. rewrite advance_pos in E. lia.
Qed.

Lemma integer_loop_pos (fuel : nat) (acc s : string) (l l' : Lexer) :
  integer_loop fuel acc l = Ok (s, l') -> pos l <= pos l'.
Proof.
  revert acc l. induction fuel as [| fuel IH]; intros acc l; simpl;
    destruct (current_char l) as [c |]; try destruct (isdigit c);
    try discriminate; try (intros E; injection E as _ <-; apply Nat.le_refl).
  intros E. apply IH in E. rewrite advance_pos in E. lia.
Qed.

Lemma get_next_token_pos (fuel : nat) (l : Lexer) (tok : Token) (l' : Lexer) :
  get_next_token fuel l = Ok (tok, l') ->
  pos l <= pos l' /\ (type tok <> EOF -> pos l < pos l').
Proof.
  revert l. induction fuel as [| fuel IH]; intros l; simpl;
    destruct (current_char l) as [c |] eqn:Hc; try discriminate;
    try (intros E; injection E as <- <-; simpl; split;
         [apply Nat.le_refl | congruence]).
  destruct (isspace c).
  - destruct (skip_whitespace fuel l) as [l1 | e |] eqn:Es; simpl;
      try discriminate.
    apply skip_whitespace_pos in Es. intros E. apply IH in E.
    destruct E as [E1 E2]. split; [lia |].
    intros H; specialize (E2 H); lia.
  - destruct (isdigit c) eqn:Hd.
    + unfold integer. destruct fuel as [| fuel]; simpl; rewrite Hc, Hd;
        simpl; [discriminate |].
      destruct (integer_loop fuel _ (advance l)) as [[s l1] | e |] eqn:Ei;
        simpl; try discriminate.
      apply integer_loop_pos in Ei. rewrite advance_pos in Ei.
      destruct (int s); simpl; try discriminate.
      intros E; injection E as _ <-. lia.
    + repeat match goal with
             | |- (if ?b then _ else _) = _ -> _ => destruct b
             end; try discriminate;
        intros E; injection E as _ <-; rewrite advance_pos; lia.
Qed.

(** C9. On a non-empty line the three stages end, with a value or with an
    exception, as soon as the budget is [fuel_bound]; a larger budget changes
    nothing.  The reasons: [advance] moves the position by one, a token other
    than [EOF] costs the lexer at least one character, and each of [factor],
    [term] and [expr] returns with strictly less left to read. *)
Theorem C9_pipeline_terminates (txt : string) :
  txt <> "" ->
  (forall fuel,
      fuel_bound txt <= fuel ->
      ((exists v, evaluate fuel txt = Ok v)
       \/ (exists e, evaluate fuel txt = Raise e))
      /\ evaluate fuel txt = evaluate (fuel_bound txt) txt)
  /\ (forall l, pos (advance l) = S (pos l))
  /\ (forall fuel l tok l',
         get_next_token fuel l = Ok (tok, l') -> type tok <> EOF ->
         pos l < pos l')
  /\ (forall fuel p node p',
         factor fuel p = Ok (node, p') -> mu p' < mu p)
  /\ (forall fuel p node p',
         term fuel p = Ok (node, p') -> mu p' < mu p)
  /\ (forall fuel p node p',
         expr fuel p = Ok (node, p') -> mu p' < mu p).
Proof.
  intros _. split; [| split; [| split; [| split; [| split]]]].
  - intros fuel Hf. split; [| apply evaluate_enough; exact Hf].
    pose proof (evaluate_ends fuel txt Hf) as H.
    destruct (evaluate fuel txt) as [v | e |];
      [left; exists v | right; exists e | contradiction H]; reflexivity.
  - exact advance_pos.
  - intros fuel l tok l' E. exact (proj2 (get_next_token_pos fuel l tok l' E)).
  - exact factor_consumes.
  - exact term_consumes.
  - exact expr_consumes.
Qed.

Lemma C9_pipeline_terminates_witness :
  "2 + 3 * 4" <> "" /\ fuel_bound "2 + 3 * 4" <= 11
  /\ evaluate 11 "2 + 3 * 4" = evaluate (fuel_bound "2 + 3 * 4") "2 + 3 * 4".
Proof.
  assert (H : "2 + 3 * 4" <> "") by discriminate.
  assert (Hf : fuel_bound "2 + 3 * 4" <= 11) by (vm_compute; apply le_n).
  split; [exact H | split; [exact Hf |]].
  exact (proj2 (proj1 (C9_pipeline_terminates "2 + 3 * 4" H) 11 Hf)).
Defined.

(** ** Blank lines *)

Lemma get_beyond (s : string) (n : nat) :
  String.length s <= n -> String.get n s = None.
Proof.
  revert n. induction s as [| c s IH]; intros n Hn; [reflexivity |].
  simpl in *. destruct n as [| n]; [lia |]. apply IH; lia.
Qed.

Lemma advance_synced (l : Lexer) : synced (advance l).
Proof.
  unfold synced, advance.
  destruct (Z.gtb_spec (Z.of_nat (S (pos l)))
                       (Z.of_nat (String.length (text l)) - 1)) as [Hgt | Hle];
    cbn [current_char pos text]; [| reflexivity].
  symmetry; apply get_beyond; lia.
Qed.

Lemma skip_whitespace_synced (fuel : nat) (l l' : Lexer) :
  synced l -> skip_whitespace fuel l = Ok l' ->
  synced l' /\ text l' = text l.
Proof.
  revert l. induction fuel as [| fuel IH]; intros l Hl; simpl;
    destruct (current_char l) as [c |]; try destruct (isspace c);
    try discriminate; try (intros E; injection E as <-; auto).
  intros E. apply IH in E; [| apply advance_synced].
  rewrite advance_text in E. exact E.
Qed.

Lemma skip_whitespace_no_raise (fuel : nat) (l : Lexer) (e : exn) :
  skip_whitespace fuel l <> Raise e.
Proof.
  revert l. induction fuel as [| fuel IH]; intros l; simpl;
    destruct (current_char l) as [c |]; try destruct (isspace c);
    try discriminate. apply IH.
Qed.

Lemma all_chars_get (f : ascii -> bool) (s : string) (n : nat) (c : ascii) :
  all_chars f s = true -> String.get n s = Some c -> f c = true.
Proof.
  revert n. induction s as [| d s IH]; intros n; simpl; [discriminate |].
  intros H. apply andb_true_iff in H. destruct H as [Hd Hs].
  destruct n as [| n]; [intros E; injection E as <-; exact Hd |].
  apply IH; exact Hs.
Qed.

(** C10. A non-empty line of whitespace only is a [ParsingError]: the first
    token the parser receives is [EOF], and [factor] rejects it. *)
Theorem C10_whitespace_only (txt : string) (fuel : nat) :
  txt <> "" -> all_chars isspace txt = true -> fuel_bound txt <= fuel ->
  (exists l p,
      Lexer_init txt = Ok l /\ Parser_init fuel l = Ok p
      /\ current_token p = EOF_token)
  /\ parse fuel txt = Raise ParsingError
  /\ evaluate fuel txt = Raise ParsingError.
Proof.
  intros Hne Hall Hf. unfold fuel_bound in Hf.
  destruct txt as [| c s]; [contradiction Hne; reflexivity |].
  set (txt := String c s) in *.
  set (l0 := mkLexer txt 0 (Some c)).
  assert (Hc : isspace c = true)
    by (simpl in Hall; apply andb_true_iff in Hall; tauto).
  assert (Hsync : synced l0) by reflexivity.
  assert (Hrem : remaining l0 = String.length txt)
    by (unfold remaining; simpl; lia).
  destruct fuel as [| f]; [lia |].
  assert (Hp : Parser_init (S f) l0 = Ok (mkParser
             match skip_whitespace f l0 with Ok l' => l' | _ => l0 end
             EOF_token)).
  { unfold Parser_init. cbn [get_next_token]. cbn [current_char l0].
    rewrite Hc.
    pose proof (skip_whitespace_ends f l0 ltac:(lia)) as He.
    destruct (skip_whitespace f l0) as [l1 | e |] eqn:Es;
      [| contradiction (skip_whitespace_no_raise f l0 e Es) | contradiction He].
    destruct He as [Hn _].
    destruct (skip_whitespace_synced f l0 l1 Hsync Es) as [Hs1 Ht1].
    assert (Hnone : current_char l1 = None).
    { unfold nonspace in Hn. destruct (current_char l1) as [d |] eqn:Hd;
        [| reflexivity].
      unfold synced in Hs1. rewrite Hd, Ht1 in Hs1. symmetry in Hs1.
      apply (all_chars_get isspace txt _ d Hall) in Hs1. congruence. }
    cbn [bind]. destruct f; simpl; rewrite Hnone; reflexivity. }
  assert (He : forall p, current_token p = EOF_token ->
                         expr (S f) p = Raise ParsingError).
  { intros p Ht. simpl. unfold expr_body, term_body, factor_body.
    rewrite Ht. reflexivity. }
  split; [| split].
  - do 2 eexists. split; [reflexivity |]. split; [exact Hp | reflexivity].
  - unfold parse. change (Lexer_init txt) with (Ok l0). cbn [bind].
    rewrite Hp. cbn [bind]. apply He; reflexivity.
  - unfold evaluate. change (Lexer_init txt) with (Ok l0). cbn [bind].
    rewrite Hp. cbn [bind]. unfold interpret. rewrite He; reflexivity.
Qed.

Lemma C10_whitespace_only_witness :
  evaluate 5 "   " = Raise ParsingError.
Proof.
  assert (H : "   " <> "") by discriminate.
  assert (Hf : fuel_bound "   " <= 5) by (vm_compute; apply le_n).
  exact (proj2 (proj2 (C10_whitespace_only "   " 5 H eq_refl Hf))).
Defined.

(** ** Reading from a position *)

Lemma get_drop (k : nat) (txt : string) :
  String.get k txt =
  match drop k txt with String c _ => Some c | EmptyString => None end.
Proof.
  revert k. induction txt as [| d s IH]; intros [| k]; simpl; auto.
Qed.

Lemma drop_S (k : nat) (txt : string) (c : ascii) (rest : string) :
  drop k txt = String c rest -> drop (S k) txt = rest.
Proof.
  revert k. induction txt as [| d s IH]; intros [| k]; simpl;
    try discriminate.
  - intros E; injection E as _ <-. reflexivity.
  - intros E. destruct s as [| d' s']; [destruct k; discriminate |].
    apply (IH k) in E. exact E.
Qed.

Lemma advance_at (txt : string) (k : nat) :
  advance (at_pos txt k) = at_pos txt (S k).
Proof.
  unfold advance, at_pos. cbn [text pos].
  destruct (Z.gtb_spec (Z.of_nat (S k)) (Z.of_nat (String.length txt) - 1))
    as [Hgt | Hle]; [| reflexivity].
  rewrite get_beyond by lia. reflexivity.
Qed.

Lemma is_decimal_isdigit (c : ascii) : is_decimal c = true -> isdigit c = true.
Proof. unfold is_decimal, isdigit. intros ->. reflexivity. Qed.

Lemma is_decimal_isspace (c : ascii) : is_decimal c = true -> isspace c = false.
Proof.
  unfold is_decimal, isspace. intros H. apply andb_true_iff in H.
  destruct H as [H1 H2]. apply Z.leb_le in H1, H2.
  repeat (apply orb_false_iff; split);
    try (apply andb_false_iff; left; apply Z.leb_gt; lia);
    try (apply andb_false_iff; right; apply Z.leb_gt; lia);
    apply Z.eqb_neq; lia.
Qed.

Lemma int_digits_decimal (ds : string) (acc : Z) :
  all_chars is_decimal ds = true -> exists n, int_digits acc ds = Some n.
Proof.
  revert acc. induction ds as [| d ds IH]; intros acc H; cbn [int_digits].
  - exists acc; reflexivity.
  - simpl in H. apply andb_true_iff in H. destruct H as [Hd Hs].
    unfold decimal_value. unfold is_decimal in Hd. rewrite Hd.
    apply IH; exact Hs.
Qed.

Lemma int_number (ds : string) :
  literal ds ->
  n <- int ds ;; Ok (mkToken INTEGER (PyInt n)) = Ok (number ds).
Proof.
  intros (Hne & H & Hc). unfold number, literal_value.
  destruct (int_cases ds) as [(n & -> & -> & _) | E]; [reflexivity |].
  exfalso. unfold int in E.
  destruct ds as [| d s]; [contradiction Hne; reflexivity |].
  apply Z.ltb_ge in Hc. rewrite Hc in E.
  destruct (int_digits_decimal (String d s) 0 H) as [n En].
  rewrite En in E. discriminate E.
Qed.

Lemma append_empty_r (s : string) : s ++ "" = s.
Proof. induction s as [| c s IH]; simpl; [| rewrite IH]; reflexivity. Qed.

Lemma append_snoc (s t : string) (c : ascii) :
  (s ++ String c "") ++ t = s ++ String c t.
Proof. induction s as [| d s IH]; simpl; [| rewrite IH]; reflexivity. Qed.

Lemma length_app (s t : string) :
  String.length (s ++ t) = String.length s + String.length t.
Proof. induction s as [| c s IH]; simpl; [| rewrite IH]; reflexivity. Qed.

Lemma drop_length_app (s t : string) : drop (String.length s) (s ++ t) = t.
Proof. induction s as [| c s IH]; simpl; [destruct t |]; auto. Qed.

Lemma integer_loop_run (ds : string) :
  forall (acc txt : string) (k : nat) (rest : string) (fuel : nat),
    all_chars is_decimal ds = true ->
    drop k txt = ds ++ rest -> starts_nondigit rest ->
    String.length ds <= fuel ->
    integer_loop fuel acc (at_pos txt k)
    = Ok (acc ++ ds, at_pos txt (k + String.length ds))
    /\ drop (k + String.length ds) txt = rest.
Proof.
  induction ds as [| d ds IH]; intros acc txt k rest fuel Hall Hdrop Hrest Hf.
  - simpl in Hdrop. rewrite Nat.add_0_r, append_empty_r.
    split; [| exact Hdrop].
    assert (E : integer_loop fuel acc (at_pos txt k) = Ok (acc, at_pos txt k));
      [| exact E].
    destruct fuel; simpl; rewrite get_drop, Hdrop;
      destruct rest as [| c rest]; try reflexivity;
      simpl in Hrest; rewrite Hrest; reflexivity.
  - simpl in Hall. apply andb_true_iff in Hall. destruct Hall as [Hd Hall].
    simpl in Hdrop, Hf. destruct fuel as [| fuel]; [lia |].
    cbn [integer_loop]. cbn [current_char at_pos].
    rewrite get_drop, Hdrop, (is_decimal_isdigit d Hd), advance_at.
    destruct (IH (acc ++ String d "") txt (S k) rest fuel Hall
                 (drop_S k txt d _ Hdrop) Hrest ltac:(lia)) as [E1 E2].
    rewrite E1, append_snoc. cbn [String.length].
    replace (k + S (String.length ds)) with (S k + String.length ds) by lia.
    split; [reflexivity | exact E2].
Qed.

Lemma get_next_token_number (ds txt : string) (k : nat) (rest : string)
      (fuel : nat) :
  literal ds ->
  drop k txt = ds ++ rest -> starts_nondigit rest ->
  String.length ds + 1 <= fuel ->
  get_next_token fuel (at_pos txt k)
  = Ok (number ds, at_pos txt (k + String.length ds))
  /\ drop (k + String.length ds) txt = rest.
Proof.
  intros Hlit Hdrop Hrest Hf.
  pose proof Hlit as (Hne & Hall & Hcap).
  destruct fuel as [| fuel]; [lia |].
  destruct (integer_loop_run ds "" txt k rest fuel Hall Hdrop Hrest ltac:(lia))
    as [E1 E2].
  split; [| exact E2].
  destruct ds as [| d ds']; [contradiction Hne; reflexivity |].
  assert (Hd : is_decimal d = true)
    by (simpl in Hall; apply andb_true_iff in Hall; tauto).
  cbn [get_next_token]. cbn [current_char at_pos].
  rewrite get_drop, Hdrop. cbn [append].
  rewrite (is_decimal_isspace d Hd), (is_decimal_isdigit d Hd).
  unfold integer. rewrite E1. cbn [bind append].
  pose proof (int_number (String d ds') Hlit) as Hi.
  destruct (int (String d ds')) as [n | e |]; cbn [bind] in Hi;
    try discriminate Hi.
  cbn [bind].
  assert (Hn : mkToken INTEGER (PyInt n) = number (String d ds'))
    by congruence.
  rewrite Hn. reflexivity.
Qed.

Lemma get_next_token_operator (o : ascii) (txt : string) (k : nat)
      (rest : string) (fuel : nat) :
  In o ["+"; "-"; "*"; "/"]%char -> drop k txt = String o rest ->
  1 <= fuel ->
  get_next_token fuel (at_pos txt k)
  = Ok (operator_token o, at_pos txt (S k))
  /\ drop (S k) txt = rest.
Proof.
  intros Ho Hdrop Hf. split; [| exact (drop_S k txt o rest Hdrop)].
  destruct fuel as [| fuel]; [lia |].
  cbn [get_next_token]. cbn [current_char at_pos].
  rewrite get_drop, Hdrop, advance_at.
  simpl in Ho. destruct Ho as [<- | [<- | [<- | [<- | []]]]]; reflexivity.
Qed.

Lemma get_next_token_end (txt : string) (k : nat) (fuel : nat) :
  drop k txt = "" ->
  get_next_token fuel (at_pos txt k) = Ok (EOF_token, at_pos txt k).
Proof.
  intros Hdrop.
  destruct fuel; simpl; rewrite get_drop, Hdrop; reflexivity.
Qed.

(** ** Two steps of a loop *)

Section Chains.
Variable f : nat.
Variable rec : Parser -> outcome (AST * Parser).

Lemma term_loop_exit (n : nat) (node : AST) (p : Parser) :
  multiplicative (type (current_token p)) = false ->
  term_loop f rec n node p = Ok (node, p).
Proof.
  unfold multiplicative. intros H. destruct n; simpl; rewrite H; reflexivity.
Qed.

Lemma term_loop_step (n : nat) (node : AST) (p : Parser) :
  1 <= n ->
  multiplicative (type (current_token p)) = true ->
  term_loop f rec n node p
  = (p1 <- eat f (type (current_token p)) p ;;
     '(r, p2) <- factor_body f rec p1 ;;
     term_loop f rec (Nat.pred n) (BinOp node (current_token p) r) p2).
Proof.
  unfold multiplicative. intros Hn H. destruct n as [| n]; [lia |].
  cbn [term_loop Nat.pred]. rewrite H.
  destruct (type (current_token p)); try discriminate H; reflexivity.
Qed.

Lemma expr_loop_exit (n : nat) (node : AST) (p : Parser) :
  additive (type (current_token p)) = false ->
  expr_loop f rec n node p = Ok (node, p).
Proof.
  unfold additive. intros H. destruct n; simpl; rewrite H; reflexivity.
Qed.

Lemma expr_loop_step (n : nat) (node : AST) (p : Parser) :
  1 <= n ->
  additive (type (current_token p)) = true ->
  expr_loop f rec n node p
  = (p1 <- eat f (type (current_token p)) p ;;
     '(r, p2) <- term_body f rec p1 ;;
     expr_loop f rec (Nat.pred n) (BinOp node (current_token p) r) p2).
Proof.
  unfold additive. intros Hn H. destruct n as [| n]; [lia |].
  cbn [expr_loop Nat.pred]. rewrite H.
  destruct (type (current_token p)); try discriminate H; reflexivity.
Qed.

Lemma term_body_chain (p pa p1 pb p2 pc : Parser) (a b c : AST) :
  2 <= f ->
  factor_body f rec p = Ok (a, pa) ->
  multiplicative (type (current_token pa)) = true ->
  eat f (type (current_token pa)) pa = Ok p1 ->
  factor_body f rec p1 = Ok (b, pb) ->
  multiplicative (type (current_token pb)) = true ->
  eat f (type (current_token pb)) pb = Ok p2 ->
  factor_body f rec p2 = Ok (c, pc) ->
  multiplicative (type (current_token pc)) = false ->
  term_body f rec p
  = Ok (BinOp (BinOp a (current_token pa) b) (current_token pb) c, pc).
Proof.
  intros Hf Ha Hoa Hea Hb Hob Heb Hc Hoc.
  unfold term_body. rewrite Ha. cbn [bind].
  rewrite (term_loop_step f _ _ ltac:(lia) Hoa), Hea. cbn [bind].
  rewrite Hb. cbn [bind].
  rewrite (term_loop_step (Nat.pred f) _ _ ltac:(lia) Hob), Heb. cbn [bind].
  rewrite Hc. cbn [bind].
  apply term_loop_exit; exact Hoc.
Qed.

Lemma expr_body_chain (p pa p1 pb p2 pc : Parser) (a b c : AST) :
  2 <= f ->
  term_body f rec p = Ok (a, pa) ->
  additive (type (current_token pa)) = true ->
  eat f (type (current_token pa)) pa = Ok p1 ->
  term_body f rec p1 = Ok (b, pb) ->
  additive (type (current_token pb)) = true ->
  eat f (type (current_token pb)) pb = Ok p2 ->
  term_body f rec p2 = Ok (c, pc) ->
  additive (type (current_token pc)) = false ->
  expr_body f rec p
  = Ok (BinOp (BinOp a (current_token pa) b) (current_token pb) c, pc).
Proof.
  intros Hf Ha Hoa Hea Hb Hob Heb Hc Hoc.
  unfold expr_body. rewrite Ha. cbn [bind].
  rewrite (expr_loop_step f _ _ ltac:(lia) Hoa), Hea. cbn [bind].
  rewrite Hb. cbn [bind].
  rewrite (expr_loop_step (Nat.pred f) _ _ ltac:(lia) Hob), Heb. cbn [bind].
  rewrite Hc. cbn [bind].
  apply expr_loop_exit; exact Hoc.
Qed.
End Chains.

(** ** A chain of two operators of one level, between decimal literals *)

Lemma eat_current (f : nat) (l : Lexer) (tok tok' : Token) (l' : Lexer) :
  get_next_token f l = Ok (tok', l') ->
  eat f (type tok) (mkParser l tok) = Ok (mkParser l' tok').
Proof.
  intros E. unfold eat. cbn [current_token lexer].
  rewrite TokenType_eqb_refl, E. reflexivity.
Qed.

Lemma factor_number (f : nat) (rec : Parser -> outcome (AST * Parser))
      (l : Lexer) (ds : string) (tok' : Token) (l' : Lexer) :
  get_next_token f l = Ok (tok', l') ->
  factor_body f rec (mkParser l (number ds))
  = Ok (Num (number ds), mkParser l' tok').
Proof.
  intros E. unfold factor_body. cbn [current_token type number TokenType_eqb].
  change INTEGER with (type (number ds)) at 1.
  rewrite (eat_current f l (number ds) tok' l' E). reflexivity.
Qed.

Lemma term_number (f : nat) (rec : Parser -> outcome (AST * Parser))
      (l : Lexer) (ds : string) (tok' : Token) (l' : Lexer) :
  get_next_token f l = Ok (tok', l') ->
  multiplicative (type tok') = false ->
  term_body f rec (mkParser l (number ds))
  = Ok (Num (number ds), mkParser l' tok').
Proof.
  intros E Hm. unfold term_body. rewrite (factor_number f rec l ds tok' l' E).
  cbn [bind]. apply term_loop_exit. exact Hm.
Qed.

Lemma operator_nondigit (o : ascii) (rest : string) :
  In o ["+"; "-"; "*"; "/"]%char -> starts_nondigit (String o rest).
Proof.
  simpl. intros [<- | [<- | [<- | [<- | []]]]]; reflexivity.
Qed.

Lemma additive_operator (o : ascii) :
  In o ["+"; "-"]%char ->
  In o ["+"; "-"; "*"; "/"]%char
  /\ additive (type (operator_token o)) = true
  /\ multiplicative (type (operator_token o)) = false.
Proof.
  simpl. intros [<- | [<- | []]]; repeat split; auto.
Qed.

Lemma multiplicative_operator (o : ascii) :
  In o ["*"; "/"]%char ->
  In o ["+"; "-"; "*"; "/"]%char
  /\ multiplicative (type (operator_token o)) = true.
Proof.
  simpl. intros [<- | [<- | []]]; repeat split; auto.
Qed.

Lemma parse_chain (a b c : string) (o1 o2 : ascii) (fuel : nat) :
  literal a -> literal b -> literal c -> same_level o1 o2 ->
  fuel_bound (chain_text a o1 b o2 c) <= fuel ->
  exists p',
    parse fuel (chain_text a o1 b o2 c) = Ok (left_fold a o1 b o2 c, p')
    /\ current_token p' = EOF_token.
Proof.
  intros La Lb Lc Hlvl Hf. pose proof (proj1 La) as Hna.
  set (txt := chain_text a o1 b o2 c) in *.
  assert (Hlen : String.length txt
                 = String.length a + S (String.length b + S (String.length c))).
  { unfold txt, chain_text. rewrite length_app. cbn [String.length].
    rewrite length_app. reflexivity. }
  unfold fuel_bound in Hf. destruct fuel as [| f]; [lia |].
  assert (Ho : In o1 ["+"; "-"; "*"; "/"]%char /\ In o2 ["+"; "-"; "*"; "/"]%char).
  { destruct Hlvl as [[H1 H2] | [H1 H2]].
    - split; [apply (additive_operator o1 H1) | apply (additive_operator o2 H2)].
    - split; [apply (multiplicative_operator o1 H1)
             | apply (multiplicative_operator o2 H2)]. }
  destruct Ho as [Ho1 Ho2].
  set (k1 := 0 + String.length a).
  set (k3 := S k1 + String.length b).
  set (k5 := S k3 + String.length c).
  destruct (get_next_token_number a txt 0 (String o1 (b ++ String o2 c)) (S f)
              La eq_refl (operator_nondigit o1 _ Ho1) ltac:(lia))
    as [N1 D1].
  destruct (get_next_token_operator o1 txt k1 _ f Ho1 D1 ltac:(lia))
    as [O1 D2].
  destruct (get_next_token_number b txt (S k1) (String o2 c) f
              Lb D2 (operator_nondigit o2 _ Ho2) ltac:(lia))
    as [N2 D3].
  destruct (get_next_token_operator o2 txt k3 _ f Ho2 D3 ltac:(lia))
    as [O2 D4].
  rewrite <- (append_empty_r c) in D4.
  destruct (get_next_token_number c txt (S k3) "" f Lc D4 I ltac:(lia))
    as [N3 D5].
  pose proof (get_next_token_end txt k5 f D5) as E.
  fold k1 in N1. fold k3 in N2. fold k5 in N3.
  exists (mkParser (at_pos txt k5) EOF_token). split; [| reflexivity].
  assert (Hinit : Lexer_init txt = Ok (at_pos txt 0)).
  { destruct a as [| d a']; [contradiction Hna; reflexivity | reflexivity]. }
  unfold parse. rewrite Hinit. cbn [bind].
  unfold Parser_init. rewrite N1. cbn [bind expr].
  destruct Hlvl as [[H1 H2] | [H1 H2]].
  - destruct (additive_operator o1 H1) as (_ & Ha1 & Hm1).
    destruct (additive_operator o2 H2) as (_ & Ha2 & Hm2).
    apply expr_body_chain
      with (pa := mkParser (at_pos txt (S k1)) (operator_token o1))
           (p1 := mkParser (at_pos txt k3) (number b))
           (pb := mkParser (at_pos txt (S k3)) (operator_token o2))
           (p2 := mkParser (at_pos txt k5) (number c)).
    + lia.
    + apply term_number; [exact O1 | exact Hm1].
    + exact Ha1.
    + apply eat_current; exact N2.
    + apply term_number; [exact O2 | exact Hm2].
    + exact Ha2.
    + apply eat_current; exact N3.
    + apply term_number; [exact E | reflexivity].
    + reflexivity.
  - destruct (multiplicative_operator o1 H1) as (_ & Hm1).
    destruct (multiplicative_operator o2 H2) as (_ & Hm2).
    unfold expr_body.
    rewrite term_body_chain
      with (a := Num (number a)) (b := Num (number b)) (c := Num (number c))
           (pa := mkParser (at_pos txt (S k1)) (operator_token o1))
           (p1 := mkParser (at_pos txt k3) (number b))
           (pb := mkParser (at_pos txt (S k3)) (operator_token o2))
           (p2 := mkParser (at_pos txt k5) (number c))
           (pc := mkParser (at_pos txt k5) EOF_token).
    + cbn [bind]. apply expr_loop_exit. reflexivity.
    + lia.
    + apply factor_number; exact O1.
    + exact Hm1.
    + apply eat_current; exact N2.
    + apply factor_number; exact O2.
    + exact Hm2.
    + apply eat_current; exact N3.
    + apply factor_number; exact E.
    + reflexivity.
Qed.

Lemma evaluate_as_parse (fuel : nat) (txt : string) :
  evaluate fuel txt = (r <- parse fuel txt ;; visit (fst r)).
Proof.
  unfold evaluate, parse, interpret.
  destruct (Lexer_init txt) as [l | e |]; cbn [bind]; try reflexivity.
  destruct (Parser_init fuel l) as [p | e |]; cbn [bind]; try reflexivity.
  destruct (expr fuel p) as [[tree p'] | e |]; reflexivity.
Qed.

Lemma visit_left_fold (a b c : string) (o1 o2 : ascii) :
  In o1 ["+"; "-"; "*"; "/"]%char -> In o2 ["+"; "-"; "*"; "/"]%char ->
  visit (left_fold a o1 b o2 c)
  = (x <- py_binop o1 (PyInt (literal_value a)) (PyInt (literal_value b)) ;;
     py_binop o2 x (PyInt (literal_value c))).
Proof.
  simpl.
  intros [<- | [<- | [<- | [<- | []]]]] [<- | [<- | [<- | [<- | []]]]];
    reflexivity.
Qed.

Lemma evaluate_chain (a b c : string) (o1 o2 : ascii) (fuel : nat) :
  literal a -> literal b -> literal c -> same_level o1 o2 ->
  fuel_bound (chain_text a o1 b o2 c) <= fuel ->
  evaluate fuel (chain_text a o1 b o2 c)
  = (x <- py_binop o1 (PyInt (literal_value a)) (PyInt (literal_value b)) ;;
     py_binop o2 x (PyInt (literal_value c))).
Proof.
  intros Ha Hb Hc Hlvl Hf.
  destruct (parse_chain a b c o1 o2 fuel Ha Hb Hc Hlvl Hf) as (p' & E & _).
  rewrite evaluate_as_parse, E. cbn [bind fst].
  apply visit_left_fold.
  - destruct Hlvl as [[H _] | [H _]];
      [apply (additive_operator o1 H) | apply (multiplicative_operator o1 H)].
  - destruct Hlvl as [[_ H] | [_ H]];
      [apply (additive_operator o2 H) | apply (multiplicative_operator o2 H)].
Qed.

(** ** Left associativity *)

(** C2. Operators of one level fold to the left.  For the loops of [expr]
    and of [term], whatever the operands: an operand [a], an operator, an
    operand [b], a second operator of the same level and an operand [c],
    with no further operator of that level, give
    [BinOp (BinOp a op1 b) op2 c].  For a line [a op1 b op2 c] between
    decimal literals, each of at most [int_max_str_digits] digits, this is
    the tree parsed, and its value is [(a op1 b) op2 c].  In particular
    "10 - 2 - 3" is 5 and not 11. *)
Theorem C2_left_associative :
  (forall f p pa p1 pb p2 pc a b c,
      2 <= f ->
      term f p = Ok (a, pa) ->
      additive (type (current_token pa)) = true ->
      eat f (type (current_token pa)) pa = Ok p1 ->
      term f p1 = Ok (b, pb) ->
      additive (type (current_token pb)) = true ->
      eat f (type (current_token pb)) pb = Ok p2 ->
      term f p2 = Ok (c, pc) ->
      additive (type (current_token pc)) = false ->
      expr (S f) p
      = Ok (BinOp (BinOp a (current_token pa) b) (current_token pb) c, pc))
  /\ (forall f p pa p1 pb p2 pc a b c,
         2 <= f ->
         factor f p = Ok (a, pa) ->
         multiplicative (type (current_token pa)) = true ->
         eat f (type (current_token pa)) pa = Ok p1 ->
         factor f p1 = Ok (b, pb) ->
         multiplicative (type (current_token pb)) = true ->
         eat f (type (current_token pb)) pb = Ok p2 ->
         factor f p2 = Ok (c, pc) ->
         multiplicative (type (current_token pc)) = false ->
         term f p
         = Ok (BinOp (BinOp a (current_token pa) b) (current_token pb) c, pc))
  /\ (forall a b c o1 o2 fuel,
         literal a -> literal b -> literal c -> same_level o1 o2 ->
         fuel_bound (chain_text a o1 b o2 c) <= fuel ->
         (exists p',
             parse fuel (chain_text a o1 b o2 c)
             = Ok (left_fold a o1 b o2 c, p'))
         /\ evaluate fuel (chain_text a o1 b o2 c)
            = (x <- py_binop o1 (PyInt (literal_value a))
                             (PyInt (literal_value b)) ;;
               py_binop o2 x (PyInt (literal_value c))))
  /\ (forall fuel,
         fuel_bound "10 - 2 - 3" <= fuel ->
         (exists p',
             parse fuel "10 - 2 - 3"
             = Ok (BinOp (BinOp (Num (mkToken INTEGER (PyInt 10)))
                                (mkToken MINUS (PyStr "-"))
                                (Num (mkToken INTEGER (PyInt 2))))
                         (mkToken MINUS (PyStr "-"))
                         (Num (mkToken INTEGER (PyInt 3))), p'))
         /\ evaluate fuel "10 - 2 - 3" = Ok (PyInt 5)
         /\ evaluate fuel "10 - 2 - 3" <> Ok (PyInt 11)).
Proof.
  split; [| split; [| split]].
  - intros f p pa p1 pb p2 pc a b c. cbn [expr]. unfold term.
    apply expr_body_chain.
  - intros f p pa p1 pb p2 pc a b c. unfold term, factor.
    apply term_body_chain.
  - intros a b c o1 o2 fuel Ha Hb Hc Hlvl Hf. split.
    + destruct (parse_chain a b c o1 o2 fuel Ha Hb Hc Hlvl Hf) as (p' & E & _).
      exists p'; exact E.
    + apply evaluate_chain; assumption.
  - intros fuel Hf.
    rewrite (parse_enough fuel), (evaluate_enough fuel) by exact Hf.
    vm_compute. repeat split; [eexists; reflexivity | discriminate].
Qed.

Lemma C2_left_associative_witness :
  exists p',
    parse 8 "10-2-3"
    = Ok (BinOp (BinOp (Num (mkToken INTEGER (PyInt 10)))
                       (mkToken MINUS (PyStr "-"))
                       (Num (mkToken INTEGER (PyInt 2))))
                (mkToken MINUS (PyStr "-"))
                (Num (mkToken INTEGER (PyInt 3))), p').
Proof.
  assert (L : forall s, s <> "" -> all_chars is_decimal s = true ->
                        (Z.of_nat (String.length s) <=? int_max_str_digits)%Z
                        = true -> literal s).
  { intros s H1 H2 H3. split; [exact H1 |]. split; [exact H2 |].
    apply Z.leb_le. exact H3. }
  assert (H10 : "10" <> "") by discriminate.
  assert (H2 : "2" <> "") by discriminate.
  assert (H3 : "3" <> "") by discriminate.
  assert (Hs : same_level "-" "-")
    by (left; split; right; left; reflexivity).
  assert (Hf : fuel_bound (chain_text "10" "-" "2" "-" "3") <= 8)
    by (vm_compute; apply le_n).
  exact (proj1 (proj1 (proj2 (proj2 C2_left_associative))
                  "10" "2" "3" "-"%char "-"%char 8
                  (L "10" H10 eq_refl eq_refl) (L "2" H2 eq_refl eq_refl)
                  (L "3" H3 eq_refl eq_refl)
                  Hs Hf)).
Defined.

(** * Further properties of the lexer *)

Lemma get_some_lt (s : string) (n : nat) (c : ascii) :
  String.get n s = Some c -> n < String.length s.
Proof.
  intros H. destruct (Nat.lt_ge_cases n (String.length s)) as [Hlt | Hge];
    [exact Hlt |].
  rewrite (get_beyond s n Hge) in H. discriminate.
Qed.

Lemma advance_in_bounds (l : Lexer) (c : ascii) :
  in_bounds l -> current_char l = Some c ->
  in_bounds (advance l) /\ text (advance l) = text l.
Proof.
  intros [Hs Hp] Hc. unfold synced in Hs. rewrite Hc in Hs. symmetry in Hs.
  apply get_some_lt in Hs.
  split; [split; [apply advance_synced |] | apply advance_text].
  rewrite advance_pos, advance_text. lia.
Qed.

Lemma skip_whitespace_in_bounds (fuel : nat) (l l' : Lexer) :
  in_bounds l -> skip_whitespace fuel l = Ok l' ->
  in_bounds l' /\ text l' = text l.
Proof.
  revert l. induction fuel as [| fuel IH]; intros l Hl; simpl;
    destruct (current_char l) as [c |] eqn:Hc; try destruct (isspace c);
    try discriminate; try (intros E; injection E as <-; auto).
  destruct (advance_in_bounds l c Hl Hc) as [Ha Ht].
  intros E. apply IH in E; [| exact Ha]. rewrite Ht in E. exact E.
Qed.

Lemma integer_loop_in_bounds (fuel : nat) (acc s : string) (l l' : Lexer) :
  in_bounds l -> integer_loop fuel acc l = Ok (s, l') ->
  in_bounds l' /\ text l' = text l.
Proof.
  revert acc l. induction fuel as [| fuel IH]; intros acc l Hl; simpl;
    destruct (current_char l) as [c |] eqn:Hc; try destruct (isdigit c);
    try discriminate; try (intros E; injection E as _ <-; auto).
  destruct (advance_in_bounds l c Hl Hc) as [Ha Ht].
  intros E. apply IH in E; [| exact Ha]. rewrite Ht in E. exact E.
Qed.

Lemma get_next_token_in_bounds (fuel : nat) (l : Lexer) (tok : Token)
      (l' : Lexer) :
  in_bounds l -> get_next_token fuel l = Ok (tok, l') ->
  in_bounds l' /\ text l' = text l.
Proof.
  revert l. induction fuel as [| fuel IH]; intros l Hl; simpl;
    destruct (current_char l) as [c |] eqn:Hc; try discriminate;
    try (intros E; injection E as _ <-; auto).
  destruct (isspace c).
  - destruct (skip_whitespace fuel l) as [l1 | e |] eqn:Es; simpl;
      try discriminate.
    destruct (skip_whitespace_in_bounds fuel l l1 Hl Es) as [H1 T1].
    intros E. apply IH in E; [| exact H1]. rewrite T1 in E. exact E.
  - destruct (isdigit c).
    + unfold integer.
      destruct (integer_loop fuel "" l) as [[s l1] | e |] eqn:Ei; simpl;
        try discriminate.
      destruct (int s); simpl; try discriminate.
      intros E; injection E as _ <-.
      exact (integer_loop_in_bounds fuel "" s l l1 Hl Ei).
    + repeat match goal with
             | |- (if ?b then _ else _) = _ -> _ => destruct b
             end; try discriminate;
        intros E; injection E as _ <-; exact (advance_in_bounds l c Hl Hc).
Qed.

Lemma Lexer_init_in_bounds (txt : string) (l : Lexer) :
  Lexer_init txt = Ok l -> in_bounds l /\ text l = txt /\ pos l = 0.
Proof.
  unfold Lexer_init. destruct (String.get 0 txt) as [c |] eqn:Hc;
    [| discriminate].
  intros E; injection E as <-. repeat split; simpl; [| lia].
  unfold synced; simpl. symmetry; exact Hc.
Qed.

Lemma pull_in_bounds (fuel n : nat) (l : Lexer) (toks : list Token)
      (l' : Lexer) :
  in_bounds l -> pull fuel n l = Ok (toks, l') ->
  in_bounds l' /\ text l' = text l /\ pos l <= pos l' /\ List.length toks = n.
Proof.
  revert l toks l'. induction n as [| n IH]; intros l toks l' Hl; simpl.
  - intros E; injection E as <- <-. auto.
  - destruct (get_next_token fuel l) as [[tok l1] | e |] eqn:E1; simpl;
      try discriminate.
    destruct (get_next_token_in_bounds fuel l tok l1 Hl E1) as [H1 T1].
    pose proof (proj1 (get_next_token_pos fuel l tok l1 E1)) as P1.
    destruct (pull fuel n l1) as [[toks1 l2] | e |] eqn:E2; simpl;
      try discriminate.
    destruct (IH l1 toks1 l2 H1 E2) as (H2 & T2 & P2 & L2).
    intros E; injection E as <- <-. simpl.
    repeat split; try apply H2; try congruence; lia.
Qed.

(** X1. However many tokens have been pulled from the lexer of a line, it
    still holds that line, its position has not moved back and is at most the
    length of the line, and its current character is the character of the
    line at that position, [None] exactly at the end. *)
Theorem X1_lexer_stays_in_bounds (txt : string) (l0 : Lexer) (fuel n : nat)
        (toks : list Token) (l : Lexer) :
  Lexer_init txt = Ok l0 -> pull fuel n l0 = Ok (toks, l) ->
  text l = txt
  /\ pos l <= String.length txt
  /\ current_char l = String.get (pos l) txt
  /\ (current_char l = None <-> pos l = String.length txt)
  /\ List.length toks = n.
Proof.
  intros E0 E.
  destruct (Lexer_init_in_bounds txt l0 E0) as (H0 & T0 & P0).
  destruct (pull_in_bounds fuel n l0 toks l H0 E) as ([Hs Hp] & T & _ & L).
  rewrite T0 in T. unfold synced in Hs. rewrite T in *.
  repeat split; auto.
  - intros Hn. rewrite Hs in Hn.
    destruct (Nat.eq_dec (pos l) (String.length txt)) as [Heq | Hne];
      [exact Heq |].
    assert (Hlt : pos l < String.length txt) by lia.
    destruct (String.get (pos l) txt) eqn:Hg; [discriminate |].
    destruct txt as [| c s]; [simpl in Hlt; lia |].
    exfalso. clear - Hlt Hg. revert Hlt Hg. generalize (pos l).
    generalize (String c s). intros s0. induction s0 as [| d s0 IH];
      intros k; simpl; [lia |].
    destruct k as [| k]; [discriminate |]. intros Hlt. apply IH. lia.
  - intros Heq. rewrite Hs. apply get_beyond. lia.
Qed.

Lemma X1_lexer_stays_in_bounds_witness :
  pos (mkLexer "1 + 2" 3 (Some " "%char)) <= String.length "1 + 2".
Proof.
  exact (proj1 (proj2 (X1_lexer_stays_in_bounds
                         "1 + 2" (mkLexer "1 + 2" 0 (Some "1"%char)) 7 2
                         [mkToken INTEGER (PyInt 1); mkToken PLUS (PyStr "+")]
                         (mkLexer "1 + 2" 3 (Some " "%char))
                         eq_refl eq_refl))).
Defined.

(** * Further properties of the parser *)

Ltac inv_bind H :=
  match type of H with
  | bind ?m _ = Ok _ =>
      let E := fresh "E" in
      destruct m as [? | ? |] eqn:E; cbn [bind] in H;
      [| discriminate H | discriminate H]
  end.

Lemma get_next_token_remaining (fuel : nat) (l : Lexer) (tok : Token)
      (l' : Lexer) :
  get_next_token fuel l = Ok (tok, l') ->
  remaining l' + weight tok <= remaining l.
Proof.
  intros E. set (F := fuel + (remaining l + 1)).
  pose proof (get_next_token_ends F l ltac:(unfold F; lia)) as H.
  rewrite (get_next_token_mono fuel F l) in H
    by (try (unfold F; lia); rewrite E; discriminate).
  rewrite E in H. exact H.
Qed.

Lemma eat_parsed (fuel : nat) (tt : TokenType) (p p' : Parser) :
  tt <> EOF -> eat fuel tt p = Ok p' ->
  token_value_ok (current_token p') /\ mu p' + 1 <= mu p.
Proof.
  intros Htt. unfold eat.
  destruct (TokenType_eqb (type (current_token p)) tt) eqn:Et;
    [| discriminate].
  apply TokenType_eqb_eq in Et. intros E. inv_bind E.
  destruct a as [tok l']. injection E as <-. cbn [current_token].
  split; [exact (get_next_token_value fuel _ tok l' E0) |].
  apply get_next_token_remaining in E0. unfold mu; cbn [lexer current_token].
  assert (weight (current_token p) = 1) as ->; [| lia].
  unfold weight. rewrite Et. destruct tt; try reflexivity. congruence.
Qed.

Lemma number_token (tok : Token) :
  token_value_ok tok -> type tok = INTEGER -> is_number tok = true.
Proof.
  unfold token_value_ok, is_number. intros H E. rewrite E in *.
  destruct H as (n & -> & Hn). apply Z.leb_le; exact Hn.
Qed.

Lemma operator_token_shape (tok : Token) :
  token_value_ok tok ->
  additive (type tok) || multiplicative (type tok) = true ->
  is_operator tok = true.
Proof.
  unfold token_value_ok, is_operator, additive, multiplicative.
  destruct (type tok); simpl; try discriminate; intros -> _; reflexivity.
Qed.

Section ProductionsParsed.
Variable f : nat.
Variable rec : Parser -> outcome (AST * Parser).
Hypothesis Hrec :
  forall q r, token_value_ok (current_token q) -> rec q = Ok r -> parsed q r.

Lemma factor_body_parsed (p : Parser) (r : AST * Parser) :
  token_value_ok (current_token p) -> factor_body f rec p = Ok r ->
  parsed p r.
Proof.
  intros Hp. unfold factor_body.
  destruct (TokenType_eqb (type (current_token p)) INTEGER) eqn:Ei.
  - apply TokenType_eqb_eq in Ei. intros E. inv_bind E.
    injection E as <-.
    destruct (eat_parsed f INTEGER p a ltac:(discriminate) E0) as [Ha Hm].
    repeat split; cbn [fst snd well_formed size];
      [apply number_token; assumption | exact Ha | lia].
  - destruct (TokenType_eqb (type (current_token p)) LPAREN);
      [| discriminate].
    intros E. inv_bind E.
    destruct (eat_parsed f LPAREN p a ltac:(discriminate) E0) as [Ha Hm].
    inv_bind E. destruct a0 as [node p2].
    destruct (Hrec a (node, p2) Ha E1) as (Hw & Ht & Hs).
    cbn [fst snd] in *. inv_bind E.
    destruct (eat_parsed f RPAREN p2 a0 ltac:(discriminate) E2) as [Ha3 Hm3].
    injection E as <-. repeat split; cbn [fst snd]; auto; lia.
Qed.

Lemma term_loop_parsed (n : nat) (node : AST) (p : Parser)
      (r : AST * Parser) :
  token_value_ok (current_token p) -> well_formed node = true ->
  term_loop f rec n node p = Ok r ->
  well_formed (fst r) = true
  /\ token_value_ok (current_token (snd r))
  /\ size (fst r) + mu (snd r) <= size node + mu p.
Proof.
  revert node p. induction n as [| n IH]; intros node p Hp Hw;
    cbn [term_loop];
    destruct (TokenType_eqb (type (current_token p)) MUL
              || TokenType_eqb (type (current_token p)) DIV) eqn:Hop;
    try discriminate;
    try (intros E; injection E as <-; cbn [fst snd]; auto).
  intros E. inv_bind E.
  assert (Ha : token_value_ok (current_token a) /\ mu a + 1 <= mu p).
  { destruct (TokenType_eqb (type (current_token p)) MUL);
      [exact (eat_parsed f MUL p a ltac:(discriminate) E0) |].
    destruct (TokenType_eqb (type (current_token p)) DIV);
      [exact (eat_parsed f DIV p a ltac:(discriminate) E0) | discriminate]. }
  destruct Ha as [Ha Hm]. inv_bind E. destruct a0 as [right_ p2].
  destruct (factor_body_parsed a (right_, p2) Ha E1) as (Hwr & Ht & Hs).
  cbn [fst snd] in *.
  apply IH in E; [| exact Ht |].
  - cbn [size] in E. destruct E as (H1 & H2 & H3). repeat split; auto. lia.
  - cbn [well_formed]. rewrite Hw, Hwr, (operator_token_shape _ Hp).
    + reflexivity.
    + unfold multiplicative. rewrite Hop. apply orb_true_r.
Qed.

Lemma term_body_parsed (p : Parser) (r : AST * Parser) :
  token_value_ok (current_token p) -> term_body f rec p = Ok r ->
  parsed p r.
Proof.
  intros Hp. unfold term_body. intros E. inv_bind E. destruct a as [node p1].
  destruct (factor_body_parsed p (node, p1) Hp E0) as (Hw & Ht & Hs).
  cbn [fst snd] in *.
  destruct (term_loop_parsed f node p1 r Ht Hw E) as (H1 & H2 & H3).
  repeat split; auto. lia.
Qed.

Lemma expr_loop_parsed (n : nat) (node : AST) (p : Parser)
      (r : AST * Parser) :
  token_value_ok (current_token p) -> well_formed node = true ->
  expr_loop f rec n node p = Ok r ->
  well_formed (fst r) = true
  /\ token_value_ok (current_token (snd r))
  /\ size (fst r) + mu (snd r) <= size node + mu p.
Proof.
  revert node p. induction n as [| n IH]; intros node p Hp Hw;
    cbn [expr_loop];
    destruct (TokenType_eqb (type (current_token p)) PLUS
              || TokenType_eqb (type (current_token p)) MINUS) eqn:Hop;
    try discriminate;
    try (intros E; injection E as <-; cbn [fst snd]; auto).
  intros E. inv_bind E.
  assert (Ha : token_value_ok (current_token a) /\ mu a + 1 <= mu p).
  { destruct (TokenType_eqb (type (current_token p)) PLUS);
      [exact (eat_parsed f PLUS p a ltac:(discriminate) E0) |].
    destruct (TokenType_eqb (type (current_token p)) MINUS);
      [exact (eat_parsed f MINUS p a ltac:(discriminate) E0) | discriminate]. }
  destruct Ha as [Ha Hm]. inv_bind E. destruct a0 as [right_ p2].
  destruct (term_body_parsed a (right_, p2) Ha E1) as (Hwr & Ht & Hs).
  cbn [fst snd] in *.
  apply IH in E; [| exact Ht |].
  - cbn [size] in E. destruct E as (H1 & H2 & H3). repeat split; auto. lia.
  - cbn [well_formed]. rewrite Hw, Hwr, (operator_token_shape _ Hp).
    + reflexivity.
    + unfold additive. rewrite Hop. reflexivity.
Qed.

Lemma expr_body_parsed (p : Parser) (r : AST * Parser) :
  token_value_ok (current_token p) -> expr_body f rec p = Ok r ->
  parsed p r.
Proof.
  intros Hp. unfold expr_body. intros E. inv_bind E. destruct a as [node p1].
  destruct (term_body_parsed p (node, p1) Hp E0) as (Hw & Ht & Hs).
  cbn [fst snd] in *.
  destruct (expr_loop_parsed f node p1 r Ht Hw E) as (H1 & H2 & H3).
  repeat split; auto. lia.
Qed.
End ProductionsParsed.

Lemma expr_parsed (fuel : nat) (p : Parser) (r : AST * Parser) :
  token_value_ok (current_token p) -> expr fuel p = Ok r -> parsed p r.
Proof.
  revert p r. induction fuel as [| fuel IH]; intros p r Hp; simpl;
    [discriminate |].
  apply expr_body_parsed; [| exact Hp]. intros q r' Hq. apply IH; exact Hq.
Qed.

Lemma Parser_init_parsed (fuel : nat) (l : Lexer) (p : Parser) :
  Parser_init fuel l = Ok p ->
  token_value_ok (current_token p) /\ mu p <= remaining l.
Proof.
  unfold Parser_init. intros E. inv_bind E. destruct a as [tok l'].
  injection E as <-. cbn [current_token]. split.
  - exact (get_next_token_value fuel l tok l' E0).
  - apply get_next_token_remaining in E0. unfold mu; simpl. lia.
Qed.

Lemma depth_le_size (t : AST) : depth t <= size t.
Proof. induction t as [l IHl op r IHr | tok]; simpl; lia. Qed.

Lemma parse_expr (fuel : nat) (txt : string) (r : AST * Parser) :
  parse fuel txt = Ok r ->
  exists l p, Lexer_init txt = Ok l /\ Parser_init fuel l = Ok p
              /\ expr fuel p = Ok r.
Proof.
  unfold parse. intros E. inv_bind E. inv_bind E.
  exists a, a0. auto.
Qed.

Lemma parse_well_formed (fuel : nat) (txt : string) (t : AST) (p' : Parser) :
  parse fuel txt = Ok (t, p') -> well_formed t = true.
Proof.
  intros E. destruct (parse_expr fuel txt _ E) as (l & p & _ & Ep & Ee).
  destruct (Parser_init_parsed fuel l p Ep) as [Ht _].
  exact (proj1 (expr_parsed fuel p (t, p') Ht Ee)).
Qed.

(** X2. Every tree the parser returns has the shape the evaluator expects:
    each leaf holds an [INTEGER] token with a non-negative integer, and each
    inner node holds one of the four operator tokens. *)
Theorem X2_parsed_tree_well_formed (fuel : nat) (txt : string) (t : AST)
        (p' : Parser) :
  parse fuel txt = Ok (t, p') -> well_formed t = true.
Proof.
  intros E. destruct (parse_expr fuel txt _ E) as (l & p & _ & Ep & Ee).
  destruct (Parser_init_parsed fuel l p Ep) as [Ht _].
  exact (proj1 (expr_parsed fuel p (t, p') Ht Ee)).
Qed.

Lemma X2_parsed_tree_well_formed_witness :
  well_formed (BinOp (Num (mkToken INTEGER (PyInt 1)))
                     (mkToken PLUS (PyStr "+"))
                     (Num (mkToken INTEGER (PyInt 2)))) = true.
Proof.
  exact (X2_parsed_tree_well_formed 5 "1+2" _
           (mkParser (mkLexer "1+2" 3 None) EOF_token) eq_refl).
Defined.

(** X3. The tree of a line has at most as many nodes as the line has
    characters, and so it is at most that deep: every node costs the lexer a
    token. *)
Theorem X3_tree_no_larger_than_line (fuel : nat) (txt : string) (t : AST)
        (p' : Parser) :
  parse fuel txt = Ok (t, p') ->
  size t <= String.length txt /\ depth t <= String.length txt.
Proof.
  intros E. destruct (parse_expr fuel txt _ E) as (l & p & El & Ep & Ee).
  pose proof (Lexer_init_remaining txt l El) as Hr.
  destruct (Parser_init_parsed fuel l p Ep) as [Ht Hm].
  destruct (expr_parsed fuel p (t, p') Ht Ee) as (_ & _ & Hs).
  cbn [fst snd] in Hs. pose proof (depth_le_size t). lia.
Qed.

Lemma X3_tree_no_larger_than_line_witness :
  size (BinOp (Num (mkToken INTEGER (PyInt 1)))
              (mkToken PLUS (PyStr "+"))
              (Num (mkToken INTEGER (PyInt 2)))) <= String.length "1+2".
Proof.
  exact (proj1 (X3_tree_no_larger_than_line 5 "1+2" _
                  (mkParser (mkLexer "1+2" 3 None) EOF_token) eq_refl)).
Defined.

(** ** Where a production stops *)

Section ProductionsStop.
Variable f : nat.
Variable rec : Parser -> outcome (AST * Parser).

Lemma term_loop_stops (n : nat) (node : AST) (p : Parser) (r : AST * Parser) :
  term_loop f rec n node p = Ok r ->
  multiplicative (type (current_token (snd r))) = false.
Proof.
  revert node p. induction n as [| n IH]; intros node p; cbn [term_loop];
    destruct (TokenType_eqb (type (current_token p)) MUL
              || TokenType_eqb (type (current_token p)) DIV) eqn:Hop;
    try discriminate;
    try (intros E; injection E as <-; exact Hop).
  intros E. inv_bind E. inv_bind E. destruct a0 as [right_ p2].
  exact (IH _ _ E).
Qed.

Lemma term_body_stops (p : Parser) (r : AST * Parser) :
  term_body f rec p = Ok r ->
  multiplicative (type (current_token (snd r))) = false.
Proof.
  unfold term_body. intros E. inv_bind E. destruct a as [node p1].
  exact (term_loop_stops f node p1 r E).
Qed.

Lemma expr_loop_stops (n : nat) (node : AST) (p : Parser) (r : AST * Parser) :
  multiplicative (type (current_token p)) = false ->
  expr_loop f rec n node p = Ok r ->
  additive (type (current_token (snd r))) = false
  /\ multiplicative (type (current_token (snd r))) = false.
Proof.
  revert node p. induction n as [| n IH]; intros node p Hm; cbn [expr_loop];
    destruct (TokenType_eqb (type (current_token p)) PLUS
              || TokenType_eqb (type (current_token p)) MINUS) eqn:Hop;
    try discriminate;
    try (intros E; injection E as <-; split; [exact Hop | exact Hm]).
  intros E. inv_bind E. inv_bind E. destruct a0 as [right_ p2].
  apply (IH _ p2 (term_body_stops a (right_, p2) E1) E).
Qed.

Lemma expr_body_stops (p : Parser) (r : AST * Parser) :
  expr_body f rec p = Ok r ->
  additive (type (current_token (snd r))) = false
  /\ multiplicative (type (current_token (snd r))) = false.
Proof.
  unfold expr_body. intros E. inv_bind E. destruct a as [node p1].
  apply (expr_loop_stops f node p1); [| exact E].
  exact (term_body_stops p (node, p1) E0).
Qed.
End ProductionsStop.

(** X4. [term] returns only in front of a token that is not [*] or [/], and
    [expr] only in front of one that is none of [+ - * /]: each takes the
    longest chain of operators it can, and what it leaves is a number, a
    parenthesis or the end of the line. *)
Theorem X4_longest_chain :
  (forall fuel p t p',
      term fuel p = Ok (t, p') ->
      type (current_token p') <> MUL /\ type (current_token p') <> DIV)
  /\ (forall fuel p t p',
         expr fuel p = Ok (t, p') ->
         In (type (current_token p')) [INTEGER; LPAREN; RPAREN; EOF]).
Proof.
  split.
  - intros fuel p t p' E. unfold term in E.
    apply term_body_stops in E. cbn [snd] in E. unfold multiplicative in E.
    destruct (type (current_token p')); split; discriminate.
  - intros fuel p t p' E. destruct fuel as [| fuel]; [discriminate |].
    cbn [expr] in E. apply expr_body_stops in E. cbn [snd] in E.
    unfold additive, multiplicative in E.
    destruct (type (current_token p')); simpl in *; destruct E; auto;
      discriminate.
Qed.

Lemma X4_longest_chain_witness :
  In (type (current_token (mkParser (mkLexer "1*2)" 4 None)
                                    (mkToken RPAREN (PyStr ")")))))
     [INTEGER; LPAREN; RPAREN; EOF].
Proof.
  exact (proj2 X4_longest_chain 5
           (mkParser (mkLexer "1*2)" 1 (Some "*"%char))
                     (mkToken INTEGER (PyInt 1)))
           _ (mkParser (mkLexer "1*2)" 4 None) (mkToken RPAREN (PyStr ")")))
           eq_refl).
Defined.

(** * Further properties of the interpreter *)

Lemma finite_or_overflow_numeric (x : spec_float) :
  match finite_or_overflow x with
  | Ok _ | Raise OverflowError => True
  | _ => False
  end.
Proof. destruct x; exact I. Qed.

Lemma float_of_int_numeric (n : Z) :
  match float_of_int n with
  | Ok _ | Raise OverflowError => True
  | _ => False
  end.
Proof. apply finite_or_overflow_numeric. Qed.

Lemma int_true_divide_numeric (a b : Z) :
  match int_true_divide a b with
  | Ok _ | Raise OverflowError | Raise ZeroDivisionError => True
  | _ => False
  end.
Proof.
  unfold int_true_divide.
  destruct (b =? 0)%Z; [exact I |]. destruct (a =? 0)%Z; [exact I |].
  destruct (SFdiv_core_binary prec emax (Z.abs a) 0 (Z.abs b) 0) as [[q e] loc].
  pose proof (finite_or_overflow_numeric
                (binary_round_aux prec emax (xorb (a <? 0)%Z (b <? 0)%Z) q e loc))
    as H.
  destruct (finite_or_overflow _) as [x | [] |]; auto.
Qed.

Lemma float_true_divide_numeric (x y : spec_float) :
  match float_true_divide x y with
  | Ok _ | Raise ZeroDivisionError => True
  | _ => False
  end.
Proof. destruct y; exact I. Qed.

Ltac numeric_cases :=
  repeat match goal with
         | |- context [float_of_int ?n] =>
             let H := fresh in
             pose proof (float_of_int_numeric n) as H;
             destruct (float_of_int n) as [? | [] |]; try contradiction H;
             clear H; cbn [bind]
         | |- context [int_true_divide ?a ?b] =>
             let H := fresh in
             pose proof (int_true_divide_numeric a b) as H;
             destruct (int_true_divide a b) as [? | [] |];
             try contradiction H; clear H; cbn [bind]
         | |- context [float_true_divide ?a ?b] =>
             let H := fresh in
             pose proof (float_true_divide_numeric a b) as H;
             destruct (float_true_divide a b) as [? | [] |];
             try contradiction H; clear H; cbn [bind]
         end; try exact I.

Lemma py_add_numeric (a b : pyval) :
  numeric a -> numeric b -> numeric_outcome (py_add a b).
Proof. destruct a, b; simpl; try contradiction; intros _ _; numeric_cases. Qed.

Lemma py_sub_numeric (a b : pyval) :
  numeric a -> numeric b -> numeric_outcome (py_sub a b).
Proof. destruct a, b; simpl; try contradiction; intros _ _; numeric_cases. Qed.

Lemma py_mul_numeric (a b : pyval) :
  numeric a -> numeric b -> numeric_outcome (py_mul a b).
Proof. destruct a, b; simpl; try contradiction; intros _ _; numeric_cases. Qed.

Lemma py_truediv_numeric (a b : pyval) :
  numeric a -> numeric b -> numeric_outcome (py_truediv a b).
Proof. destruct a, b; simpl; try contradiction; intros _ _; numeric_cases. Qed.

Lemma numeric_outcome_bind (m : outcome pyval) (k : pyval -> outcome pyval) :
  numeric_outcome m -> (forall a, numeric a -> numeric_outcome (k a)) ->
  numeric_outcome (bind m k).
Proof.
  destruct m as [[| n | x | s] | [] |]; simpl; try contradiction; auto;
    intros _ H; apply H; exact I.
Qed.

Lemma visit_numeric (t : AST) :
  well_formed t = true -> numeric_outcome (visit t).
Proof.
  induction t as [l IHl op r IHr | tok]; cbn [well_formed visit].
  - intros H. apply andb_true_iff in H. destruct H as [H Hr].
    apply andb_true_iff in H. destruct H as [Hl Hop].
    specialize (IHl Hl). specialize (IHr Hr).
    unfold is_operator in Hop.
    destruct (type op); try discriminate Hop; cbn [TokenType_eqb];
      (apply numeric_outcome_bind; [exact IHl | intros a Ha]);
      (apply numeric_outcome_bind; [exact IHr | intros b Hb]).
    + apply py_add_numeric; assumption.
    + apply py_sub_numeric; assumption.
    + apply py_mul_numeric; assumption.
    + apply py_truediv_numeric; assumption.
  - unfold is_number, Num_value. destruct (type tok); try discriminate.
    destruct (value tok); try discriminate. intros _; exact I.
Qed.

(** * Which exception, and where *)

Lemma raises_only_bind {A B : Type} (P : exn -> Prop) (m : outcome A)
      (k : A -> outcome B) :
  raises_only P m -> (forall a, raises_only P (k a)) ->
  raises_only P (bind m k).
Proof.
  unfold raises_only. destruct m as [a | e' |]; simpl; intros Hm Hk e E.
  - exact (Hk a e E).
  - injection E as <-. apply Hm. reflexivity.
  - discriminate.
Qed.

Lemma raises_only_weaken {A : Type} (P Q : exn -> Prop) (r : outcome A) :
  (forall e, P e -> Q e) -> raises_only P r -> raises_only Q r.
Proof. unfold raises_only. auto. Qed.

Lemma raises_only_ok {A : Type} (P : exn -> Prop) (a : A) :
  raises_only P (Ok a).
Proof. intros e E; discriminate. Qed.

Lemma integer_loop_no_raise (fuel : nat) (acc : string) (l : Lexer) :
  raises_only (fun _ => False) (integer_loop fuel acc l).
Proof.
  revert acc l. induction fuel as [| fuel IH]; intros acc l e; simpl;
    destruct (current_char l) as [c |]; try destruct (isdigit c);
    try discriminate. apply IH.
Qed.

Lemma get_next_token_raises (fuel : nat) (l : Lexer) :
  raises_only lexer_exn (get_next_token fuel l).
Proof.
  revert l. induction fuel as [| fuel IH]; intros l; simpl;
    destruct (current_char l) as [c |]; try (intros e E; discriminate).
  destruct (isspace c).
  - apply raises_only_bind; [| intros l'; apply IH].
    intros e E. contradiction (skip_whitespace_no_raise fuel l e E).
  - destruct (isdigit c).
    + unfold integer. apply raises_only_bind.
      * apply raises_only_bind.
        -- intros e E. contradiction (integer_loop_no_raise fuel "" l e E).
        -- intros [s l']. apply raises_only_bind;
             [| intros n; apply raises_only_ok].
           intros e E.
           destruct (int_cases s) as [(n & En & _) | En]; rewrite En in E;
             [discriminate |].
           injection E as <-; right; reflexivity.
      * intros [n l']; apply raises_only_ok.
    + repeat match goal with
             | |- raises_only _ (if ?b then _ else _) => destruct b
             end; try apply raises_only_ok.
      intros e E; injection E as <-; left; reflexivity.
Qed.

Lemma lexer_exn_parser_exn (e : exn) : lexer_exn e -> parser_exn e.
Proof. unfold lexer_exn, parser_exn. tauto. Qed.

Lemma eat_raises (fuel : nat) (tt : TokenType) (p : Parser) :
  raises_only parser_exn (eat fuel tt p).
Proof.
  unfold eat. destruct (TokenType_eqb (type (current_token p)) tt).
  - apply raises_only_bind; [| intros [tok l']; apply raises_only_ok].
    apply (raises_only_weaken lexer_exn); [exact lexer_exn_parser_exn |].
    apply get_next_token_raises.
  - intros e E; injection E as <-. right; right; reflexivity.
Qed.

Section ProductionsRaise.
Variable f : nat.
Variable rec : Parser -> outcome (AST * Parser).
Hypothesis Hrec : forall q, raises_only parser_exn (rec q).

Lemma factor_body_raises (p : Parser) :
  raises_only parser_exn (factor_body f rec p).
Proof.
  unfold factor_body.
  destruct (TokenType_eqb (type (current_token p)) INTEGER).
  - apply raises_only_bind; [apply eat_raises |].
    intros p1; apply raises_only_ok.
  - destruct (TokenType_eqb (type (current_token p)) LPAREN).
    + apply raises_only_bind; [apply eat_raises | intros p1].
      apply raises_only_bind; [apply Hrec | intros [node p2]].
      apply raises_only_bind; [apply eat_raises | intros p3].
      apply raises_only_ok.
    + intros e E; injection E as <-. right; right; reflexivity.
Qed.

Lemma term_loop_raises (n : nat) (node : AST) (p : Parser) :
  raises_only parser_exn (term_loop f rec n node p).
Proof.
  revert node p. induction n as [| n IH]; intros node p; cbn [term_loop];
    destruct (TokenType_eqb (type (current_token p)) MUL
              || TokenType_eqb (type (current_token p)) DIV);
    try apply raises_only_ok; try (intros e E; discriminate).
  apply raises_only_bind.
  - repeat match goal with
           | |- raises_only _ (if ?b then _ else _) => destruct b
           end; try apply eat_raises; apply raises_only_ok.
  - intros p1. apply raises_only_bind; [apply factor_body_raises |].
    intros [r p2]; apply IH.
Qed.

Lemma term_body_raises (p : Parser) :
  raises_only parser_exn (term_body f rec p).
Proof.
  unfold term_body. apply raises_only_bind; [apply factor_body_raises |].
  intros [node p1]; apply term_loop_raises.
Qed.

Lemma expr_loop_raises (n : nat) (node : AST) (p : Parser) :
  raises_only parser_exn (expr_loop f rec n node p).
Proof.
  revert node p. induction n as [| n IH]; intros node p; cbn [expr_loop];
    destruct (TokenType_eqb (type (current_token p)) PLUS
              || TokenType_eqb (type (current_token p)) MINUS);
    try apply raises_only_ok; try (intros e E; discriminate).
  apply raises_only_bind.
  - repeat match goal with
           | |- raises_only _ (if ?b then _ else _) => destruct b
           end; try apply eat_raises; apply raises_only_ok.
  - intros p1. apply raises_only_bind; [apply term_body_raises |].
    intros [r p2]; apply IH.
Qed.

Lemma expr_body_raises (p : Parser) :
  raises_only parser_exn (expr_body f rec p).
Proof.
  unfold expr_body. apply raises_only_bind; [apply term_body_raises |].
  intros [node p1]; apply expr_loop_raises.
Qed.
End ProductionsRaise.

Lemma expr_raises (fuel : nat) (p : Parser) :
  raises_only parser_exn (expr fuel p).
Proof.
  revert p. induction fuel as [| fuel IH]; intros p; simpl;
    [intros e E; discriminate |].
  apply expr_body_raises. exact IH.
Qed.

Lemma Lexer_init_empty (txt : string) :
  (txt = "" /\ Lexer_init txt = Raise IndexError)
  \/ (txt <> "" /\ exists l, Lexer_init txt = Ok l).
Proof.
  destruct txt as [| c s]; [left; split; reflexivity |].
  right; split; [discriminate |]. eexists; reflexivity.
Qed.

Lemma parse_raises (fuel : nat) (txt : string) (e : exn) :
  parse fuel txt = Raise e ->
  (e = IndexError /\ txt = "") \/ (txt <> "" /\ parser_exn e).
Proof.
  unfold parse.
  destruct (Lexer_init_empty txt) as [[-> ->] | [Hne [l ->]]]; cbn [bind].
  - intros E; injection E as <-. left; split; reflexivity.
  - intros E. right; split; [exact Hne |]. revert e E.
    apply raises_only_bind; [| intros p; apply expr_raises].
    unfold Parser_init.
    apply raises_only_bind; [| intros [tok l']; apply raises_only_ok].
    apply (raises_only_weaken lexer_exn); [exact lexer_exn_parser_exn |].
    apply get_next_token_raises.
Qed.

(** X5. Whatever the line, evaluation returns an [int] or a [float], never
    [None] and never a string, and it never raises [TypeError]: the operands
    that reach [visit_BinOp] are always numbers. *)
Theorem X5_evaluation_is_numeric (fuel : nat) (txt : string) :
  (forall v, evaluate fuel txt = Ok v -> numeric v)
  /\ evaluate fuel txt <> Raise TypeError.
Proof.
  rewrite evaluate_as_parse.
  destruct (parse fuel txt) as [[t p'] | e |] eqn:E; cbn [bind fst].
  - pose proof (visit_numeric t (parse_well_formed fuel txt t p' E)) as H.
    split.
    + intros v Ev. rewrite Ev in H. destruct v; simpl in H; auto.
    + intros Ev. rewrite Ev in H. exact H.
  - split; [discriminate |]. intros Ev; injection Ev as ->.
    destruct (parse_raises fuel txt TypeError E)
      as [[H _] | [_ [H | [H | H]]]]; discriminate.
  - split; discriminate.
Qed.

(** X6. On a line of at most [max_line] characters, [IndexError] is raised
    on the empty line and on no other.  On a non-empty line parsing raises
    nothing but [LexicalError], [ValueError] and [ParsingError]; evaluation
    adds [ZeroDivisionError] and [OverflowError], and only for a line that
    has been parsed. *)
Theorem X6_which_exception (fuel : nat) (txt : string) (e : exn) :
  String.length txt <= max_line ->
  evaluate fuel txt = Raise e ->
  (e = IndexError /\ txt = "")
  \/ (txt <> "" /\ parser_exn e /\ parse fuel txt = Raise e)
  \/ (txt <> "" /\ (e = ZeroDivisionError \/ e = OverflowError)
      /\ exists t p', parse fuel txt = Ok (t, p') /\ visit t = Raise e).
Proof.
  intros _. rewrite evaluate_as_parse.
  destruct (parse fuel txt) as [[t p'] | e' |] eqn:E; cbn [bind fst];
    [| | discriminate].
  - intros Ev. right; right.
    pose proof (visit_numeric t (parse_well_formed fuel txt t p' E)) as H.
    rewrite Ev in H. split; [| split].
    + intros ->. discriminate E.
    + destruct e; simpl in H; try contradiction; auto.
    + exists t, p'. split; [reflexivity | exact Ev].
  - intros Ev; injection Ev as ->.
    destruct (parse_raises fuel txt e E) as [H | [Hne H]];
      [left; exact H | right; left; auto].
Qed.

Lemma X6_which_exception_witness :
  exists t p', parse 5 "1/0" = Ok (t, p') /\ visit t = Raise ZeroDivisionError.
Proof.
  assert (L : String.length "1/0" <= max_line)
    by (apply Nat.leb_le; reflexivity).
  destruct (X6_which_exception 5 "1/0" ZeroDivisionError L eq_refl)
    as [[H _] | [(_ & [H | [H | H]] & _) | (_ & _ & H)]];
    try discriminate H.
  exact H.
Defined.

(** * The lexer on the unread text *)

Lemma drop_head (k : nat) (txt : string) (c : ascii) (s : string) :
  drop k txt = String c s -> String.get k txt = Some c.
Proof. intros H. rewrite get_drop, H. reflexivity. Qed.

Lemma drop_end (k : nat) (txt : string) :
  drop k txt = "" -> String.get k txt = None.
Proof. intros H. rewrite get_drop, H. reflexivity. Qed.

Lemma skip_spaces_length (s : string) :
  String.length (skip_spaces s) <= String.length s.
Proof.
  induction s as [| c s IH]; simpl; [lia |].
  destruct (isspace c); simpl; lia.
Qed.

Lemma skip_spaces_nonspace (s : string) :
  match skip_spaces s with
  | String c _ => isspace c = false
  | EmptyString => True
  end.
Proof.
  induction s as [| c s IH]; simpl; [exact I |].
  destruct (isspace c) eqn:E; [exact IH | exact E].
Qed.

Lemma skip_whitespace_at (txt : string) (s : string) :
  forall k fuel,
    drop k txt = s -> String.length s <= fuel ->
    exists k',
      skip_whitespace fuel (at_pos txt k) = Ok (at_pos txt k')
      /\ drop k' txt = skip_spaces s /\ k <= k'.
Proof.
  induction s as [| c s IH]; intros k fuel Hd Hf.
  - exists k. split; [| split; [exact Hd | lia]].
    destruct fuel; simpl; rewrite (drop_end k txt Hd); reflexivity.
  - cbn [skip_spaces]. destruct (isspace c) eqn:Hs.
    + simpl in Hf. destruct fuel as [| fuel]; [lia |].
      cbn [skip_whitespace]. cbn [current_char at_pos].
      rewrite (drop_head k txt c s Hd), Hs, advance_at.
      destruct (IH (S k) fuel (drop_S k txt c s Hd) ltac:(lia))
        as (k' & E & D & L).
      exists k'. split; [exact E | split; [exact D | lia]].
    + exists k. split; [| split; [exact Hd | lia]].
      destruct fuel; simpl; rewrite (drop_head k txt c s Hd), Hs;
        reflexivity.
Qed.

Lemma span_digits_length (s : string) :
  String.length (fst (span_digits s)) + String.length (snd (span_digits s))
  = String.length s.
Proof.
  induction s as [| c s IH]; simpl; [reflexivity |].
  destruct (isdigit c); [| reflexivity].
  destruct (span_digits s) as [ds rest]; simpl in *. lia.
Qed.

Lemma integer_loop_at (txt : string) (s : string) :
  forall k acc fuel,
    drop k txt = s -> String.length s <= fuel ->
    exists k',
      integer_loop fuel acc (at_pos txt k)
      = Ok (acc ++ fst (span_digits s), at_pos txt k')
      /\ drop k' txt = snd (span_digits s) /\ k <= k'.
Proof.
  induction s as [| c s IH]; intros k acc fuel Hd Hf.
  - exists k. simpl. rewrite append_empty_r.
    split; [| split; [exact Hd | lia]].
    destruct fuel; simpl; rewrite (drop_end k txt Hd); reflexivity.
  - cbn [span_digits]. destruct (isdigit c) eqn:Hc.
    + simpl in Hf. destruct fuel as [| fuel]; [lia |].
      cbn [integer_loop]. cbn [current_char at_pos].
      rewrite (drop_head k txt c s Hd), Hc, advance_at.
      destruct (IH (S k) (acc ++ String c "") fuel (drop_S k txt c s Hd)
                   ltac:(lia)) as (k' & E & D & L).
      exists k'. destruct (span_digits s) as [ds rest]. cbn [fst snd] in *.
      rewrite E, append_snoc. split; [reflexivity | split; [exact D | lia]].
    + exists k. cbn [fst snd]. rewrite append_empty_r.
      split; [| split; [exact Hd | lia]].
      destruct fuel; simpl; rewrite (drop_head k txt c s Hd), Hc;
        reflexivity.
Qed.

Lemma get_next_token_at_nonspace (txt : string) (k fuel : nat) (s : string) :
  drop k txt = s -> skip_spaces s = s -> String.length s + 1 <= fuel ->
  token_at txt fuel k (next_token s).
Proof.
  intros Hd Hs Hf. unfold next_token. rewrite Hs.
  destruct s as [| c s'].
  - exists k. split; [| split; [exact Hd | lia]].
    destruct fuel; simpl; rewrite (drop_end k txt Hd); reflexivity.
  - pose proof (skip_spaces_nonspace (String c s')) as Hn.
    rewrite Hs in Hn. destruct fuel as [| fuel]; [lia |].
    simpl in Hf.
    assert (Hg : get_next_token (S fuel) (at_pos txt k)
                 = if isdigit c then
                     '(n, l') <- integer fuel (at_pos txt k) ;;
                     Ok (mkToken INTEGER (PyInt n), l')
                   else if (c =? "+")%char
                        then Ok (mkToken PLUS (PyStr "+"), at_pos txt (S k))
                   else if (c =? "-")%char
                        then Ok (mkToken MINUS (PyStr "-"), at_pos txt (S k))
                   else if (c =? "*")%char
                        then Ok (mkToken MUL (PyStr "*"), at_pos txt (S k))
                   else if (c =? "/")%char
                        then Ok (mkToken DIV (PyStr "/"), at_pos txt (S k))
                   else if (c =? "(")%char
                        then Ok (mkToken LPAREN (PyStr "("), at_pos txt (S k))
                   else if (c =? ")")%char
                        then Ok (mkToken RPAREN (PyStr ")"), at_pos txt (S k))
                   else Raise LexicalError).
    { cbn [get_next_token]. cbn [current_char at_pos].
      rewrite (drop_head k txt c s' Hd), Hn, advance_at. reflexivity. }
    destruct (isdigit c) eqn:Hc.
    + destruct (integer_loop_at txt (String c s') k "" fuel Hd ltac:(simpl; lia))
        as (k' & E & D & L).
      destruct (span_digits (String c s')) as [ds rest]. cbn [fst snd] in *.
      unfold token_at. rewrite Hg. unfold integer. rewrite E. cbn [bind append].
      destruct (int ds) as [n | e |] eqn:Ei; cbn [bind].
      * exists k'. auto.
      * reflexivity.
      * contradiction (int_total ds Ei).
    + pose proof (drop_S k txt c s' Hd) as D.
      unfold token_at. rewrite Hg.
      repeat match goal with
             | |- context [if ?b then _ else _] => destruct b
             end; try reflexivity; exists (S k); auto.
Qed.

Lemma get_next_token_at (txt : string) (k fuel : nat) :
  String.length (drop k txt) + 1 <= fuel ->
  token_at txt fuel k (next_token (drop k txt)).
Proof.
  intros Hf. remember (drop k txt) as s eqn:Hd. symmetry in Hd.
  destruct s as [| c s'].
  - apply get_next_token_at_nonspace; auto.
  - destruct (isspace c) eqn:Hs.
    + simpl in Hf. destruct fuel as [| fuel]; [lia |].
      destruct (skip_whitespace_at txt (String c s') k fuel Hd
                  ltac:(simpl; lia)) as (k1 & E1 & D1 & L1).
      pose proof (skip_spaces_length s') as Hlen.
      cbn [skip_spaces] in D1. rewrite Hs in D1.
      assert (Hnt : next_token (String c s') = next_token (skip_spaces s')).
      { unfold next_token. cbn [skip_spaces]. rewrite Hs.
        replace (skip_spaces (skip_spaces s')) with (skip_spaces s');
          [reflexivity |].
        pose proof (skip_spaces_nonspace s') as Hn.
        destruct (skip_spaces s') as [| d t]; [reflexivity |].
        simpl. rewrite Hn. reflexivity. }
      rewrite Hnt.
      assert (Hidem : skip_spaces (skip_spaces s') = skip_spaces s').
      { pose proof (skip_spaces_nonspace s') as Hn.
        destruct (skip_spaces s') as [| d t]; [reflexivity |].
        simpl. rewrite Hn. reflexivity. }
      pose proof (get_next_token_at_nonspace txt k1 fuel (skip_spaces s')
                    D1 Hidem ltac:(lia)) as H.
      assert (Hg : get_next_token (S fuel) (at_pos txt k)
                   = get_next_token fuel (at_pos txt k1)).
      { cbn [get_next_token]. cbn [current_char at_pos].
        rewrite (drop_head k txt c s' Hd), Hs. fold (at_pos txt k).
        rewrite E1. reflexivity. }
      unfold token_at in *. rewrite Hg.
      destruct (next_token (skip_spaces s')) as [[tok rest] | e |]; auto.
      destruct H as (k' & E & D & L). exists k'. split; [exact E |].
      split; [exact D | lia].
    + apply get_next_token_at_nonspace; auto.
      simpl. rewrite Hs. reflexivity.
Qed.

(** * Decimal literals *)

Lemma string_of_uint_decimal (u : Decimal.uint) :
  all_chars is_decimal (DecimalString.NilEmpty.string_of_uint u) = true.
Proof. induction u; simpl; auto. Qed.

Ltac digit_value :=
  match goal with
  | |- context [decimal_value ?c] =>
      let v := eval vm_compute in (decimal_value c) in
      change (decimal_value c) with v; cbv iota beta
  end.

Lemma int_digits_of_uint_acc (u : Decimal.uint) (acc : positive) :
  int_digits (Zpos acc) (DecimalString.NilEmpty.string_of_uint u)
  = Some (Zpos (Pos.of_uint_acc u acc)).
Proof.
  revert acc. induction u; intros acc;
    cbn [DecimalString.NilEmpty.string_of_uint int_digits Pos.of_uint_acc];
    [reflexivity | ..]; digit_value;
    match goal with
    | |- int_digits ?z _ = Some (Zpos (Pos.of_uint_acc _ ?a)) =>
        replace z with (Zpos a) by lia
    end; apply IHu.
Qed.

Lemma int_digits_of_uint (u : Decimal.uint) :
  int_digits 0 (DecimalString.NilEmpty.string_of_uint u)
  = Some (Z.of_uint u).
Proof.
  unfold Z.of_uint.
  induction u;
    cbn [DecimalString.NilEmpty.string_of_uint int_digits Pos.of_uint];
    [reflexivity | digit_value; exact IHu | ..]; digit_value;
    match goal with
    | |- int_digits ?z _ = Some (Z.of_N (N.pos (Pos.of_uint_acc _ ?a))) =>
        change z with (Zpos a)
    end; apply int_digits_of_uint_acc.
Qed.

Lemma str_int_decimal (n : Z) :
  (0 <= n)%Z ->
  str_int n <> "" /\ all_chars is_decimal (str_int n) = true
  /\ int_digits 0 (str_int n) = Some n.
Proof.
  intros Hn. unfold str_int.
  pose proof (DecimalZ.of_to n) as Hz.
  destruct (Z.to_int n) as [u | u] eqn:Eu.
  - cbn [DecimalString.NilZero.string_of_int]. simpl in Hz.
    assert (H : DecimalString.NilZero.string_of_uint u <> ""
                /\ all_chars is_decimal
                     (DecimalString.NilZero.string_of_uint u) = true
                /\ int_digits 0 (DecimalString.NilZero.string_of_uint u)
                   = Some (Z.of_uint u)).
    { unfold DecimalString.NilZero.string_of_uint.
      destruct u; try (split; [discriminate |
                               split; [apply string_of_uint_decimal
                                      | apply int_digits_of_uint]]).
      split; [discriminate | split; reflexivity]. }
    rewrite Hz in H. exact H.
  - exfalso. destruct n; simpl in Eu; try discriminate. lia.
Qed.

Lemma str_int_literal (n : Z) :
  (0 <= n)%Z ->
  (Z.of_nat (String.length (str_int n)) <= int_max_str_digits)%Z ->
  literal (str_int n) /\ int_digits 0 (str_int n) = Some n.
Proof.
  intros Hn Hc. destruct (str_int_decimal n Hn) as (H1 & H2 & H3).
  split; [split; [exact H1 | split; [exact H2 | exact Hc]] | exact H3].
Qed.

Lemma span_digits_app (ds rest : string) :
  all_chars isdigit ds = true -> starts_nondigit rest ->
  span_digits (ds ++ rest) = (ds, rest).
Proof.
  intros Hd Hr. induction ds as [| d ds IH]; simpl.
  - destruct rest as [| c rest]; [reflexivity |].
    simpl in Hr. simpl. rewrite Hr. reflexivity.
  - simpl in Hd. apply andb_true_iff in Hd. destruct Hd as [H1 H2].
    rewrite H1, (IH H2). reflexivity.
Qed.

Lemma all_decimal_isdigit (ds : string) :
  all_chars is_decimal ds = true -> all_chars isdigit ds = true.
Proof.
  induction ds as [| d ds IH]; simpl; [reflexivity |].
  intros H. apply andb_true_iff in H. destruct H as [H1 H2].
  rewrite (is_decimal_isdigit d H1), (IH H2). reflexivity.
Qed.

Lemma next_token_literal (ds rest : string) :
  literal ds -> starts_nondigit rest ->
  next_token (ds ++ rest) = Ok (number ds, rest).
Proof.
  intros Hlit Hr. pose proof Hlit as (Hne & Hd & _).
  destruct ds as [| d ds]; [contradiction Hne; reflexivity |].
  assert (H1 : is_decimal d = true)
    by (simpl in Hd; apply andb_true_iff in Hd; tauto).
  unfold next_token. cbn [append skip_spaces].
  rewrite (is_decimal_isspace d H1), (is_decimal_isdigit d H1).
  change (String d (ds ++ rest)) with (String d ds ++ rest).
  rewrite (span_digits_app _ rest (all_decimal_isdigit _ Hd) Hr).
  pose proof (int_number (String d ds) Hlit) as Hi.
  destruct (int (String d ds)) as [n | e |]; cbn [bind] in *;
    try discriminate Hi.
  assert (Hn : mkToken INTEGER (PyInt n) = number (String d ds))
    by congruence.
  rewrite Hn. reflexivity.
Qed.

Lemma next_token_str_int (n : Z) (rest : string) :
  (0 <= n)%Z ->
  (Z.of_nat (String.length (str_int n)) <= int_max_str_digits)%Z ->
  starts_nondigit rest ->
  next_token (str_int n ++ rest) = Ok (mkToken INTEGER (PyInt n), rest).
Proof.
  intros Hn Hc Hr. destruct (str_int_literal n Hn Hc) as [Hl Hv].
  rewrite (next_token_literal _ rest Hl Hr).
  unfold number, literal_value. rewrite Hv. reflexivity.
Qed.

(** * The parser on the unread text *)

Lemma returns_bind {A B : Type} (m : outcome A) (k : A -> outcome B)
      (Q : A -> Prop) (R : B -> Prop) :
  returns m Q -> (forall a, Q a -> returns (k a) R) -> returns (bind m k) R.
Proof.
  unfold returns. intros Hm Hk Hn.
  destruct m as [a | e |]; cbn [bind] in *.
  - destruct (Hm ltac:(discriminate)) as (a' & E & Ha).
    injection E as <-. exact (Hk a Ha Hn).
  - destruct (Hm ltac:(discriminate)) as (a' & E & _). discriminate.
  - contradiction Hn; reflexivity.
Qed.

Lemma returns_ok {A : Type} (a : A) (Q : A -> Prop) : Q a -> returns (Ok a) Q.
Proof. intros H _. exists a; auto. Qed.

Lemma returns_oof {A : Type} (Q : A -> Prop) : returns OutOfFuel Q.
Proof. intros H; contradiction H; reflexivity. Qed.

Lemma returns_weaken {A : Type} (r : outcome A) (Q R : A -> Prop) :
  returns r Q -> (forall a, Q a -> R a) -> returns r R.
Proof.
  intros H HQ Hn. destruct (H Hn) as (a & E & Ha). exists a; auto.
Qed.

Lemma get_next_token_pure (txt : string) (k fuel : nat) :
  get_next_token fuel (at_pos txt k) <> OutOfFuel ->
  token_at txt fuel k (next_token (drop k txt)).
Proof.
  intros Hn. set (F := String.length (drop k txt) + 1 + fuel).
  pose proof (get_next_token_at txt k F ltac:(unfold F; lia)) as H.
  pose proof (get_next_token_mono fuel F (at_pos txt k)
                ltac:(unfold F; lia) Hn) as Hm.
  unfold token_at in *. rewrite Hm in H. exact H.
Qed.

Lemma eat_returns (fuel : nat) (txt : string) (p : Parser) (tok : Token)
      (rest : string) (tok' : Token) (rest' : string) :
  stands txt p tok rest -> next_token rest = Ok (tok', rest') ->
  returns (eat fuel (type tok) p) (fun p' => stands txt p' tok' rest').
Proof.
  intros (Ht & k & Hl & Hd) Hnt. unfold eat.
  rewrite Ht, TokenType_eqb_refl, Hl. intros Hn.
  assert (Hg : get_next_token fuel (at_pos txt k) <> OutOfFuel).
  { intros E. rewrite E in Hn. contradiction Hn; reflexivity. }
  pose proof (get_next_token_pure txt k fuel Hg) as H.
  rewrite Hd, Hnt in H. destruct H as (k' & E & D & _).
  rewrite E. cbn [bind]. eexists; split; [reflexivity |].
  split; [reflexivity |]. exists k'. auto.
Qed.

Lemma eat_raises_pure (fuel : nat) (txt : string) (p : Parser) (tok : Token)
      (rest : string) (e : exn) :
  stands txt p tok rest -> next_token rest = Raise e ->
  eat fuel (type tok) p <> OutOfFuel -> eat fuel (type tok) p = Raise e.
Proof.
  intros (Ht & k & Hl & Hd) Hnt. unfold eat.
  rewrite Ht, TokenType_eqb_refl, Hl. intros Hn.
  assert (Hg : get_next_token fuel (at_pos txt k) <> OutOfFuel).
  { intros E. rewrite E in Hn. contradiction Hn; reflexivity. }
  pose proof (get_next_token_pure txt k fuel Hg) as H.
  rewrite Hd, Hnt in H. unfold token_at in H. rewrite H. reflexivity.
Qed.

Lemma Lexer_init_at (txt : string) :
  txt <> "" -> Lexer_init txt = Ok (at_pos txt 0).
Proof. destruct txt; [intros H; contradiction H |]; reflexivity. Qed.

Lemma Parser_init_returns (fuel : nat) (txt : string) (tok : Token)
      (rest : string) :
  next_token txt = Ok (tok, rest) ->
  returns (Parser_init fuel (at_pos txt 0)) (fun p => stands txt p tok rest).
Proof.
  intros Hnt Hn. unfold Parser_init in *.
  assert (Hg : get_next_token fuel (at_pos txt 0) <> OutOfFuel).
  { intros E. rewrite E in Hn. contradiction Hn; reflexivity. }
  pose proof (get_next_token_pure txt 0 fuel Hg) as H.
  change (drop 0 txt) with txt in H. rewrite Hnt in H.
  destruct H as (k' & E & D & _). rewrite E. cbn [bind].
  eexists; split; [reflexivity |]. split; [reflexivity |]. exists k'. auto.
Qed.

(** * From a tree to its line and back *)

Lemma number_token_eq (tok : Token) :
  is_number tok = true ->
  exists n, tok = mkToken INTEGER (PyInt n) /\ (0 <= n)%Z.
Proof.
  destruct tok as [t v]. unfold is_number; simpl.
  destruct t; try discriminate. destruct v; try discriminate.
  intros H. exists n. split; [reflexivity | apply Z.leb_le; exact H].
Qed.

Lemma operator_token_eq (op : Token) :
  is_operator op = true ->
  op = operator_token (operator_char (type op))
  /\ In (operator_char (type op)) ["+"; "-"; "*"; "/"]%char.
Proof.
  destruct op as [t v]. unfold is_operator; simpl.
  destruct t; try discriminate; destruct v; try discriminate;
    intros H; apply String.eqb_eq in H; subst; simpl; auto 6.
Qed.

Lemma next_token_operator (o : ascii) (rest : string) :
  In o ["+"; "-"; "*"; "/"]%char ->
  next_token (String o rest) = Ok (operator_token o, rest).
Proof.
  simpl. intros [<- | [<- | [<- | [<- | []]]]]; reflexivity.
Qed.

Lemma max_line_digits (n : nat) :
  n <= max_line -> (Z.of_nat n <= int_max_str_digits)%Z.
Proof. unfold max_line, int_max_str_digits. lia. Qed.

Lemma longest_number_render (t : AST) :
  longest_number t <= String.length (render t).
Proof.
  induction t as [l IHl op r IHr | tok]; cbn [longest_number render].
  - cbn [String.length]. rewrite length_app. cbn [String.length].
    rewrite length_app. lia.
  - destruct (value tok); cbn [String.length]; lia.
Qed.

Lemma render_first (t : AST) (rest : string) :
  well_formed t = true ->
  (Z.of_nat (longest_number t) <= int_max_str_digits)%Z ->
  starts_nondigit rest ->
  exists tok s, next_token (render t ++ rest) = Ok (tok, s).
Proof.
  destruct t as [l op r | tok]; cbn [well_formed render]; intros Hw Hc Hr.
  - do 2 eexists. reflexivity.
  - destruct (number_token_eq tok Hw) as (n & -> & Hn).
    cbn [value longest_number] in *.
    rewrite (next_token_str_int n rest Hn Hc Hr). eauto.
Qed.

Lemma render_nonempty (t : AST) : well_formed t = true -> render t <> "".
Proof.
  destruct t as [l op r | tok]; cbn [well_formed render]; intros Hw;
    [discriminate |].
  destruct (number_token_eq tok Hw) as (n & -> & Hn). cbn [value].
  exact (proj1 (str_int_decimal n Hn)).
Qed.

Lemma stands_token (txt : string) (p : Parser) (tok : Token) (s : string) :
  stands txt p tok s -> current_token p = tok.
Proof. intros [H _]; exact H. Qed.

Lemma term_single (f : nat) (txt : string) (p : Parser) (a : AST)
      (tok : Token) (s : string) :
  returns (factor f p) (gives txt a tok s) ->
  multiplicative (type tok) = false ->
  returns (term f p) (gives txt a tok s).
Proof.
  intros Hf Hm. unfold term, term_body. eapply returns_bind; [exact Hf |].
  intros [n p1] [Hn Hp]. cbn [fst snd] in *. subst n.
  rewrite term_loop_exit by (rewrite (stands_token _ _ _ _ Hp); exact Hm).
  apply returns_ok. split; auto.
Qed.

Lemma term_pair (f : nat) (txt : string) (p : Parser) (a b : AST)
      (op : Token) (s1 : string) (tb : Token) (sb : string) (tok : Token)
      (s : string) :
  returns (factor f p) (gives txt a op s1) ->
  multiplicative (type op) = true ->
  next_token s1 = Ok (tb, sb) ->
  (forall p3, stands txt p3 tb sb ->
              returns (factor f p3) (gives txt b tok s)) ->
  multiplicative (type tok) = false ->
  returns (term f p) (gives txt (BinOp a op b) tok s).
Proof.
  intros Hf Hm Hnt Hb Hm'. unfold term, term_body.
  eapply returns_bind; [exact Hf |].
  intros [n p1] [Hn Hp]. cbn [fst snd] in *. subst n.
  pose proof (stands_token _ _ _ _ Hp) as Hc.
  destruct f as [| n].
  { cbn [term_loop]. rewrite Hc. unfold multiplicative in Hm. rewrite Hm.
    apply returns_oof. }
  rewrite (term_loop_step (S n) (expr (S n)) (S n) a p1 ltac:(lia))
    by (rewrite Hc; exact Hm).
  rewrite Hc.
  eapply returns_bind; [exact (eat_returns (S n) txt p1 _ _ tb sb Hp Hnt) |].
  intros p3 Hp3. cbn beta.
  eapply returns_bind; [exact (Hb p3 Hp3) |].
  intros [nb p4] [Hnb Hp4]. cbn [fst snd] in *. subst nb.
  rewrite term_loop_exit by (rewrite (stands_token _ _ _ _ Hp4); exact Hm').
  apply returns_ok. split; auto.
Qed.

Lemma expr_single (f : nat) (txt : string) (p : Parser) (a : AST)
      (tok : Token) (s : string) :
  returns (term f p) (gives txt a tok s) ->
  additive (type tok) = false ->
  returns (expr (S f) p) (gives txt a tok s).
Proof.
  intros Hf Hm. cbn [expr]. unfold expr_body.
  eapply returns_bind; [exact Hf |].
  intros [n p1] [Hn Hp]. cbn [fst snd] in *. subst n.
  rewrite expr_loop_exit by (rewrite (stands_token _ _ _ _ Hp); exact Hm).
  apply returns_ok. split; auto.
Qed.

Lemma expr_pair (f : nat) (txt : string) (p : Parser) (a b : AST)
      (op : Token) (s1 : string) (tb : Token) (sb : string) (tok : Token)
      (s : string) :
  returns (term f p) (gives txt a op s1) ->
  additive (type op) = true ->
  next_token s1 = Ok (tb, sb) ->
  (forall p3, stands txt p3 tb sb ->
              returns (term f p3) (gives txt b tok s)) ->
  additive (type tok) = false ->
  returns (expr (S f) p) (gives txt (BinOp a op b) tok s).
Proof.
  intros Hf Hm Hnt Hb Hm'. cbn [expr]. unfold expr_body.
  eapply returns_bind; [exact Hf |].
  intros [n p1] [Hn Hp]. cbn [fst snd] in *. subst n.
  pose proof (stands_token _ _ _ _ Hp) as Hc.
  destruct f as [| n].
  { cbn [expr_loop]. rewrite Hc. unfold additive in Hm. rewrite Hm.
    apply returns_oof. }
  rewrite (expr_loop_step (S n) (expr (S n)) (S n) a p1 ltac:(lia))
    by (rewrite Hc; exact Hm).
  rewrite Hc.
  eapply returns_bind; [exact (eat_returns (S n) txt p1 _ _ tb sb Hp Hnt) |].
  intros p3 Hp3. cbn beta.
  eapply returns_bind; [exact (Hb p3 Hp3) |].
  intros [nb p4] [Hnb Hp4]. cbn [fst snd] in *. subst nb.
  rewrite expr_loop_exit by (rewrite (stands_token _ _ _ _ Hp4); exact Hm').
  apply returns_ok. split; auto.
Qed.

Lemma factor_number_returns (fuel : nat) (txt : string) (p : Parser) (n : Z)
      (s : string) (tok' : Token) (s' : string) :
  stands txt p (mkToken INTEGER (PyInt n)) s ->
  next_token s = Ok (tok', s') ->
  returns (factor fuel p)
          (gives txt (Num (mkToken INTEGER (PyInt n))) tok' s').
Proof.
  intros Hst Hnt. pose proof (stands_token _ _ _ _ Hst) as Hp.
  unfold factor, factor_body. rewrite Hp. cbn [type TokenType_eqb].
  change INTEGER with (type (mkToken INTEGER (PyInt n))) at 1.
  eapply returns_bind; [exact (eat_returns fuel txt p _ _ tok' s' Hst Hnt) |].
  intros p1 Hp1. apply returns_ok. split; auto.
Qed.

Lemma factor_parenthesis (fuel : nat) (txt : string) (p : Parser)
      (s : string) (t1 : Token) (s1 : string) (a : AST) (s2 : string)
      (tok' : Token) (s' : string) :
  stands txt p (mkToken LPAREN (PyStr "(")) s ->
  next_token s = Ok (t1, s1) ->
  (forall p1, stands txt p1 t1 s1 ->
              returns (expr fuel p1)
                      (gives txt a (mkToken RPAREN (PyStr ")")) s2)) ->
  next_token s2 = Ok (tok', s') ->
  returns (factor fuel p) (gives txt a tok' s').
Proof.
  intros Hst Hnt He Hnt2. pose proof (stands_token _ _ _ _ Hst) as Hp.
  unfold factor, factor_body. rewrite Hp. cbn [type TokenType_eqb].
  change LPAREN with (type (mkToken LPAREN (PyStr "("))) at 1.
  eapply returns_bind; [exact (eat_returns fuel txt p _ _ t1 s1 Hst Hnt) |].
  intros p1 Hp1. cbn beta.
  eapply returns_bind; [exact (He p1 Hp1) |].
  intros [node p4] [Hnode Hp4]. cbn [fst snd] in *. subst node.
  change RPAREN with (type (mkToken RPAREN (PyStr ")"))).
  eapply returns_bind; [exact (eat_returns fuel txt p4 _ _ tok' s' Hp4 Hnt2) |].
  intros p5 Hp5. apply returns_ok. split; auto.
Qed.

Lemma render_split (x y rest : string) (o : ascii) :
  (x ++ String o (y ++ ")")) ++ rest = x ++ String o (y ++ String ")" rest).
Proof.
  induction x as [| c x IH]; simpl; [| rewrite IH; reflexivity].
  f_equal. induction y as [| c y IH]; simpl; [| rewrite IH]; reflexivity.
Qed.

Lemma factor_render (t : AST) :
  well_formed t = true ->
  (Z.of_nat (longest_number t) <= int_max_str_digits)%Z ->
  forall fuel txt p tok s rest tok' s',
    starts_nondigit rest -> next_token rest = Ok (tok', s') ->
    next_token (render t ++ rest) = Ok (tok, s) ->
    stands txt p tok s ->
    returns (factor fuel p) (gives txt t tok' s').
Proof.
  induction t as [l IHl op r IHr | tk]; cbn [well_formed render];
    intros Hw Hcap fuel txt p tok s rest tok' s' Hr Hnt Hfirst Hst.
  - apply andb_true_iff in Hw. destruct Hw as [Hw Hwr].
    apply andb_true_iff in Hw. destruct Hw as [Hwl Hop].
    cbn [longest_number] in Hcap.
    assert (Hcl : (Z.of_nat (longest_number l) <= int_max_str_digits)%Z)
      by lia.
    assert (Hcr : (Z.of_nat (longest_number r) <= int_max_str_digits)%Z)
      by lia.
    specialize (IHl Hwl Hcl). specialize (IHr Hwr Hcr).
    destruct (operator_token_eq op Hop) as [Eop Hin].
    set (o := operator_char (type op)) in *.
    cbn [append] in Hfirst. rewrite render_split in Hfirst.
    set (rest_r := String ")" rest) in *.
    set (rest_l := String o (render r ++ rest_r)) in *.
    assert (E1 : next_token (String "(" (render l ++ rest_l))
                 = Ok (mkToken LPAREN (PyStr "("), render l ++ rest_l))
      by reflexivity.
    rewrite E1 in Hfirst. injection Hfirst as <- <-.
    assert (Hrr : starts_nondigit rest_r) by reflexivity.
    assert (Hrl : starts_nondigit rest_l).
    { unfold rest_l. simpl. simpl in Hin.
      destruct Hin as [<- | [<- | [<- | [<- | []]]]]; reflexivity. }
    assert (Hntr : next_token rest_r = Ok (mkToken RPAREN (PyStr ")"), rest))
      by reflexivity.
    assert (Hntl : next_token rest_l = Ok (op, render r ++ rest_r)).
    { unfold rest_l. rewrite (next_token_operator o _ Hin), <- Eop.
      reflexivity. }
    destruct (render_first l rest_l Hwl Hcl Hrl) as (tl & sl & Hfl).
    destruct (render_first r rest_r Hwr Hcr Hrr) as (tr & sr & Hfr).
    apply (factor_parenthesis fuel txt p _ tl sl (BinOp l op r) rest tok' s'
             Hst Hfl); [| exact Hnt].
    intros p1 Hp1. destruct fuel as [| f]; [apply returns_oof |].
    destruct (multiplicative (type op)) eqn:Hm.
    + apply expr_single; [| reflexivity].
      apply (term_pair f txt p1 l r op _ tr sr _ rest
               (IHl f txt p1 tl sl rest_l op _ Hrl Hntl Hfl Hp1)
               Hm Hfr); [| reflexivity].
      intros p3 Hp3.
      exact (IHr f txt p3 tr sr rest_r _ _ Hrr Hntr Hfr Hp3).
    + assert (Ha : additive (type op) = true).
      { rewrite Eop in Hm |- *. fold o in Hm |- *. simpl in Hin.
        destruct Hin as [<- | [<- | [<- | [<- | []]]]];
          try reflexivity; discriminate Hm. }
      apply (expr_pair f txt p1 l r op (render r ++ rest_r) tr sr
               (mkToken RPAREN (PyStr ")")) rest); auto.
      * apply term_single; [| exact Hm].
        exact (IHl f txt p1 tl sl rest_l op _ Hrl Hntl Hfl Hp1).
      * intros p3 Hp3. apply term_single; [| reflexivity].
        exact (IHr f txt p3 tr sr rest_r _ _ Hrr Hntr Hfr Hp3).
  - destruct (number_token_eq tk Hw) as (n & -> & Hn).
    cbn [value longest_number] in *.
    rewrite (next_token_str_int n rest Hn Hcap Hr) in Hfirst.
    injection Hfirst as <- <-.
    exact (factor_number_returns fuel txt p n rest tok' s' Hst Hnt).
Qed.

Lemma parse_render (t : AST) (fuel : nat) :
  well_formed t = true ->
  (Z.of_nat (longest_number t) <= int_max_str_digits)%Z ->
  returns (parse fuel (render t)) (gives (render t) t EOF_token "").
Proof.
  intros Hw Hcap. pose proof (render_nonempty t Hw) as Hne.
  destruct (render_first t "" Hw Hcap I) as (tok & s & Hfirst).
  unfold parse. rewrite (Lexer_init_at _ Hne). cbn [bind].
  eapply returns_bind.
  { apply (Parser_init_returns fuel (render t) tok s).
    rewrite append_empty_r in Hfirst. exact Hfirst. }
  intros p Hp. cbn beta. destruct fuel as [| f]; [apply returns_oof |].
  apply expr_single; [| reflexivity].
  apply term_single; [| reflexivity].
  exact (factor_render t Hw Hcap f (render t) p tok s "" EOF_token ""
           I eq_refl Hfirst Hp).
Qed.

(** X7. Parsing undoes writing: a tree of the shape the parser builds,
    written as a line with every operation in parentheses, parses back to
    that very tree with nothing left over, and the line evaluates to what
    the tree evaluates to, when the line has at most [max_line] characters.
    With X2, the trees the parser can return are exactly the trees of that
    shape. *)
Theorem X7_parse_render (t : AST) (fuel : nat) :
  well_formed t = true -> String.length (render t) <= max_line ->
  fuel_bound (render t) <= fuel ->
  (exists p', parse fuel (render t) = Ok (t, p')
              /\ current_token p' = EOF_token)
  /\ evaluate fuel (render t) = visit t.
Proof.
  intros Hw Hlen Hf.
  assert (Hcap : (Z.of_nat (longest_number t) <= int_max_str_digits)%Z).
  { apply max_line_digits. pose proof (longest_number_render t). lia. }
  destruct (parse_render t fuel Hw Hcap (parse_ends fuel _ Hf))
    as ([t' p'] & E & Ht & Hp).
  cbn [fst snd] in *. subst t'.
  split; [exists p'; split; [exact E | apply Hp] |].
  rewrite evaluate_as_parse, E. reflexivity.
Qed.

Lemma X7_parse_render_witness :
  evaluate 11 "(1+(2*3))"
  = visit (BinOp (Num (mkToken INTEGER (PyInt 1)))
                 (mkToken PLUS (PyStr "+"))
                 (BinOp (Num (mkToken INTEGER (PyInt 2)))
                        (mkToken MUL (PyStr "*"))
                        (Num (mkToken INTEGER (PyInt 3))))).
Proof.
  assert (Hf : fuel_bound "(1+(2*3))" <= 11) by (vm_compute; apply le_n).
  assert (Hl : String.length "(1+(2*3))" <= max_line)
    by (apply Nat.leb_le; reflexivity).
  exact (proj2 (X7_parse_render
                  (BinOp (Num (mkToken INTEGER (PyInt 1)))
                         (mkToken PLUS (PyStr "+"))
                         (BinOp (Num (mkToken INTEGER (PyInt 2)))
                                (mkToken MUL (PyStr "*"))
                                (Num (mkToken INTEGER (PyInt 3)))))
                  11 eq_refl Hl Hf)).
Defined.

(** X8. A number survives the round trip: for every integer [n >= 0] of at
    most [int_max_str_digits] digits the line [str(n)] evaluates to [n]. *)
Theorem X8_literal_round_trip (n : Z) (fuel : nat) :
  (0 <= n)%Z ->
  (Z.of_nat (String.length (str_int n)) <= int_max_str_digits)%Z ->
  fuel_bound (str_int n) <= fuel ->
  evaluate fuel (str_int n) = Ok (PyInt n).
Proof.
  intros Hn Hc Hf.
  assert (Hw : well_formed (Num (mkToken INTEGER (PyInt n))) = true)
    by (apply Z.leb_le; exact Hn).
  destruct (parse_render _ fuel Hw Hc (parse_ends fuel _ Hf))
    as ([t' p'] & E & Ht & _).
  cbn [fst snd render value] in *. subst t'.
  rewrite evaluate_as_parse, E. reflexivity.
Qed.

Lemma X8_literal_round_trip_witness :
  evaluate 6 "2024" = Ok (PyInt 2024).
Proof.
  assert (Hn : (0 <= 2024)%Z) by (intros H; discriminate H).
  assert (Hc : (Z.of_nat (String.length (str_int 2024))
                <= int_max_str_digits)%Z) by (intros H; discriminate H).
  assert (Hf : fuel_bound (str_int 2024) <= 6) by (vm_compute; apply le_n).
  exact (X8_literal_round_trip 2024 6 Hn Hc Hf).
Defined.

(** * Lines with the same tokens have the same outcome *)

Lemma next_token_total (s : string) : next_token s <> OutOfFuel.
Proof.
  unfold next_token. destruct (skip_spaces s) as [| c s']; [discriminate |].
  destruct (isdigit c).
  - destruct (span_digits (String c s')) as [ds rest].
    destruct (int_cases ds) as [(n & -> & _) | ->]; discriminate.
  - repeat match goal with
           | |- (if ?b then _ else _) <> _ => destruct b
           end; discriminate.
Qed.

Lemma pulls_total (n : nat) (s : string) : pulls n s <> OutOfFuel.
Proof.
  revert s. induction n as [| n IH]; intros s; simpl; [discriminate |].
  pose proof (next_token_total s) as H.
  destruct (next_token s) as [[tok rest] | e |]; cbn [bind];
    [| discriminate | contradiction H; reflexivity].
  specialize (IH rest). destruct (pulls n rest); cbn [bind];
    [discriminate | discriminate | contradiction IH; reflexivity].
Qed.

Lemma same_tokens_step (s1 s2 : string) :
  same_tokens s1 s2 ->
  match next_token s1, next_token s2 with
  | Ok (t1, r1), Ok (t2, r2) => t1 = t2 /\ same_tokens r1 r2
  | Raise e1, Raise e2 => e1 = e2
  | _, _ => False
  end.
Proof.
  intros H. pose proof (H 1) as H1. simpl in H1.
  pose proof (next_token_total s1) as T1.
  pose proof (next_token_total s2) as T2.
  destruct (next_token s1) as [[t1 r1] | e1 |] eqn:E1;
    destruct (next_token s2) as [[t2 r2] | e2 |] eqn:E2;
    cbn [bind] in H1; try discriminate H1;
    try (contradiction T1; reflexivity); try (contradiction T2; reflexivity).
  - injection H1 as ->. split; [reflexivity |].
    intros n. pose proof (H (S n)) as Hn. simpl in Hn.
    rewrite E1, E2 in Hn. cbn [bind] in Hn.
    pose proof (pulls_total n r1) as P1. pose proof (pulls_total n r2) as P2.
    destruct (pulls n r1), (pulls n r2); cbn [bind] in Hn;
      try discriminate Hn; try congruence.
  - injection H1 as ->. reflexivity.
Qed.

Lemma alike_bind {A B A' B' : Type} (R : A -> B -> Prop)
      (S : A' -> B' -> Prop) (m1 : outcome A) (m2 : outcome B)
      (k1 : A -> outcome A') (k2 : B -> outcome B') :
  alike R m1 m2 -> (forall a b, R a b -> alike S (k1 a) (k2 b)) ->
  alike S (bind m1 k1) (bind m2 k2).
Proof.
  unfold alike. intros Hm Hk N1 N2.
  destruct m1 as [a | e1 |], m2 as [b | e2 |]; cbn [bind] in *;
    try (contradiction N1; reflexivity); try (contradiction N2; reflexivity);
    try (specialize (Hm ltac:(discriminate) ltac:(discriminate)));
    try contradiction.
  - exact (Hk a b Hm N1 N2).
  - exact Hm.
Qed.

Lemma alike_ok {A B : Type} (R : A -> B -> Prop) (a : A) (b : B) :
  R a b -> alike R (Ok a) (Ok b).
Proof. intros H _ _. exact H. Qed.

Lemma alike_raise {A B : Type} (R : A -> B -> Prop) (e : exn) :
  alike R (Raise e : outcome A) (Raise e : outcome B).
Proof. intros _ _. reflexivity. Qed.

Lemma alike_oof_l {A B : Type} (R : A -> B -> Prop) (r : outcome B) :
  alike R (OutOfFuel : outcome A) r.
Proof. intros N; contradiction N; reflexivity. Qed.

Lemma alike_parsers_token (p1 p2 : Parser) :
  alike_parsers p1 p2 -> current_token p1 = current_token p2.
Proof.
  intros (txt1 & txt2 & tok & s1 & s2 & H1 & H2 & _).
  rewrite (stands_token _ _ _ _ H1), (stands_token _ _ _ _ H2). reflexivity.
Qed.

Lemma eat_alike (f : nat) (tt : TokenType) (p1 p2 : Parser) :
  alike_parsers p1 p2 -> alike alike_parsers (eat f tt p1) (eat f tt p2).
Proof.
  intros (txt1 & txt2 & tok & s1 & s2 & H1 & H2 & Hs).
  pose proof (stands_token _ _ _ _ H1) as T1.
  pose proof (stands_token _ _ _ _ H2) as T2.
  destruct (TokenType_eqb (type tok) tt) eqn:Et.
  - apply TokenType_eqb_eq in Et. subst tt. intros N1 N2.
    pose proof (same_tokens_step s1 s2 Hs) as Hstep.
    destruct (next_token s1) as [[t1 r1] | e1 |] eqn:E1;
      destruct (next_token s2) as [[t2 r2] | e2 |] eqn:E2;
      try contradiction.
    + destruct Hstep as [<- Hr].
      destruct (eat_returns f txt1 p1 tok s1 t1 r1 H1 E1 N1) as (q1 & -> & Q1).
      destruct (eat_returns f txt2 p2 tok s2 t1 r2 H2 E2 N2) as (q2 & -> & Q2).
      exists txt1, txt2, t1, r1, r2. auto.
    + subst e2.
      rewrite (eat_raises_pure f txt1 p1 tok s1 e1 H1 E1 N1).
      rewrite (eat_raises_pure f txt2 p2 tok s2 e1 H2 E2 N2). reflexivity.
  - unfold eat. rewrite T1, T2, Et. apply alike_raise.
Qed.

Section ProductionsAlike.
Variable f : nat.
Variable rec : Parser -> outcome (AST * Parser).
Hypothesis Hrec :
  forall q1 q2, alike_parsers q1 q2 -> alike alike_results (rec q1) (rec q2).

Lemma factor_body_alike (p1 p2 : Parser) :
  alike_parsers p1 p2 ->
  alike alike_results (factor_body f rec p1) (factor_body f rec p2).
Proof.
  intros Hp. pose proof (alike_parsers_token p1 p2 Hp) as Ht.
  unfold factor_body. rewrite <- Ht.
  destruct (TokenType_eqb (type (current_token p1)) INTEGER).
  - eapply alike_bind; [exact (eat_alike f INTEGER p1 p2 Hp) |].
    intros q1 q2 Hq. apply alike_ok. split; [reflexivity | exact Hq].
  - destruct (TokenType_eqb (type (current_token p1)) LPAREN);
      [| apply alike_raise].
    eapply alike_bind; [exact (eat_alike f LPAREN p1 p2 Hp) |].
    intros q1 q2 Hq. eapply alike_bind; [exact (Hrec q1 q2 Hq) |].
    intros [n1 r1] [n2 r2] [Hn Hr]. cbn [fst snd] in *. subst n2.
    eapply alike_bind; [exact (eat_alike f RPAREN r1 r2 Hr) |].
    intros x1 x2 Hx. apply alike_ok. split; [reflexivity | exact Hx].
Qed.

Lemma term_loop_alike (n : nat) (node : AST) (p1 p2 : Parser) :
  alike_parsers p1 p2 ->
  alike alike_results (term_loop f rec n node p1) (term_loop f rec n node p2).
Proof.
  revert node p1 p2. induction n as [| n IH]; intros node p1 p2 Hp;
    pose proof (alike_parsers_token p1 p2 Hp) as Ht;
    cbn [term_loop]; rewrite <- Ht;
    destruct (TokenType_eqb (type (current_token p1)) MUL
              || TokenType_eqb (type (current_token p1)) DIV);
    try (apply alike_ok; split; [reflexivity | exact Hp]);
    try apply alike_oof_l.
  eapply alike_bind with (R := alike_parsers).
  - destruct (TokenType_eqb (type (current_token p1)) MUL);
      [exact (eat_alike f MUL p1 p2 Hp) |].
    destruct (TokenType_eqb (type (current_token p1)) DIV);
      [exact (eat_alike f DIV p1 p2 Hp) | apply alike_ok; exact Hp].
  - intros q1 q2 Hq.
    eapply alike_bind; [exact (factor_body_alike q1 q2 Hq) |].
    intros [n1 r1] [n2 r2] [Hn Hr]. cbn [fst snd] in *. subst n2.
    apply IH. exact Hr.
Qed.

Lemma term_body_alike (p1 p2 : Parser) :
  alike_parsers p1 p2 ->
  alike alike_results (term_body f rec p1) (term_body f rec p2).
Proof.
  intros Hp. unfold term_body.
  eapply alike_bind; [exact (factor_body_alike p1 p2 Hp) |].
  intros [n1 r1] [n2 r2] [Hn Hr]. cbn [fst snd] in *. subst n2.
  apply term_loop_alike. exact Hr.
Qed.

Lemma expr_loop_alike (n : nat) (node : AST) (p1 p2 : Parser) :
  alike_parsers p1 p2 ->
  alike alike_results (expr_loop f rec n node p1) (expr_loop f rec n node p2).
Proof.
  revert node p1 p2. induction n as [| n IH]; intros node p1 p2 Hp;
    pose proof (alike_parsers_token p1 p2 Hp) as Ht;
    cbn [expr_loop]; rewrite <- Ht;
    destruct (TokenType_eqb (type (current_token p1)) PLUS
              || TokenType_eqb (type (current_token p1)) MINUS);
    try (apply alike_ok; split; [reflexivity | exact Hp]);
    try apply alike_oof_l.
  eapply alike_bind with (R := alike_parsers).
  - destruct (TokenType_eqb (type (current_token p1)) PLUS);
      [exact (eat_alike f PLUS p1 p2 Hp) |].
    destruct (TokenType_eqb (type (current_token p1)) MINUS);
      [exact (eat_alike f MINUS p1 p2 Hp) | apply alike_ok; exact Hp].
  - intros q1 q2 Hq.
    eapply alike_bind; [exact (term_body_alike q1 q2 Hq) |].
    intros [n1 r1] [n2 r2] [Hn Hr]. cbn [fst snd] in *. subst n2.
    apply IH. exact Hr.
Qed.

Lemma expr_body_alike (p1 p2 : Parser) :
  alike_parsers p1 p2 ->
  alike alike_results (expr_body f rec p1) (expr_body f rec p2).
Proof.
  intros Hp. unfold expr_body.
  eapply alike_bind; [exact (term_body_alike p1 p2 Hp) |].
  intros [n1 r1] [n2 r2] [Hn Hr]. cbn [fst snd] in *. subst n2.
  apply expr_loop_alike. exact Hr.
Qed.
End ProductionsAlike.

Lemma expr_alike (fuel : nat) (p1 p2 : Parser) :
  alike_parsers p1 p2 -> alike alike_results (expr fuel p1) (expr fuel p2).
Proof.
  revert p1 p2. induction fuel as [| fuel IH]; intros p1 p2 Hp; simpl;
    [apply alike_oof_l |].
  apply expr_body_alike; [exact IH | exact Hp].
Qed.

Lemma Parser_init_alike (fuel : nat) (txt1 txt2 : string) :
  same_tokens txt1 txt2 ->
  alike alike_parsers (Parser_init fuel (at_pos txt1 0))
        (Parser_init fuel (at_pos txt2 0)).
Proof.
  intros Hs N1 N2. pose proof (same_tokens_step txt1 txt2 Hs) as Hstep.
  destruct (next_token txt1) as [[t1 r1] | e1 |] eqn:E1;
    destruct (next_token txt2) as [[t2 r2] | e2 |] eqn:E2;
    try contradiction.
  - destruct Hstep as [<- Hr].
    destruct (Parser_init_returns fuel txt1 t1 r1 E1 N1) as (q1 & -> & Q1).
    destruct (Parser_init_returns fuel txt2 t1 r2 E2 N2) as (q2 & -> & Q2).
    exists txt1, txt2, t1, r1, r2. auto.
  - subst e2. unfold Parser_init in *.
    assert (G1 : get_next_token fuel (at_pos txt1 0) <> OutOfFuel)
      by (intros E; rewrite E in N1; contradiction N1; reflexivity).
    assert (G2 : get_next_token fuel (at_pos txt2 0) <> OutOfFuel)
      by (intros E; rewrite E in N2; contradiction N2; reflexivity).
    pose proof (get_next_token_pure txt1 0 fuel G1) as P1.
    pose proof (get_next_token_pure txt2 0 fuel G2) as P2.
    change (drop 0 txt1) with txt1 in P1. change (drop 0 txt2) with txt2 in P2.
    rewrite E1 in P1. rewrite E2 in P2. unfold token_at in *.
    rewrite P1, P2. reflexivity.
Qed.

Lemma parse_alike (fuel : nat) (txt1 txt2 : string) :
  txt1 <> "" -> txt2 <> "" -> same_tokens txt1 txt2 ->
  alike alike_results (parse fuel txt1) (parse fuel txt2).
Proof.
  intros H1 H2 Hs. unfold parse.
  rewrite (Lexer_init_at txt1 H1), (Lexer_init_at txt2 H2). cbn [bind].
  eapply alike_bind; [exact (Parser_init_alike fuel txt1 txt2 Hs) |].
  intros p1 p2 Hp. apply expr_alike. exact Hp.
Qed.

Lemma evaluate_same_tokens (fuel1 fuel2 : nat) (txt1 txt2 : string) :
  txt1 <> "" -> txt2 <> "" -> same_tokens txt1 txt2 ->
  fuel_bound txt1 <= fuel1 -> fuel_bound txt2 <= fuel2 ->
  evaluate fuel1 txt1 = evaluate fuel2 txt2.
Proof.
  intros H1 H2 Hs F1 F2. set (F := Nat.max fuel1 fuel2).
  rewrite (evaluate_enough fuel1 txt1 F1), (evaluate_enough fuel2 txt2 F2).
  rewrite <- (evaluate_enough F txt1) by (unfold F; lia).
  rewrite <- (evaluate_enough F txt2) by (unfold F; lia).
  rewrite !evaluate_as_parse.
  pose proof (parse_alike F txt1 txt2 H1 H2 Hs
                (parse_ends F txt1 ltac:(unfold F; lia))
                (parse_ends F txt2 ltac:(unfold F; lia))) as H.
  destruct (parse F txt1) as [[t1 p1] | e1 |],
           (parse F txt2) as [[t2 p2] | e2 |]; try contradiction.
  - destruct H as [Ht _]. cbn [fst bind] in *. subst t2. reflexivity.
  - subst e2. reflexivity.
Qed.

(** * Whitespace between tokens *)

Lemma isspace_not_digit (c : ascii) : isspace c = true -> isdigit c = false.
Proof.
  destruct c as [[|] [|] [|] [|] [|] [|] [|] [|]]; vm_compute; intros H;
    (reflexivity || discriminate H).
Qed.

Lemma isdigit_not_space (c : ascii) : isdigit c = true -> isspace c = false.
Proof.
  intros H. destruct (isspace c) eqn:E; [| reflexivity].
  rewrite (isspace_not_digit c E) in H. discriminate.
Qed.

Lemma skip_spaces_app (ws s : string) :
  all_chars isspace ws = true -> skip_spaces (ws ++ s) = skip_spaces s.
Proof.
  induction ws as [| w ws IH]; simpl; [reflexivity |].
  intros H. apply andb_true_iff in H. destruct H as [H1 H2].
  rewrite H1. exact (IH H2).
Qed.

Lemma next_token_skip (ws s : string) :
  all_chars isspace ws = true -> next_token (ws ++ s) = next_token s.
Proof.
  intros H. unfold next_token. rewrite (skip_spaces_app ws s H). reflexivity.
Qed.

Lemma next_token_space (c : ascii) (s : string) :
  isspace c = true -> next_token (String c s) = next_token s.
Proof.
  intros H. unfold next_token. cbn [skip_spaces]. rewrite H. reflexivity.
Qed.

Lemma next_token_digit (c : ascii) (s : string) :
  isdigit c = true ->
  next_token (String c s)
  = (n <- int (String c (fst (span_digits s))) ;;
     Ok (mkToken INTEGER (PyInt n), snd (span_digits s))).
Proof.
  intros H. unfold next_token. cbn [skip_spaces span_digits].
  rewrite (isdigit_not_space c H), H.
  destruct (span_digits s) as [ds rest]. reflexivity.
Qed.

Lemma next_token_symbol (c : ascii) :
  isspace c = false -> isdigit c = false ->
  (forall s, next_token (String c s) = Raise LexicalError)
  \/ (exists tok, forall s, next_token (String c s) = Ok (tok, s)).
Proof.
  intros Hs Hd. unfold next_token. cbn [skip_spaces]. rewrite Hs, Hd.
  repeat match goal with
         | |- context [if ?b then _ else _] =>
             destruct b; [right; eexists; intros s; reflexivity |]
         end.
  left; intros s; reflexivity.
Qed.

Lemma span_digits_app_left (a x : string) :
  snd (span_digits a) <> "" ->
  span_digits (a ++ x) = (fst (span_digits a), snd (span_digits a) ++ x).
Proof.
  induction a as [| c a IH]; simpl; [intros H; contradiction H; reflexivity |].
  destruct (isdigit c); [| reflexivity].
  destruct (span_digits a) as [d r]; cbn [fst snd] in *.
  intros H. rewrite (IH H). reflexivity.
Qed.

Lemma span_digits_all (a : string) :
  snd (span_digits a) = "" ->
  all_chars isdigit a = true /\ fst (span_digits a) = a.
Proof.
  induction a as [| c a IH]; simpl; [auto |].
  destruct (isdigit c); [| discriminate].
  destruct (span_digits a) as [d r]; cbn [fst snd] in *.
  intros H. destruct (IH H) as [H1 H2]. rewrite H1, H2. auto.
Qed.

Lemma last_is_digit_cons (c : ascii) (s : string) :
  s <> "" -> last_is_digit (String c s) = last_is_digit s.
Proof. destruct s; [intros H; contradiction H |]; reflexivity. Qed.

Lemma last_is_digit_all (s : string) :
  s <> "" -> all_chars isdigit s = true -> last_is_digit s = true.
Proof.
  induction s as [| c s IH]; [intros H; contradiction H; reflexivity |].
  intros _ H. simpl in H. apply andb_true_iff in H. destruct H as [H1 H2].
  destruct s as [| d s]; [exact H1 |].
  rewrite last_is_digit_cons by discriminate. apply IH; [discriminate | exact H2].
Qed.

Lemma last_is_digit_span (a : string) :
  snd (span_digits a) <> "" ->
  last_is_digit (snd (span_digits a)) = last_is_digit a.
Proof.
  induction a as [| c a IH]; cbn [span_digits];
    [intros H; contradiction H; reflexivity |].
  destruct (isdigit c) eqn:Hc; [| reflexivity].
  destruct (span_digits a) as [d r] eqn:E; cbn [fst snd] in *.
  intros H. rewrite (IH H).
  destruct a as [| c' a']; [simpl in E; injection E as _ <-;
                            contradiction H; reflexivity |].
  reflexivity.
Qed.

Section Insert.
Variables ws post : string.
Hypothesis Hws : all_chars isspace ws = true.

Let boundary (pre : string) : Prop :=
  last_is_digit pre && first_is_digit post = false.

Lemma boundary_tail (c : ascii) (pre : string) :
  boundary (String c pre) -> boundary pre.
Proof.
  unfold boundary. destruct pre as [| d pre]; [reflexivity |].
  rewrite last_is_digit_cons by discriminate. auto.
Qed.

Lemma next_token_insert (pre : string) :
  boundary pre ->
  next_token (pre ++ ws ++ post) = next_token (pre ++ post)
  \/ exists tok pre',
      next_token (pre ++ ws ++ post) = Ok (tok, pre' ++ ws ++ post)
      /\ next_token (pre ++ post) = Ok (tok, pre' ++ post)
      /\ boundary pre'.
Proof.
  induction pre as [| c pre IH]; intros Hb.
  - left. cbn [append]. apply next_token_skip. exact Hws.
  - cbn [append]. destruct (isspace c) eqn:Hs.
    + rewrite !(next_token_space c _ Hs). apply IH.
      exact (boundary_tail c pre Hb).
    + destruct (isdigit c) eqn:Hd.
      * rewrite !(next_token_digit c _ Hd).
        destruct (string_dec (snd (span_digits pre)) "") as [He | Hne].
        -- destruct (span_digits_all pre He) as [Hall Hfst].
           assert (Hpost : starts_nondigit post).
           { unfold boundary in Hb.
             rewrite (last_is_digit_all (String c pre)) in Hb
               by (try discriminate; simpl; rewrite Hd, Hall; reflexivity).
             destruct post; [exact I | exact Hb]. }
           destruct ws as [| w ws'] eqn:Ew; [left; reflexivity |].
           assert (Hw : starts_nondigit (String w ws' ++ post)).
           { simpl in Hws |- *. apply andb_true_iff in Hws.
             apply isspace_not_digit. tauto. }
           rewrite (span_digits_app pre _ Hall Hw).
           rewrite (span_digits_app pre _ Hall Hpost). cbn [fst snd].
           destruct (int (String c pre)) as [n | e |]; cbn [bind];
             [| left; reflexivity | left; reflexivity].
           right. exists (mkToken INTEGER (PyInt n)), "".
           repeat split.
        -- rewrite !(span_digits_app_left pre _ Hne). cbn [fst snd].
           destruct (int (String c (fst (span_digits pre)))) as [n | e |];
             cbn [bind]; [| left; reflexivity | left; reflexivity].
           right. exists (mkToken INTEGER (PyInt n)), (snd (span_digits pre)).
           repeat split. unfold boundary in *.
           rewrite (last_is_digit_span pre Hne).
           rewrite <- (last_is_digit_cons c pre); [exact Hb |].
           intros ->. apply Hne. reflexivity.
      * destruct (next_token_symbol c Hs Hd) as [Hr | [tok Ht]].
        -- left. rewrite !Hr. reflexivity.
        -- right. exists tok, pre. rewrite !Ht.
           repeat split. exact (boundary_tail c pre Hb).
Qed.

Lemma pulls_insert (n : nat) (pre : string) :
  boundary pre -> pulls n (pre ++ ws ++ post) = pulls n (pre ++ post).
Proof.
  revert pre. induction n as [| n IH]; intros pre Hb; [reflexivity |].
  cbn [pulls].
  destruct (next_token_insert pre Hb) as [-> | (tok & pre' & -> & -> & Hb')];
    [reflexivity |].
  cbn [bind]. rewrite (IH pre' Hb'). reflexivity.
Qed.
End Insert.

(** X9. Whitespace may be added anywhere but between two digits: if a line
    is cut in two so that the first part does not end with a digit or the
    second does not begin with one, putting whitespace at the cut changes
    neither the value nor the exception of the line, provided the line was
    not empty. *)
Theorem X9_whitespace_between_tokens (pre ws post : string)
        (fuel1 fuel2 : nat) :
  all_chars isspace ws = true ->
  pre ++ post <> "" ->
  last_is_digit pre && first_is_digit post = false ->
  fuel_bound (pre ++ ws ++ post) <= fuel1 ->
  fuel_bound (pre ++ post) <= fuel2 ->
  evaluate fuel1 (pre ++ ws ++ post) = evaluate fuel2 (pre ++ post).
Proof.
  intros Hws Hne Hb F1 F2.
  apply evaluate_same_tokens; auto.
  - intros E. apply Hne. destruct pre; [| discriminate].
    destruct ws; [exact E | discriminate].
  - intros n. apply pulls_insert; assumption.
Qed.

Lemma X9_whitespace_between_tokens_witness :
  evaluate 13 "12 *  (3+4)" = evaluate 11 "12 *(3+4)".
Proof.
  assert (H1 : "12 *" ++ "(3+4)" <> "") by discriminate.
  assert (F1 : fuel_bound ("12 *" ++ "  " ++ "(3+4)") <= 13)
    by (vm_compute; apply le_n).
  assert (F2 : fuel_bound ("12 *" ++ "(3+4)") <= 11)
    by (vm_compute; apply le_n).
  exact (X9_whitespace_between_tokens "12 *" "  " "(3+4)" 13 11
           eq_refl H1 eq_refl F1 F2).
Defined.

(** * Lines that fail on their first token *)

Lemma Parser_init_pure (fuel : nat) (txt : string) :
  Parser_init fuel (at_pos txt 0) <> OutOfFuel ->
  match next_token txt with
  | Ok (tok, rest) =>
      exists p, Parser_init fuel (at_pos txt 0) = Ok p /\ stands txt p tok rest
  | Raise e => Parser_init fuel (at_pos txt 0) = Raise e
  | OutOfFuel => False
  end.
Proof.
  intros N. destruct (next_token txt) as [[tok rest] | e |] eqn:E.
  - exact (Parser_init_returns fuel txt tok rest E N).
  - unfold Parser_init in *.
    assert (G : get_next_token fuel (at_pos txt 0) <> OutOfFuel)
      by (intros H; rewrite H in N; contradiction N; reflexivity).
    pose proof (get_next_token_pure txt 0 fuel G) as P.
    change (drop 0 txt) with txt in P. rewrite E in P.
    unfold token_at in P. rewrite P. reflexivity.
  - exact (next_token_total txt E).
Qed.

Lemma parse_first (fuel : nat) (txt : string) :
  txt <> "" -> fuel_bound txt <= fuel ->
  match next_token txt with
  | Ok (tok, rest) =>
      exists p, stands txt p tok rest /\ parse fuel txt = expr fuel p
  | Raise e => parse fuel txt = Raise e
  | OutOfFuel => False
  end.
Proof.
  intros Hne Hf. pose proof (parse_ends fuel txt Hf) as N.
  unfold parse in *. rewrite (Lexer_init_at txt Hne) in *. cbn [bind] in *.
  assert (G : Parser_init fuel (at_pos txt 0) <> OutOfFuel)
    by (intros H; rewrite H in N; contradiction N; reflexivity).
  pose proof (Parser_init_pure fuel txt G) as P.
  destruct (next_token txt) as [[tok rest] | e |]; [| | exact P].
  - destruct P as (p & -> & Hp). exists p. auto.
  - rewrite P. reflexivity.
Qed.

Lemma int_digits_nondecimal (s : string) (acc : Z) :
  all_chars is_decimal s = false -> int_digits acc s = None.
Proof.
  revert acc. induction s as [| c s IH]; intros acc; simpl;
    [discriminate |].
  unfold decimal_value. unfold is_decimal at 1.
  destruct ((48 <=? ord c)%Z && (ord c <=? 57)%Z); simpl;
    [apply IH | reflexivity].
Qed.

(** X10. The lexer takes for a number any run of characters that pass
    [isdigit]; when one of them is not a decimal digit, as the superscript
    digits are, it is [int] that rejects the run: a line that begins with
    such a run raises [ValueError], not [LexicalError]. *)
Theorem X10_digit_that_is_no_decimal (ws ds rest : string) (fuel : nat) :
  all_chars isspace ws = true ->
  all_chars isdigit ds = true -> all_chars is_decimal ds = false ->
  starts_nondigit rest ->
  fuel_bound (ws ++ ds ++ rest) <= fuel ->
  parse fuel (ws ++ ds ++ rest) = Raise ValueError
  /\ evaluate fuel (ws ++ ds ++ rest) = Raise ValueError.
Proof.
  intros Hws Hd Hn Hr Hf.
  assert (Hnt : next_token (ws ++ ds ++ rest) = Raise ValueError).
  { rewrite (next_token_skip ws _ Hws).
    destruct ds as [| d ds']; [discriminate Hn |]. cbn [append].
    simpl in Hd. apply andb_true_iff in Hd. destruct Hd as [Hd1 Hd2].
    rewrite (next_token_digit d _ Hd1), (span_digits_app ds' rest Hd2 Hr).
    cbn [fst snd]. unfold int.
    rewrite (int_digits_nondecimal (String d ds') 0 Hn).
    destruct (_ <? _)%Z; reflexivity. }
  assert (Hne : ws ++ ds ++ rest <> "").
  { destruct ds; [discriminate Hn |]. destruct ws; discriminate. }
  pose proof (parse_first fuel _ Hne Hf) as P. rewrite Hnt in P.
  split; [exact P |]. rewrite evaluate_as_parse, P. reflexivity.
Qed.

Lemma X10_digit_that_is_no_decimal_witness :
  evaluate 6 (String (ascii_of_nat 49) (String (ascii_of_nat 178) "+1"))
  = Raise ValueError.
Proof.
  assert (Hf : fuel_bound ("" ++ String (ascii_of_nat 49)
                                   (String (ascii_of_nat 178) "") ++ "+1") <= 6)
    by (vm_compute; apply le_n).
  exact (proj2 (X10_digit_that_is_no_decimal
                  "" (String (ascii_of_nat 49) (String (ascii_of_nat 178) ""))
                  "+1" 6 eq_refl eq_refl eq_refl eq_refl Hf)).
Defined.

(** X11. A line whose first character, after whitespace, is an operator or
    a closing parenthesis is a [ParsingError], whatever follows it: the
    parser gives up before the lexer reads on, so that not even a character
    the lexer rejects is reported. *)
Theorem X11_no_operand_first (ws : string) (c : ascii) (rest : string)
        (fuel : nat) :
  all_chars isspace ws = true ->
  In c ["+"; "-"; "*"; "/"; ")"]%char ->
  fuel_bound (ws ++ String c rest) <= fuel ->
  parse fuel (ws ++ String c rest) = Raise ParsingError
  /\ evaluate fuel (ws ++ String c rest) = Raise ParsingError.
Proof.
  intros Hws Hc Hf.
  assert (Hnt : exists tok,
             next_token (ws ++ String c rest) = Ok (tok, rest)
             /\ TokenType_eqb (type tok) INTEGER = false
             /\ TokenType_eqb (type tok) LPAREN = false).
  { rewrite (next_token_skip ws _ Hws). simpl in Hc.
    destruct Hc as [<- | [<- | [<- | [<- | [<- | []]]]]];
      eexists; repeat split. }
  destruct Hnt as (tok & Hnt & H1 & H2).
  assert (Hne : ws ++ String c rest <> "") by (destruct ws; discriminate).
  pose proof (parse_first fuel _ Hne Hf) as P. rewrite Hnt in P.
  destruct P as (p & Hp & P).
  assert (E : expr fuel p = Raise ParsingError).
  { pose proof (parse_ends fuel _ Hf) as N. rewrite P in N.
    destruct fuel as [| f]; [contradiction N; reflexivity |].
    cbn [expr]. unfold expr_body, term_body, factor_body.
    rewrite (stands_token _ _ _ _ Hp), H1, H2. reflexivity. }
  rewrite evaluate_as_parse, P, E. split; reflexivity.
Qed.

Lemma X11_no_operand_first_witness :
  evaluate 6 " *a?" = Raise ParsingError.
Proof.
  assert (Hf : fuel_bound (" " ++ String "*" "a?") <= 6)
    by (vm_compute; apply le_n).
  exact (proj2 (X11_no_operand_first " " "*" "a?" 6 eq_refl
                  (or_intror (or_intror (or_introl eq_refl))) Hf)).
Defined.

(** * What the trees are made of *)

Section ParserInvariant.
(** A property of parser states kept by [eat] gives a property of the trees,
    once it holds of the leaves and passes from the operands to the node. *)
Variable Inv : Parser -> Prop.
Variable Good : AST -> Prop.
Hypothesis eat_inv :
  forall f tt p p', Inv p -> eat f tt p = Ok p' -> Inv p'.
Hypothesis good_num :
  forall p, Inv p -> type (current_token p) = INTEGER ->
            Good (Num (current_token p)).
Hypothesis good_bin :
  forall p l r,
    Inv p ->
    additive (type (current_token p))
    || multiplicative (type (current_token p)) = true ->
    Good l -> Good r -> Good (BinOp l (current_token p) r).

Lemma loop_eat_inv (f : nat) (p p' : Parser) (t1 t2 : TokenType) :
  Inv p ->
  (if TokenType_eqb (type (current_token p)) t1 then eat f t1 p
   else if TokenType_eqb (type (current_token p)) t2 then eat f t2 p
        else Ok p) = Ok p' ->
  Inv p'.
Proof.
  intros Hp.
  destruct (TokenType_eqb (type (current_token p)) t1);
    [apply eat_inv; exact Hp |].
  destruct (TokenType_eqb (type (current_token p)) t2);
    [apply eat_inv; exact Hp |].
  intros E; injection E as <-; exact Hp.
Qed.

Section Level.
Variable f : nat.
Variable rec : Parser -> outcome (AST * Parser).
Hypothesis Hrec :
  forall q r, Inv q -> rec q = Ok r -> Good (fst r) /\ Inv (snd r).

Lemma factor_body_inv (p : Parser) (r : AST * Parser) :
  Inv p -> factor_body f rec p = Ok r -> Good (fst r) /\ Inv (snd r).
Proof.
  intros Hp. unfold factor_body.
  destruct (TokenType_eqb (type (current_token p)) INTEGER) eqn:Ei.
  - apply TokenType_eqb_eq in Ei. intros E. inv_bind E. injection E as <-.
    cbn [fst snd]. split; [exact (good_num p Hp Ei) |].
    exact (eat_inv f INTEGER p a Hp E0).
  - destruct (TokenType_eqb (type (current_token p)) LPAREN);
      [| discriminate].
    intros E. inv_bind E. inv_bind E. destruct a0 as [node p2].
    destruct (Hrec a (node, p2) (eat_inv f LPAREN p a Hp E0) E1) as [Hg Hi].
    cbn [fst snd] in *. inv_bind E. injection E as <-. cbn [fst snd].
    split; [exact Hg | exact (eat_inv f RPAREN p2 a0 Hi E2)].
Qed.

Lemma term_loop_inv (n : nat) (node : AST) (p : Parser) (r : AST * Parser) :
  Inv p -> Good node -> term_loop f rec n node p = Ok r ->
  Good (fst r) /\ Inv (snd r).
Proof.
  revert node p. induction n as [| n IH]; intros node p Hp Hg;
    cbn [term_loop];
    destruct (TokenType_eqb (type (current_token p)) MUL
              || TokenType_eqb (type (current_token p)) DIV) eqn:Hop;
    try discriminate; try (intros E; injection E as <-; auto).
  intros E. inv_bind E. pose proof (loop_eat_inv f p a MUL DIV Hp E0) as Ha.
  inv_bind E. destruct a0 as [right_ p2].
  destruct (factor_body_inv a (right_, p2) Ha E1) as [Hgr Hi].
  cbn [fst snd] in *.
  apply (IH (BinOp node (current_token p) right_) p2 Hi); [| exact E].
  apply good_bin; auto. unfold multiplicative. rewrite Hop. apply orb_true_r.
Qed.

Lemma term_body_inv (p : Parser) (r : AST * Parser) :
  Inv p -> term_body f rec p = Ok r -> Good (fst r) /\ Inv (snd r).
Proof.
  intros Hp. unfold term_body. intros E. inv_bind E. destruct a as [node p1].
  destruct (factor_body_inv p (node, p1) Hp E0) as [Hg Hi].
  exact (term_loop_inv f node p1 r Hi Hg E).
Qed.

Lemma expr_loop_inv (n : nat) (node : AST) (p : Parser) (r : AST * Parser) :
  Inv p -> Good node -> expr_loop f rec n node p = Ok r ->
  Good (fst r) /\ Inv (snd r).
Proof.
  revert node p. induction n as [| n IH]; intros node p Hp Hg;
    cbn [expr_loop];
    destruct (TokenType_eqb (type (current_token p)) PLUS
              || TokenType_eqb (type (current_token p)) MINUS) eqn:Hop;
    try discriminate; try (intros E; injection E as <-; auto).
  intros E. inv_bind E. pose proof (loop_eat_inv f p a PLUS MINUS Hp E0) as Ha.
  inv_bind E. destruct a0 as [right_ p2].
  destruct (term_body_inv a (right_, p2) Ha E1) as [Hgr Hi].
  cbn [fst snd] in *.
  apply (IH (BinOp node (current_token p) right_) p2 Hi); [| exact E].
  apply good_bin; auto. unfold additive. rewrite Hop. reflexivity.
Qed.

Lemma expr_body_inv (p : Parser) (r : AST * Parser) :
  Inv p -> expr_body f rec p = Ok r -> Good (fst r) /\ Inv (snd r).
Proof.
  intros Hp. unfold expr_body. intros E. inv_bind E. destruct a as [node p1].
  destruct (term_body_inv p (node, p1) Hp E0) as [Hg Hi].
  exact (expr_loop_inv f node p1 r Hi Hg E).
Qed.
End Level.

Lemma expr_inv (fuel : nat) (p : Parser) (r : AST * Parser) :
  Inv p -> expr fuel p = Ok r -> Good (fst r) /\ Inv (snd r).
Proof.
  revert p r. induction fuel as [| fuel IH]; intros p r Hp; simpl;
    [discriminate |].
  apply expr_body_inv; [| exact Hp]. intros q r' Hq. apply IH; exact Hq.
Qed.
End ParserInvariant.

(** * Lines without a division sign *)

Lemma no_slash_skip_spaces (s : string) :
  no_slash s = true -> no_slash (skip_spaces s) = true.
Proof.
  unfold no_slash. induction s as [| c s IH]; simpl; [reflexivity |].
  intros H. destruct (isspace c); [| exact H].
  apply andb_true_iff in H. apply IH. tauto.
Qed.

Lemma no_slash_span_digits (s : string) :
  no_slash s = true -> no_slash (snd (span_digits s)) = true.
Proof.
  unfold no_slash. induction s as [| c s IH]; simpl; [reflexivity |].
  intros H. destruct (isdigit c); [| exact H].
  apply andb_true_iff in H. destruct (span_digits s) as [d r].
  cbn [snd] in *. apply IH. tauto.
Qed.

Lemma next_token_no_slash (s : string) (tok : Token) (rest : string) :
  no_slash s = true -> next_token s = Ok (tok, rest) ->
  type tok <> DIV /\ no_slash rest = true.
Proof.
  intros H. apply no_slash_skip_spaces in H. unfold next_token.
  destruct (skip_spaces s) as [| c s']; [intros E; injection E as <- <-;
                                         split; [discriminate | reflexivity] |].
  destruct (isdigit c).
  - pose proof (no_slash_span_digits _ H) as Hr.
    destruct (span_digits (String c s')) as [ds r]. cbn [snd] in Hr.
    destruct (int ds); cbn [bind]; try discriminate.
    intros E; injection E as <- <-. split; [discriminate | exact Hr].
  - unfold no_slash in H. simpl in H. apply andb_true_iff in H.
    destruct H as [Hc Hs'].
    destruct (c =? "+")%char; [intros E; injection E as <- <-;
                               split; [discriminate | exact Hs'] |].
    destruct (c =? "-")%char; [intros E; injection E as <- <-;
                               split; [discriminate | exact Hs'] |].
    destruct (c =? "*")%char; [intros E; injection E as <- <-;
                               split; [discriminate | exact Hs'] |].
    destruct (c =? "/")%char; [discriminate Hc |].
    destruct (c =? "(")%char; [intros E; injection E as <- <-;
                               split; [discriminate | exact Hs'] |].
    destruct (c =? ")")%char; [intros E; injection E as <- <-;
                               split; [discriminate | exact Hs'] |].
    discriminate.
Qed.

Lemma get_next_token_ok_pure (fuel : nat) (txt : string) (k : nat)
      (tok : Token) (l' : Lexer) :
  get_next_token fuel (at_pos txt k) = Ok (tok, l') ->
  exists k', l' = at_pos txt k'
             /\ next_token (drop k txt) = Ok (tok, drop k' txt).
Proof.
  intros E.
  pose proof (get_next_token_pure txt k fuel
                ltac:(rewrite E; discriminate)) as P.
  destruct (next_token (drop k txt)) as [[t r] | e |]; unfold token_at in P.
  - destruct P as (k' & E' & D & _). rewrite E in E'.
    injection E' as -> ->. exists k'. rewrite D. auto.
  - rewrite E in P. discriminate.
  - contradiction.
Qed.

Lemma eat_slash_free (f : nat) (tt : TokenType) (p p' : Parser) :
  slash_free p -> eat f tt p = Ok p' -> slash_free p'.
Proof.
  intros (_ & txt & k & Hl & Hs). unfold eat.
  destruct (TokenType_eqb (type (current_token p)) tt); [| discriminate].
  rewrite Hl. intros E. inv_bind E. destruct a as [tok l'].
  injection E as <-.
  destruct (get_next_token_ok_pure f txt k tok l' E0) as (k' & -> & Hnt).
  destruct (next_token_no_slash _ tok _ Hs Hnt) as [Ht Hr].
  split; [exact Ht |]. exists txt, k'. auto.
Qed.

Lemma expr_slash_free (fuel : nat) (p : Parser) (r : AST * Parser) :
  slash_free p -> expr fuel p = Ok r ->
  no_division (fst r) = true /\ slash_free (snd r).
Proof.
  apply (expr_inv slash_free (fun t => no_division t = true)).
  - exact eat_slash_free.
  - reflexivity.
  - intros q l r' [Hq _] _ Hl Hr. cbn [no_division]. rewrite Hl, Hr.
    destruct (type (current_token q)); try reflexivity.
    contradiction Hq; reflexivity.
Qed.

Lemma visit_int_value (t : AST) :
  well_formed t = true -> no_division t = true ->
  visit t = Ok (PyInt (int_value t)).
Proof.
  induction t as [l IHl op r IHr | tok]; cbn [well_formed no_division visit].
  - intros Hw Hn. apply andb_true_iff in Hw. destruct Hw as [Hw Hwr].
    apply andb_true_iff in Hw. destruct Hw as [Hwl Hop].
    apply andb_true_iff in Hn. destruct Hn as [Hn Hnr].
    apply andb_true_iff in Hn. destruct Hn as [Hnl Hd].
    rewrite (IHl Hwl Hnl), (IHr Hwr Hnr). cbn [int_value].
    unfold is_operator in Hop.
    destruct (type op); try discriminate Hop; try discriminate Hd;
      reflexivity.
  - intros Hw _. destruct (number_token_eq tok Hw) as (n & -> & _).
    reflexivity.
Qed.

(** X12. A line of at most [max_line] characters without the character
    [/] is evaluated in exact integer arithmetic: if it parses, its value
    is the [int] that [+], [-] and [*] give on the numbers of the tree,
    never a [float], and [ZeroDivisionError] and [OverflowError] cannot
    occur. *)
Theorem X12_no_division_sign (fuel : nat) (txt : string) :
  String.length txt <= max_line ->
  no_slash txt = true ->
  (forall t p', parse fuel txt = Ok (t, p') ->
                no_division t = true
                /\ evaluate fuel txt = Ok (PyInt (int_value t)))
  /\ (forall v, evaluate fuel txt = Ok v -> exists n, v = PyInt n)
  /\ evaluate fuel txt <> Raise ZeroDivisionError
  /\ evaluate fuel txt <> Raise OverflowError.
Proof.
  intros _ Hs.
  assert (H : forall t p', parse fuel txt = Ok (t, p') ->
                           no_division t = true
                           /\ evaluate fuel txt = Ok (PyInt (int_value t))).
  { intros t p' E.
    pose proof (parse_well_formed fuel txt t p' E) as Hw.
    destruct (parse_expr fuel txt _ E) as (l & p & El & Ep & Ee).
    assert (Hne : txt <> "") by (intros ->; discriminate El).
    rewrite (Lexer_init_at txt Hne) in El. injection El as <-.
    assert (Hp : slash_free p).
    { unfold Parser_init in Ep. inv_bind Ep. destruct a as [tok l'].
      injection Ep as <-.
      destruct (get_next_token_ok_pure fuel txt 0 tok l' E0) as (k' & -> & Hnt).
      destruct (next_token_no_slash _ tok _ Hs Hnt) as [Ht Hr].
      split; [exact Ht |]. exists txt, k'. auto. }
    destruct (expr_slash_free fuel p (t, p') Hp Ee) as [Hn _].
    cbn [fst] in Hn. split; [exact Hn |].
    rewrite evaluate_as_parse, E. cbn [bind fst].
    exact (visit_int_value t Hw Hn). }
  split; [exact H |].
  rewrite evaluate_as_parse in *.
  destruct (parse fuel txt) as [[t p'] | e |] eqn:E; cbn [bind fst] in *.
  - destruct (H t p' eq_refl) as [_ ->].
    repeat split; try discriminate.
    intros v Ev; injection Ev as <-. eexists; reflexivity.
  - destruct (parse_raises fuel txt e E) as [[-> _] | [_ [-> | [-> | ->]]]];
      repeat split; discriminate.
  - repeat split; discriminate.
Qed.

Lemma X12_no_division_sign_witness :
  evaluate 11 "2*(3-10)" = Ok (PyInt (-14)).
Proof.
  assert (L : String.length "2*(3-10)" <= max_line)
    by (apply Nat.leb_le; reflexivity).
  exact (proj2 (proj1 (X12_no_division_sign 11 "2*(3-10)" L eq_refl)
                  (BinOp (Num (mkToken INTEGER (PyInt 2)))
                         (mkToken MUL (PyStr "*"))
                         (BinOp (Num (mkToken INTEGER (PyInt 3)))
                                (mkToken MINUS (PyStr "-"))
                                (Num (mkToken INTEGER (PyInt 10)))))
                  (mkParser (mkLexer "2*(3-10)" 8 None) EOF_token)
                  eq_refl)).
Defined.

(** * The interactive loop *)

Lemma run_ends (text : string) : run text <> OutOfFuel.
Proof. apply evaluate_ends. apply Nat.le_refl. Qed.

Lemma main_step (fuel : nat) (text : string) (rest : list string) :
  is_exit text = false ->
  main (S fuel) (text :: rest)
  = (report text ++ fst (main fuel rest), snd (main fuel rest))%list.
Proof.
  intros He. cbn [main]. unfold is_exit in He. rewrite He. unfold report.
  pose proof (run_ends text) as Hr.
  destruct (run text) as [v | e |]; [| | contradiction Hr; reflexivity];
    destruct (main fuel rest) as [out done]; reflexivity.
Qed.

(** X13. A session ends at the first line that spells [exit], and only
    there.  Every line before it, of at most [max_line] characters, is
    answered by exactly one [print], of its value or of its exception, so
    that an error does not end the session; the lines after it are never
    read. *)
Theorem X13_session_until_exit (before : list string) (text : string)
        (after : list string) (fuel : nat) :
  Forall (fun t => String.length t <= max_line) before ->
  Forall (fun t => is_exit t = false) before ->
  is_exit text = true ->
  List.length before < fuel ->
  main fuel (before ++ text :: after)%list
  = (flat_map report before ++ [Prompt; PrintExit], true)%list.
Proof.
  intros _ Hb He. revert fuel.
  induction Hb as [| t before Ht Hb IH]; intros fuel Hf;
    (destruct fuel as [| fuel]; [simpl in Hf; lia |]).
  - cbn [app main flat_map]. unfold is_exit in He. rewrite He. reflexivity.
  - cbn [app flat_map]. rewrite (main_step fuel t _ Ht).
    rewrite (IH fuel ltac:(simpl in Hf; lia)). cbn [fst snd].
    rewrite <- app_assoc. reflexivity.
Qed.

Lemma X13_session_until_exit_witness :
  main 3 ["1/0"; "2+2"; "Exit"; "7"]
  = ([Prompt; PrintException (Core ZeroDivisionError);
      Prompt; PrintResult (PyInt 4); Prompt; PrintExit], true).
Proof.
  assert (H : Forall (fun t => is_exit t = false) ["1/0"; "2+2"])
    by (repeat constructor).
  assert (L : Forall (fun t => String.length t <= max_line) ["1/0"; "2+2"])
    by (repeat constructor; apply Nat.leb_le; reflexivity).
  exact (X13_session_until_exit ["1/0"; "2+2"] "Exit" ["7"] 3
           L H eq_refl (le_n 3)).
Defined.

Lemma main_end_of_input (fuel : nat) :
  main fuel [] = (end_of_input fuel, false).
Proof.
  induction fuel as [| fuel IH]; [reflexivity |].
  cbn [main end_of_input]. rewrite IH. reflexivity.
Qed.

(** X14. Without a line that spells [exit] the loop never ends: the end of
    the input does not stop it, since the [EOFError] of [input] is caught
    like any other exception, and from there on every round writes the
    prompt and that exception.  The lines have at most [max_line]
    characters. *)
Theorem X14_no_exit_no_end (lines : list string) (fuel : nat) :
  Forall (fun t => String.length t <= max_line) lines ->
  Forall (fun t => is_exit t = false) lines ->
  snd (main fuel lines) = false
  /\ (List.length lines <= fuel ->
      fst (main fuel lines)
      = (flat_map report lines
           ++ end_of_input (fuel - List.length lines))%list).
Proof.
  intros _ Hl. revert fuel.
  induction Hl as [| t lines Ht Hl IH]; intros fuel.
  - rewrite main_end_of_input. cbn [fst snd flat_map app List.length].
    rewrite Nat.sub_0_r. auto.
  - destruct fuel as [| fuel]; [split; [reflexivity | simpl; lia] |].
    rewrite (main_step fuel t lines Ht). cbn [fst snd].
    destruct (IH fuel) as [H1 H2]. split; [exact H1 |].
    intros Hf. cbn [flat_map List.length Nat.sub].
    rewrite (H2 ltac:(simpl in Hf; lia)), app_assoc. reflexivity.
Qed.

Lemma X14_no_exit_no_end_witness :
  fst (main 3 ["1"])
  = [Prompt; PrintResult (PyInt 1); Prompt; PrintException EOFError;
     Prompt; PrintException EOFError].
Proof.
  assert (H : Forall (fun t => is_exit t = false) ["1"])
    by (repeat constructor).
  assert (L : Forall (fun t => String.length t <= max_line) ["1"])
    by (repeat constructor; apply Nat.leb_le; reflexivity).
  exact (proj2 (X14_no_exit_no_end ["1"] 3 L H)
           (le_S _ _ (le_S _ _ (le_n 1)))).
Defined.

Lemma lower_char_e (c : ascii) :
  lower_char c = "e"%char <-> c = "e"%char \/ c = "E"%char.
Proof.
  split; [| intros [-> | ->]; reflexivity].
  destruct c as [[|] [|] [|] [|] [|] [|] [|] [|]]; vm_compute; intros H;
    (discriminate H || auto).
Qed.

Lemma lower_char_x (c : ascii) :
  lower_char c = "x"%char <-> c = "x"%char \/ c = "X"%char.
Proof.
  split; [| intros [-> | ->]; reflexivity].
  destruct c as [[|] [|] [|] [|] [|] [|] [|] [|]]; vm_compute; intros H;
    (discriminate H || auto).
Qed.

Lemma lower_char_i (c : ascii) :
  lower_char c = "i"%char <-> c = "i"%char \/ c = "I"%char.
Proof.
  split; [| intros [-> | ->]; reflexivity].
  destruct c as [[|] [|] [|] [|] [|] [|] [|] [|]]; vm_compute; intros H;
    (discriminate H || auto).
Qed.

Lemma lower_char_t (c : ascii) :
  lower_char c = "t"%char <-> c = "t"%char \/ c = "T"%char.
Proof.
  split; [| intros [-> | ->]; reflexivity].
  destruct c as [[|] [|] [|] [|] [|] [|] [|] [|]]; vm_compute; intros H;
    (discriminate H || auto).
Qed.

(** X15. The line that ends the session is the word [exit] with each
    letter in either case, and nothing else: no blank before or after it is
    tolerated, and no other character lowers to one of its letters. *)
Theorem X15_spelling_of_exit (text : string) :
  is_exit text = true <->
  exists a b c d,
    text = String a (String b (String c (String d "")))
    /\ (a = "e" \/ a = "E")%char /\ (b = "x" \/ b = "X")%char
    /\ (c = "i" \/ c = "I")%char /\ (d = "t" \/ d = "T")%char.
Proof.
  unfold is_exit. rewrite String.eqb_eq. split.
  - destruct text as [| a [| b [| c [| d [| e text]]]]]; try discriminate.
    cbn [lower]. intros H. injection H as Ha Hb Hc Hd.
    exists a, b, c, d. split; [reflexivity |].
    rewrite <- lower_char_e, <- lower_char_x, <- lower_char_i,
      <- lower_char_t. auto.
  - intros (a & b & c & d & -> & Ha & Hb & Hc & Hd). cbn [lower].
    apply lower_char_e in Ha. apply lower_char_x in Hb.
    apply lower_char_i in Hc. apply lower_char_t in Hd.
    rewrite Ha, Hb, Hc, Hd. reflexivity.
Qed.

(** * Printing a tree *)

Lemma string_app_assoc (a b c : string) : (a ++ b) ++ c = a ++ b ++ c.
Proof. induction a as [| x a IH]; simpl; [| rewrite IH]; reflexivity. Qed.

Lemma indent_add (a b : nat) : indent (a + b) = indent a ++ indent b.
Proof.
  induction a as [| a IH]; [reflexivity |].
  cbn [Nat.add indent]. rewrite IH. reflexivity.
Qed.

Lemma app_inv_head_string (a x y : string) : a ++ x = a ++ y -> x = y.
Proof.
  induction a as [| c a IH]; simpl; [auto |].
  intros H; injection H as H. exact (IH H).
Qed.

Lemma app_inv_last_char (x y : string) (c : ascii) :
  x ++ String c "" = y ++ String c "" -> x = y.
Proof.
  revert y. induction x as [| a x IH]; intros [| b y]; simpl; intros H;
    try reflexivity.
  - injection H as _ H. destruct y; discriminate H.
  - injection H as _ H. destruct x; discriminate H.
  - injection H as -> H. rewrite (IH y H). reflexivity.
Qed.

Lemma line_inj (level : nat) (x y : string) :
  line level x = line level y -> x = y.
Proof. apply app_inv_head_string. Qed.

Lemma print_ast_lines (t : AST) :
  well_formed t = true ->
  forall level,
  exists ls,
    print_ast t level = Some ls
    /\ 2 * List.length ls + 3 = 5 * size t
    /\ Forall (fun s => exists rest, s = indent level ++ rest) ls.
Proof.
  induction t as [l IHl op r IHr | tok]; cbn [well_formed]; intros Hw level.
  - apply andb_true_iff in Hw. destruct Hw as [Hw Hwr].
    apply andb_true_iff in Hw. destruct Hw as [Hwl _].
    destruct (IHl Hwl (level + 2)) as (ls & El & Ll & Fl).
    destruct (IHr Hwr (level + 2)) as (rs & Er & Lr & Fr).
    cbn [print_ast]. rewrite El, Er. eexists. split; [reflexivity |].
    assert (Hsub : forall xs,
               Forall (fun s => exists rest, s = indent (level + 2) ++ rest) xs ->
               Forall (fun s => exists rest, s = indent level ++ rest) xs).
    { intros xs H. eapply Forall_impl; [| exact H].
      intros s [rest ->]. rewrite indent_add, string_app_assoc. eauto. }
    split.
    + cbn [List.length size]. rewrite List.length_app. cbn [List.length]. lia.
    + repeat (first [ apply Forall_cons; [unfold line; eauto |]
                    | apply Forall_app; split ]); auto.
  - destruct (number_token_eq tok Hw) as (n & -> & _).
    cbn [print_ast Num_value value format_value]. eexists.
    split; [reflexivity |]. split; [reflexivity |].
    apply Forall_cons; [unfold line; eauto | apply Forall_nil].
Qed.

(** X16. [print_ast] prints every tree the parser returns for a line of at
    most [max_line] characters: one line for a number and four more for an
    operation, that is [(5 * size - 3) / 2] lines, each of them indented by
    at least two blanks per level. *)
Theorem X16_print_ast_lines (fuel : nat) (txt : string) (t : AST)
        (p' : Parser) (level : nat) :
  String.length txt <= max_line ->
  parse fuel txt = Ok (t, p') ->
  exists ls,
    print_ast t level = Some ls
    /\ 2 * List.length ls + 3 = 5 * size t
    /\ Forall (fun s => exists rest, s = indent level ++ rest) ls.
Proof.
  intros _ E. apply print_ast_lines.
  exact (parse_well_formed fuel txt t p' E).
Qed.

Lemma X16_print_ast_lines_witness :
  exists ls,
    print_ast (BinOp (Num (mkToken INTEGER (PyInt 1)))
                     (mkToken PLUS (PyStr "+"))
                     (Num (mkToken INTEGER (PyInt 2)))) 0 = Some ls
    /\ 2 * List.length ls + 3 = 5 * 3.
Proof.
  assert (Hl : String.length "1+2" <= max_line)
    by (apply Nat.leb_le; reflexivity).
  destruct (X16_print_ast_lines 5 "1+2" _
              (mkParser (mkLexer "1+2" 3 None) EOF_token) 0 Hl eq_refl)
    as (ls & E & L & _).
  exists ls. split; [exact E | exact L].
Defined.

Lemma str_int_inj (n m : Z) :
  (0 <= n)%Z -> (0 <= m)%Z -> str_int n = str_int m -> n = m.
Proof.
  intros Hn Hm E.
  pose proof (proj2 (proj2 (str_int_decimal n Hn))) as H1.
  pose proof (proj2 (proj2 (str_int_decimal m Hm))) as H2.
  rewrite E in H1. congruence.
Qed.

Lemma TokenType_name_inj (a b : TokenType) :
  TokenType_name a = TokenType_name b -> a = b.
Proof. destruct a, b; simpl; intros H; (reflexivity || discriminate H). Qed.

Lemma operator_by_type (a b : Token) :
  is_operator a = true -> is_operator b = true -> type a = type b -> a = b.
Proof.
  intros Ha Hb E.
  rewrite (proj1 (operator_token_eq a Ha)), (proj1 (operator_token_eq b Hb)), E.
  reflexivity.
Qed.

Lemma print_ast_prefix_free (t1 : AST) :
  well_formed t1 = true ->
  forall t2 level ls1 ls2 (r1 r2 : list string),
    well_formed t2 = true ->
    print_ast t1 level = Some ls1 -> print_ast t2 level = Some ls2 ->
    (ls1 ++ r1 = ls2 ++ r2)%list ->
    t1 = t2 /\ r1 = r2.
Proof.
  induction t1 as [l1 IHl op1 rt1 IHr | tok1]; cbn [well_formed];
    intros Hw1 t2 level ls1 ls2 r1 r2 Hw2 E1 E2 H;
    destruct t2 as [l2 op2 rt2 | tok2]; cbn [well_formed print_ast] in *.
  - apply andb_true_iff in Hw1. destruct Hw1 as [Hw1 Hwr1].
    apply andb_true_iff in Hw1. destruct Hw1 as [Hwl1 Hop1].
    apply andb_true_iff in Hw2. destruct Hw2 as [Hw2 Hwr2].
    apply andb_true_iff in Hw2. destruct Hw2 as [Hwl2 Hop2].
    destruct (print_ast l1 (level + 2)) as [a1 |] eqn:A1; [| discriminate].
    destruct (print_ast rt1 (level + 2)) as [b1 |] eqn:B1; [| discriminate].
    destruct (print_ast l2 (level + 2)) as [a2 |] eqn:A2; [| discriminate].
    destruct (print_ast rt2 (level + 2)) as [b2 |] eqn:B2; [| discriminate].
    injection E1 as <-. injection E2 as <-.
    cbn [app] in H. injection H as H.
    rewrite <- !app_assoc in H. cbn [app] in H.
    destruct (IHl Hwl1 l2 (level + 2) a1 a2 _ _ Hwl2 A1 A2 H) as [-> H'].
    injection H' as Hop H'.
    apply line_inj in Hop. apply (app_inv_head_string "  op: ") in Hop.
    apply TokenType_name_inj in Hop.
    rewrite (operator_by_type op1 op2 Hop1 Hop2 Hop).
    destruct (IHr Hwr1 rt2 (level + 2) b1 b2 _ _ Hwr2 B1 B2 H') as [-> ->].
    auto.
  - destruct (number_token_eq tok2 Hw2) as (n2 & -> & _).
    cbn [Num_value value format_value] in E2. injection E2 as <-.
    destruct (print_ast l1 (level + 2)); [| discriminate].
    destruct (print_ast rt1 (level + 2)); [| discriminate].
    injection E1 as <-. cbn [app] in H. injection H as H _.
    apply line_inj in H. discriminate H.
  - destruct (number_token_eq tok1 Hw1) as (n1 & -> & _).
    cbn [Num_value value format_value] in E1. injection E1 as <-.
    destruct (print_ast l2 (level + 2)); [| discriminate].
    destruct (print_ast rt2 (level + 2)); [| discriminate].
    injection E2 as <-. cbn [app] in H. injection H as H _.
    apply line_inj in H. discriminate H.
  - destruct (number_token_eq tok1 Hw1) as (n1 & -> & Hn1).
    destruct (number_token_eq tok2 Hw2) as (n2 & -> & Hn2).
    cbn [Num_value value format_value] in *.
    injection E1 as <-. injection E2 as <-. cbn [app] in H.
    injection H as H ->. split; [| reflexivity].
    apply line_inj in H. apply (app_inv_head_string "Num(") in H.
    apply app_inv_last_char in H.
    rewrite (str_int_inj n1 n2 Hn1 Hn2 H). reflexivity.
Qed.

(** X17. The printout of a tree loses nothing: two trees of the shape the
    parser builds that [print_ast] prints alike, at one level, are the same
    tree. *)
Theorem X17_print_ast_injective (t1 t2 : AST) (level : nat)
        (ls : list string) :
  well_formed t1 = true -> well_formed t2 = true ->
  print_ast t1 level = Some ls -> print_ast t2 level = Some ls ->
  t1 = t2.
Proof.
  intros H1 H2 E1 E2.
  exact (proj1 (print_ast_prefix_free t1 H1 t2 level ls ls [] [] H2 E1 E2
                  eq_refl)).
Qed.

Lemma X17_print_ast_injective_witness :
  Num (mkToken INTEGER (PyInt 7)) = Num (mkToken INTEGER (PyInt 7)).
Proof.
  exact (X17_print_ast_injective
           (Num (mkToken INTEGER (PyInt 7))) (Num (mkToken INTEGER (PyInt 7)))
           1 ["  Num(7)"] eq_refl eq_refl eq_refl eq_refl).
Defined.

(** * The parser follows its grammar *)

Lemma term_of_reads (s : string) (t : AST) (fuel : nat) (txt : string)
      (p : Parser) (tok : Token) (s1 rest : string) (tokR : Token)
      (sR : string) :
  term_reads s t ->
  starts_nondigit rest -> next_token rest = Ok (tokR, sR) ->
  multiplicative (type tokR) = false ->
  next_token (s ++ rest) = Ok (tok, s1) -> stands txt p tok s1 ->
  returns (term fuel p) (gives txt t tokR sR).
Proof.
  intros H Hrest Hnt Hm Hfirst Hst. unfold term, term_body.
  apply (H fuel txt p tok s1 rest tokR sR fuel _ Hrest Hnt Hfirst Hst).
  intros n' p' Hp'.
  rewrite term_loop_exit by (rewrite (stands_token _ _ _ _ Hp'); exact Hm).
  apply returns_ok. split; auto.
Qed.

Lemma expr_of_reads (s : string) (t : AST) (fuel : nat) (txt : string)
      (p : Parser) (tok : Token) (s1 rest : string) (tokR : Token)
      (sR : string) :
  expr_reads s t ->
  starts_nondigit rest -> next_token rest = Ok (tokR, sR) ->
  multiplicative (type tokR) = false -> additive (type tokR) = false ->
  next_token (s ++ rest) = Ok (tok, s1) -> stands txt p tok s1 ->
  returns (expr (S fuel) p) (gives txt t tokR sR).
Proof.
  intros H Hrest Hnt Hm Ha Hfirst Hst. cbn [expr]. unfold expr_body.
  apply (H fuel txt p tok s1 rest tokR sR fuel _ Hrest Hnt Hm Hfirst Hst).
  intros n' p' Hp'.
  rewrite expr_loop_exit by (rewrite (stands_token _ _ _ _ Hp'); exact Ha).
  apply returns_ok. split; auto.
Qed.

Lemma reads_number (ds : string) :
  literal ds -> factor_reads ds (Num (number ds)).
Proof.
  intros Hl fuel txt p tok s1 rest tokR sR Hrest Hnt Hfirst Hst.
  rewrite (next_token_literal ds rest Hl Hrest) in Hfirst.
  injection Hfirst as <- <-.
  exact (factor_number_returns fuel txt p _ rest tokR sR Hst Hnt).
Qed.

Lemma reads_parenthesis (s : string) (t : AST) :
  begins s -> expr_reads s t -> factor_reads (String "(" (s ++ ")")) t.
Proof.
  intros Hb He fuel txt p tok s1 rest tokR sR Hrest Hnt Hfirst Hst.
  cbn [append] in Hfirst. rewrite string_app_assoc in Hfirst.
  cbn [append] in Hfirst.
  set (rest_r := String ")" rest) in *.
  assert (E1 : next_token (String "(" (s ++ rest_r))
               = Ok (mkToken LPAREN (PyStr "("), s ++ rest_r))
    by reflexivity.
  rewrite E1 in Hfirst. injection Hfirst as <- <-.
  assert (Hrr : starts_nondigit rest_r) by reflexivity.
  assert (Hntr : next_token rest_r = Ok (mkToken RPAREN (PyStr ")"), rest))
    by reflexivity.
  destruct (Hb rest_r Hrr) as (t1 & sx & Hf1).
  apply (factor_parenthesis fuel txt p _ t1 sx t rest tokR sR Hst Hf1);
    [| exact Hnt].
  intros p1 Hp1. destruct fuel as [| f]; [apply returns_oof |].
  exact (expr_of_reads s t f txt p1 t1 sx rest_r _ rest He Hrr Hntr
           eq_refl eq_refl Hf1 Hp1).
Qed.

Lemma reads_factor (s : string) (t : AST) : factor_reads s t -> term_reads s t.
Proof.
  intros H fuel txt p tok s1 rest tokR sR n Q Hrest Hnt Hfirst Hst Hk.
  eapply returns_bind;
    [exact (H fuel txt p tok s1 rest tokR sR Hrest Hnt Hfirst Hst) |].
  intros [a p1] [Ha Hp]. cbn [fst snd] in *. subst a. apply Hk. exact Hp.
Qed.

Lemma reads_term (s : string) (t : AST) : term_reads s t -> expr_reads s t.
Proof.
  intros H fuel txt p tok s1 rest tokR sR n Q Hrest Hnt Hm Hfirst Hst Hk.
  eapply returns_bind;
    [exact (term_of_reads s t fuel txt p tok s1 rest tokR sR H Hrest Hnt Hm
              Hfirst Hst) |].
  intros [a p1] [Ha Hp]. cbn [fst snd] in *. subst a. apply Hk. exact Hp.
Qed.

Lemma operator_starts_nondigit (o : ascii) (s : string) :
  In o ["+"; "-"; "*"; "/"]%char -> starts_nondigit (String o s).
Proof.
  simpl. intros [<- | [<- | [<- | [<- | []]]]]; reflexivity.
Qed.

Lemma reads_product (s1 : string) (l : AST) (o : ascii) (s2 : string)
      (r : AST) :
  term_reads s1 l -> In o ["*"; "/"]%char -> begins s2 -> factor_reads s2 r ->
  term_reads (s1 ++ String o s2) (BinOp l (operator_token o) r).
Proof.
  intros Hl Ho Hb Hr fuel txt p tok sx rest tokR sR n Q Hrest Hnt Hfirst Hst
         Hk.
  rewrite string_app_assoc in Hfirst. cbn [append] in Hfirst.
  set (rest_l := String o (s2 ++ rest)) in *.
  assert (Hin : In o ["+"; "-"; "*"; "/"]%char)
    by (simpl in Ho |- *; tauto).
  assert (Hm : multiplicative (type (operator_token o)) = true)
    by (simpl in Ho; destruct Ho as [<- | [<- | []]]; reflexivity).
  pose proof (operator_starts_nondigit o (s2 ++ rest) Hin) as Hrl.
  pose proof (next_token_operator o (s2 ++ rest) Hin) as Hntl.
  destruct (Hb rest Hrest) as (tr & sr & Hfr).
  apply (Hl fuel txt p tok sx rest_l _ _ n Q Hrl Hntl Hfirst Hst).
  intros n' p' Hp'. pose proof (stands_token _ _ _ _ Hp') as Hc.
  destruct n' as [| m].
  { cbn [term_loop]. rewrite Hc. unfold multiplicative in Hm. rewrite Hm.
    apply returns_oof. }
  rewrite (term_loop_step fuel (expr fuel) (S m) l p' ltac:(lia))
    by (rewrite Hc; exact Hm).
  rewrite Hc. cbn [Nat.pred].
  eapply returns_bind; [exact (eat_returns fuel txt p' _ _ tr sr Hp' Hfr) |].
  intros p3 Hp3. cbn beta.
  eapply returns_bind;
    [exact (Hr fuel txt p3 tr sr rest tokR sR Hrest Hnt Hfr Hp3) |].
  intros [b p4] [Hb' Hp4]. cbn [fst snd] in *. subst b.
  apply Hk. exact Hp4.
Qed.

Lemma reads_sum (s1 : string) (l : AST) (o : ascii) (s2 : string) (r : AST) :
  expr_reads s1 l -> In o ["+"; "-"]%char -> begins s2 -> term_reads s2 r ->
  expr_reads (s1 ++ String o s2) (BinOp l (operator_token o) r).
Proof.
  intros Hl Ho Hb Hr fuel txt p tok sx rest tokR sR n Q Hrest Hnt HmR Hfirst
         Hst Hk.
  rewrite string_app_assoc in Hfirst. cbn [append] in Hfirst.
  set (rest_l := String o (s2 ++ rest)) in *.
  assert (Hin : In o ["+"; "-"; "*"; "/"]%char)
    by (simpl in Ho |- *; tauto).
  assert (Ha : additive (type (operator_token o)) = true)
    by (simpl in Ho; destruct Ho as [<- | [<- | []]]; reflexivity).
  assert (Hm : multiplicative (type (operator_token o)) = false)
    by (simpl in Ho; destruct Ho as [<- | [<- | []]]; reflexivity).
  pose proof (operator_starts_nondigit o (s2 ++ rest) Hin) as Hrl.
  pose proof (next_token_operator o (s2 ++ rest) Hin) as Hntl.
  destruct (Hb rest Hrest) as (tr & sr & Hfr).
  apply (Hl fuel txt p tok sx rest_l _ _ n Q Hrl Hntl Hm Hfirst Hst).
  intros n' p' Hp'. pose proof (stands_token _ _ _ _ Hp') as Hc.
  destruct n' as [| m].
  { cbn [expr_loop]. rewrite Hc. unfold additive in Ha. rewrite Ha.
    apply returns_oof. }
  rewrite (expr_loop_step fuel (expr fuel) (S m) l p' ltac:(lia))
    by (rewrite Hc; exact Ha).
  rewrite Hc. cbn [Nat.pred].
  eapply returns_bind; [exact (eat_returns fuel txt p' _ _ tr sr Hp' Hfr) |].
  intros p3 Hp3. cbn beta.
  eapply returns_bind;
    [exact (term_of_reads s2 r fuel txt p3 tr sr rest tokR sR Hr Hrest Hnt
              HmR Hfr Hp3) |].
  intros [b p4] [Hb' Hp4]. cbn [fst snd] in *. subst b.
  apply Hk. exact Hp4.
Qed.

Lemma begins_app (s1 : string) (o : ascii) (s2 : string) :
  begins s1 -> In o ["+"; "-"; "*"; "/"]%char -> begins (s1 ++ String o s2).
Proof.
  intros H Ho rest Hrest. rewrite string_app_assoc. cbn [append].
  apply H. apply operator_starts_nondigit. exact Ho.
Qed.

Lemma derives_begins (lv : level) (s : string) (t : AST) :
  derives lv s t -> begins s.
Proof.
  induction 1 as [ds Hl | s t _ _ | s t _ IH | s1 l o s2 r _ IH1 Ho _ _
                  | s t _ IH | s1 l o s2 r _ IH1 Ho _ _].
  - intros rest Hrest. rewrite (next_token_literal ds rest Hl Hrest). eauto.
  - intros rest _. do 2 eexists. reflexivity.
  - exact IH.
  - apply begins_app; [exact IH1 | simpl in Ho |- *; tauto].
  - exact IH.
  - apply begins_app; [exact IH1 | simpl in Ho |- *; tauto].
Qed.

Lemma derives_nonempty (lv : level) (s : string) (t : AST) :
  derives lv s t -> s <> "".
Proof.
  induction 1 as [ds [Hl _] | s t _ _ | s t _ IH | s1 l o s2 r _ _ _ _ _
                  | s t _ IH | s1 l o s2 r _ _ _ _ _];
    try assumption; try discriminate;
    destruct s1; discriminate.
Qed.

Lemma derives_reads (lv : level) (s : string) (t : AST) :
  derives lv s t -> reads lv s t.
Proof.
  induction 1 as [ds Hl | s t H IH | s t _ IH | s1 l o s2 r _ IH1 Ho H2 IH2
                  | s t _ IH | s1 l o s2 r _ IH1 Ho H2 IH2];
    cbn [reads] in *.
  - apply reads_number. exact Hl.
  - apply reads_parenthesis; [exact (derives_begins _ _ _ H) | exact IH].
  - apply reads_factor. exact IH.
  - apply reads_product; auto. exact (derives_begins _ _ _ H2).
  - apply reads_term. exact IH.
  - apply reads_sum; auto. exact (derives_begins _ _ _ H2).
Qed.

Lemma derives_expr (lv : level) (s : string) (t : AST) :
  derives lv s t -> derives AtExpr s t.
Proof.
  intros H. destruct lv; [exact H | |];
    repeat first [exact H | apply derives_term | apply derives_factor].
Qed.

Lemma parse_derives (s : string) (t : AST) (fuel : nat) :
  derives AtExpr s t -> returns (parse fuel s) (gives s t EOF_token "").
Proof.
  intros H. pose proof (derives_nonempty _ _ _ H) as Hne.
  destruct (derives_begins _ _ _ H "" I) as (tok & s1 & Hfirst).
  unfold parse. rewrite (Lexer_init_at _ Hne). cbn [bind].
  eapply returns_bind.
  { apply (Parser_init_returns fuel s tok s1).
    rewrite append_empty_r in Hfirst. exact Hfirst. }
  intros p Hp. cbn beta. destruct fuel as [| f]; [apply returns_oof |].
  exact (expr_of_reads s t f s p tok s1 "" EOF_token ""
           (derives_reads _ _ _ H) I eq_refl eq_refl eq_refl Hfirst Hp).
Qed.

(** X18. The parser follows its grammar: a line of at most [max_line]
    characters, written without spaces, that is an expression of the grammar
    (factor: number or parenthesised expression; term: factors joined to the
    left by [*] and [/]; expression: terms joined to the left by [+] and
    [-]) parses to the tree of its derivation, up to the end of the line,
    and evaluates to what that tree evaluates to. *)
Theorem X18_parser_follows_grammar (s : string) (t : AST) (fuel : nat) :
  derives AtExpr s t -> String.length s <= max_line -> fuel_bound s <= fuel ->
  (exists p', parse fuel s = Ok (t, p') /\ current_token p' = EOF_token)
  /\ evaluate fuel s = visit t.
Proof.
  intros H _ Hf.
  destruct (parse_derives s t fuel H (parse_ends fuel _ Hf))
    as ([t' p'] & E & Ht & Hp).
  cbn [fst snd] in *. subst t'.
  split; [exists p'; split; [exact E | apply Hp] |].
  rewrite evaluate_as_parse, E. reflexivity.
Qed.

Lemma X18_parser_follows_grammar_witness :
  evaluate 11 "8-(2-1)*3"
  = visit (BinOp (Num (number "8")) (operator_token "-")
                 (BinOp (BinOp (Num (number "2")) (operator_token "-")
                               (Num (number "1")))
                        (operator_token "*") (Num (number "3")))).
Proof.
  assert (D : derives AtExpr "8-(2-1)*3"
                (BinOp (Num (number "8")) (operator_token "-")
                   (BinOp (BinOp (Num (number "2")) (operator_token "-")
                                 (Num (number "1")))
                          (operator_token "*") (Num (number "3"))))).
  { apply (derives_sum "8" _ "-" "(2-1)*3");
      [apply derives_term, derives_factor, derives_number; split;
         [discriminate | split; [reflexivity | apply Z.leb_le; reflexivity]]
      | simpl; auto |].
    apply (derives_product "(2-1)" _ "*" "3");
      [apply derives_factor | simpl; auto
      | apply derives_number; split;
         [discriminate | split; [reflexivity | apply Z.leb_le; reflexivity]]].
    apply (derives_parenthesis "2-1").
    apply (derives_sum "2" _ "-" "1");
      [apply derives_term, derives_factor, derives_number; split;
         [discriminate | split; [reflexivity | apply Z.leb_le; reflexivity]]
      | simpl; auto
      | apply derives_factor, derives_number; split;
         [discriminate | split; [reflexivity | apply Z.leb_le; reflexivity]]]. }
  assert (Hf : fuel_bound "8-(2-1)*3" <= 11).
  { vm_compute. apply le_n. }
  assert (Hl : String.length "8-(2-1)*3" <= max_line)
    by (apply Nat.leb_le; reflexivity).
  exact (proj2 (X18_parser_follows_grammar _ _ 11 D Hl Hf)).
Defined.

(** * Writing a tree with the parentheses it needs *)

Lemma derives_level (lv ctx : level) (s : string) (t : AST) :
  derives lv s t -> fits lv ctx = true -> derives ctx s t.
Proof.
  intros H. destruct ctx, lv; cbn [fits]; intros F; try discriminate F;
    repeat first [exact H | apply derives_term | apply derives_factor].
Qed.

Lemma derives_enclosed (lv ctx : level) (s : string) (t : AST) :
  derives lv s t -> derives ctx (String "(" (s ++ ")")) t.
Proof.
  intros H. apply (derives_level AtFactor); [| destruct ctx; reflexivity].
  apply derives_parenthesis. exact (derives_expr _ _ _ H).
Qed.

Lemma operator_level (op : Token) :
  is_operator op = true ->
  if additive (type op)
  then In (operator_char (type op)) ["+"; "-"]%char
  else In (operator_char (type op)) ["*"; "/"]%char.
Proof.
  destruct op as [t v]. unfold is_operator; cbn [type].
  destruct t; try discriminate; intros _; simpl; auto.
Qed.

Lemma longest_number_write (t : AST) :
  forall ctx, longest_number t <= String.length (write ctx t).
Proof.
  induction t as [l IHl op r IHr | tok]; intros ctx;
    cbn [longest_number write].
  - pose proof (IHl (binding op)) as Hl.
    pose proof (IHr (tighter (binding op))) as Hr.
    destruct (fits (binding op) ctx); cbn [String.length];
      repeat (rewrite length_app; cbn [String.length]); lia.
  - destruct (value tok); cbn [String.length]; lia.
Qed.

Lemma write_derives (t : AST) :
  well_formed t = true ->
  (Z.of_nat (longest_number t) <= int_max_str_digits)%Z ->
  forall ctx, derives ctx (write ctx t) t.
Proof.
  induction t as [l IHl op r IHr | tk]; cbn [well_formed write];
    intros Hw Hcap ctx.
  - apply andb_true_iff in Hw. destruct Hw as [Hw Hwr].
    apply andb_true_iff in Hw. destruct Hw as [Hwl Hop].
    cbn [longest_number] in Hcap.
    specialize (IHl Hwl ltac:(lia)). specialize (IHr Hwr ltac:(lia)).
    destruct (operator_token_eq op Hop) as [Eop _].
    pose proof (operator_level op Hop) as Hlv.
    assert (D : derives (binding op)
                  (write (binding op) l
                   ++ String (operator_char (type op))
                             (write (tighter (binding op)) r))
                  (BinOp l op r)).
    { replace (BinOp l op r)
        with (BinOp l (operator_token (operator_char (type op))) r)
        by (rewrite <- Eop; reflexivity).
      unfold binding. destruct (additive (type op)); cbn [tighter].
      - apply derives_sum; auto.
      - apply derives_product; auto. }
    destruct (fits (binding op) ctx) eqn:F.
    + exact (derives_level _ ctx _ _ D F).
    + exact (derives_enclosed _ ctx _ _ D).
  - destruct (number_token_eq tk Hw) as (n & -> & Hn).
    cbn [value longest_number] in *.
    destruct (str_int_literal n Hn Hcap) as [Hl Hv].
    apply (derives_level AtFactor); [| destruct ctx; reflexivity].
    assert (E : mkToken INTEGER (PyInt n) = number (str_int n))
      by (unfold number, literal_value; rewrite Hv; reflexivity).
    rewrite E. apply derives_number. exact Hl.
Qed.

(** X19. Parsing undoes writing with the least parentheses: a tree of the
    shape the parser builds, written with its left operands bare at the
    level of their operation, its right operands bare only when they bind
    tighter, and parentheses around the others, parses back to that very
    tree and evaluates to what the tree evaluates to, when the line has at
    most [max_line] characters. *)
Theorem X19_parse_write (t : AST) (ctx : level) (fuel : nat) :
  well_formed t = true -> String.length (write ctx t) <= max_line ->
  fuel_bound (write ctx t) <= fuel ->
  (exists p', parse fuel (write ctx t) = Ok (t, p')
              /\ current_token p' = EOF_token)
  /\ evaluate fuel (write ctx t) = visit t.
Proof.
  intros Hw Hlen Hf.
  assert (Hcap : (Z.of_nat (longest_number t) <= int_max_str_digits)%Z).
  { apply max_line_digits. pose proof (longest_number_write t ctx). lia. }
  pose proof (derives_expr _ _ _ (write_derives t Hw Hcap ctx)) as D.
  destruct (parse_derives _ t fuel D (parse_ends fuel _ Hf))
    as ([t' p'] & E & Ht & Hp).
  cbn [fst snd] in *. subst t'.
  split; [exists p'; split; [exact E | apply Hp] |].
  rewrite evaluate_as_parse, E. reflexivity.
Qed.

Lemma X19_parse_write_witness :
  evaluate 11 "8-(2-1)*3"
  = visit (BinOp (Num (mkToken INTEGER (PyInt 8))) (mkToken MINUS (PyStr "-"))
                 (BinOp (BinOp (Num (mkToken INTEGER (PyInt 2)))
                               (mkToken MINUS (PyStr "-"))
                               (Num (mkToken INTEGER (PyInt 1))))
                        (mkToken MUL (PyStr "*"))
                        (Num (mkToken INTEGER (PyInt 3))))).
Proof.
  assert (Hl : String.length "8-(2-1)*3" <= max_line)
    by (apply Nat.leb_le; reflexivity).
  assert (Hf : fuel_bound "8-(2-1)*3" <= 11).
  { vm_compute. apply le_n. }
  exact (proj2 (X19_parse_write
                  (BinOp (Num (mkToken INTEGER (PyInt 8)))
                         (mkToken MINUS (PyStr "-"))
                         (BinOp (BinOp (Num (mkToken INTEGER (PyInt 2)))
                                       (mkToken MINUS (PyStr "-"))
                                       (Num (mkToken INTEGER (PyInt 1))))
                                (mkToken MUL (PyStr "*"))
                                (Num (mkToken INTEGER (PyInt 3)))))
                  AtExpr 11 eq_refl Hl Hf)).
Defined.

(** * What the parser accepts is in its grammar *)

Lemma spaceless_skip (s : string) : spaceless s = true -> skip_spaces s = s.
Proof.
  destruct s as [| c s]; [reflexivity |]. unfold spaceless; simpl.
  intros H. apply andb_true_iff in H. destruct H as [H _].
  apply negb_true_iff in H. rewrite H. reflexivity.
Qed.

Lemma span_digits_eq (s : string) :
  s = fst (span_digits s) ++ snd (span_digits s).
Proof.
  induction s as [| c s IH]; [reflexivity |]. cbn [span_digits].
  destruct (isdigit c); [| reflexivity].
  destruct (span_digits s) as [ds rest]. cbn [fst snd append] in *.
  rewrite <- IH. reflexivity.
Qed.

Lemma span_digits_spaceless (s : string) :
  spaceless s = true -> spaceless (snd (span_digits s)) = true.
Proof.
  unfold spaceless. induction s as [| c s IH]; [reflexivity |].
  cbn [span_digits all_chars]. intros H.
  destruct (isdigit c); [| exact H].
  apply andb_true_iff in H. destruct H as [_ H].
  destruct (span_digits s) as [ds rest]. cbn [snd] in *. exact (IH H).
Qed.

Lemma int_literal (ds : string) (n : Z) :
  int ds = Ok n -> literal ds /\ mkToken INTEGER (PyInt n) = number ds.
Proof.
  intros E. unfold literal, number, literal_value.
  destruct (int_cases ds) as [(m & Em & Ed & Hne & Hc) | Em];
    rewrite Em in E; [| discriminate].
  injection E as <-. rewrite Ed.
  split; [| reflexivity]. split; [exact Hne |]. split; [| exact Hc].
  destruct (all_chars is_decimal ds) eqn:Hd; [reflexivity |].
  rewrite (int_digits_nondecimal ds 0%Z Hd) in Ed. discriminate.
Qed.

(** The first token of a text without whitespace and the characters it is
    made of. *)
Lemma next_token_lexeme (s0 : string) (tok : Token) (s1 : string) :
  spaceless s0 = true -> next_token s0 = Ok (tok, s1) ->
  spaceless s1 = true
  /\ match type tok with
     | INTEGER => exists ds, literal ds /\ tok = number ds /\ s0 = ds ++ s1
     | EOF => s0 = ""
     | LPAREN => s0 = String "(" s1
     | RPAREN => s0 = String ")" s1
     | _ => s0 = String (operator_char (type tok)) s1
            /\ tok = operator_token (operator_char (type tok))
     end.
Proof.
  intros Hs. unfold next_token. rewrite (spaceless_skip s0 Hs).
  destruct s0 as [| c s'];
    [intros E; injection E as <- <-; split; reflexivity |].
  destruct (isdigit c) eqn:Hc.
  - pose proof (span_digits_eq (String c s')) as He.
    pose proof (span_digits_spaceless _ Hs) as Hr.
    destruct (span_digits (String c s')) as [ds r]. cbn [fst snd] in *.
    destruct (int ds) as [n | e |] eqn:Ei; cbn [bind]; try discriminate.
    intros E; injection E as <- <-. split; [exact Hr |]. cbn [type].
    destruct (int_literal ds n Ei) as [Hl Hn]. exists ds. auto.
  - assert (Hs' : spaceless s' = true).
    { unfold spaceless in Hs |- *. simpl in Hs.
      apply andb_true_iff in Hs. tauto. }
    destruct (Ascii.eqb_spec c "+");
      [subst c; intros E; injection E as <- <-; cbn [type]; auto |].
    destruct (Ascii.eqb_spec c "-");
      [subst c; intros E; injection E as <- <-; cbn [type]; auto |].
    destruct (Ascii.eqb_spec c "*");
      [subst c; intros E; injection E as <- <-; cbn [type]; auto |].
    destruct (Ascii.eqb_spec c "/");
      [subst c; intros E; injection E as <- <-; cbn [type]; auto |].
    destruct (Ascii.eqb_spec c "(");
      [subst c; intros E; injection E as <- <-; cbn [type]; auto |].
    destruct (Ascii.eqb_spec c ")");
      [subst c; intros E; injection E as <- <-; cbn [type]; auto |].
    discriminate.
Qed.

Lemma eat_at_token (txt : string) (f : nat) (ty : TokenType) (p p' : Parser)
      (s0 : string) :
  at_token txt p s0 -> eat f ty p = Ok p' ->
  type (current_token p) = ty
  /\ exists s1, next_token s0 = Ok (current_token p, s1)
                /\ at_token txt p' s1.
Proof.
  intros (Hs & s1 & Hnt & _ & k & Hl & Hd). unfold eat.
  destruct (TokenType_eqb (type (current_token p)) ty) eqn:Ht;
    [| discriminate].
  apply TokenType_eqb_eq in Ht. rewrite Hl. intros E. inv_bind E.
  destruct a as [tok l']. injection E as <-.
  destruct (get_next_token_ok_pure f txt k tok l' E0) as (k' & -> & Hnt').
  rewrite Hd in Hnt'.
  split; [exact Ht |]. exists s1. split; [exact Hnt |].
  split; [exact (proj1 (next_token_lexeme s0 _ s1 Hs Hnt)) |].
  exists (drop k' txt). cbn [current_token lexer]. split; [exact Hnt' |].
  split; [reflexivity |]. exists k'. auto.
Qed.

Lemma at_token_operator (txt : string) (p : Parser) (s0 s1 : string) :
  spaceless s0 = true -> next_token s0 = Ok (current_token p, s1) ->
  additive (type (current_token p)) || multiplicative (type (current_token p))
  = true ->
  s0 = String (operator_char (type (current_token p))) s1
  /\ current_token p = operator_token (operator_char (type (current_token p))).
Proof.
  intros Hs Hnt Hop.
  destruct (next_token_lexeme s0 _ s1 Hs Hnt) as [_ H].
  destruct (type (current_token p)); try discriminate Hop; exact H.
Qed.

Section ProductionsPhrase.
Variable txt : string.
Variable f : nat.
Variable rec : Parser -> outcome (AST * Parser).
Hypothesis rec_phrase :
  forall p s0 r, at_token txt p s0 -> rec p = Ok r -> phrase AtExpr txt s0 r.

Lemma factor_phrase (p : Parser) (s0 : string) (r : AST * Parser) :
  at_token txt p s0 -> factor_body f rec p = Ok r -> phrase AtFactor txt s0 r.
Proof.
  intros Hp. unfold factor_body.
  destruct (TokenType_eqb (type (current_token p)) INTEGER) eqn:Hi.
  - intros E. inv_bind E. injection E as <-.
    destruct (eat_at_token txt f _ p a s0 Hp E0) as (Ht & s1 & Hnt & Ha).
    destruct (next_token_lexeme s0 _ s1 (proj1 Hp) Hnt) as [_ Hx].
    rewrite Ht in Hx. destruct Hx as (ds & Hl & Hn & Hs0).
    exists ds, s1. cbn [fst snd]. split; [exact Hs0 |].
    split; [rewrite Hn; apply derives_number; exact Hl | exact Ha].
  - destruct (TokenType_eqb (type (current_token p)) LPAREN) eqn:Hlp;
      [| discriminate].
    intros E. inv_bind E. inv_bind E. destruct a0 as [node p2].
    inv_bind E. injection E as <-.
    destruct (eat_at_token txt f _ p a s0 Hp E0) as (Ht & s1 & Hnt & Ha).
    destruct (next_token_lexeme s0 _ s1 (proj1 Hp) Hnt) as [_ Hx].
    rewrite Ht in Hx.
    destruct (rec_phrase a s1 _ Ha E1) as (c & s2 & Hs1 & Hd & Hp2).
    cbn [fst snd] in *.
    destruct (eat_at_token txt f _ p2 a0 s2 Hp2 E2) as (Ht2 & s3 & Hnt2 & Ha0).
    destruct (next_token_lexeme s2 _ s3 (proj1 Hp2) Hnt2) as [_ Hy].
    rewrite Ht2 in Hy.
    exists (String "(" (c ++ ")")), s3. split.
    + rewrite Hx, Hs1, Hy. cbn [append]. rewrite string_app_assoc.
      reflexivity.
    + split; [apply derives_parenthesis; exact Hd | exact Ha0].
Qed.

Lemma term_loop_phrase (n : nat) :
  forall node p sS c s0 r,
    derives AtTerm c node -> sS = c ++ s0 -> at_token txt p s0 ->
    term_loop f rec n node p = Ok r -> phrase AtTerm txt sS r.
Proof.
  induction n as [| n IH]; intros node p sS c s0 r Hd HS Hp E;
    destruct (multiplicative (type (current_token p))) eqn:Hm.
  - cbn [term_loop] in E. unfold multiplicative in Hm. rewrite Hm in E.
    discriminate.
  - rewrite term_loop_exit in E by exact Hm. injection E as <-.
    exists c, s0. auto.
  - rewrite (term_loop_step f rec (S n) node p ltac:(lia) Hm) in E.
    cbn [Nat.pred] in E. inv_bind E. inv_bind E. destruct a0 as [right_ p2].
    destruct (eat_at_token txt f _ p a s0 Hp E0) as (_ & s1 & Hnt & Ha).
    destruct (at_token_operator txt p s0 s1 (proj1 Hp) Hnt
                ltac:(rewrite Hm; apply orb_true_r)) as [Hs0 Hop].
    destruct (factor_phrase a s1 _ Ha E1) as (cr & s2 & Hs1 & Hdr & Hp2).
    cbn [fst snd] in *.
    set (o := operator_char (type (current_token p))) in *.
    apply (IH (BinOp node (current_token p) right_) p2 sS
             (c ++ String o cr) s2 r); [| | exact Hp2 | exact E].
    + rewrite Hop. apply derives_product; [exact Hd | | exact Hdr].
      unfold o. unfold multiplicative in Hm.
      destruct (type (current_token p)); try discriminate Hm; simpl; auto.
    + rewrite HS, Hs0, Hs1, string_app_assoc. reflexivity.
  - rewrite term_loop_exit in E by exact Hm. injection E as <-.
    exists c, s0. auto.
Qed.

Lemma term_phrase (p : Parser) (s0 : string) (r : AST * Parser) :
  at_token txt p s0 -> term_body f rec p = Ok r -> phrase AtTerm txt s0 r.
Proof.
  intros Hp E. unfold term_body in E. inv_bind E. destruct a as [node p1].
  destruct (factor_phrase p s0 _ Hp E0) as (c & s1 & Hs0 & Hd & Hp1).
  cbn [fst snd] in *.
  exact (term_loop_phrase f node p1 s0 c s1 r (derives_factor _ _ Hd) Hs0
           Hp1 E).
Qed.

Lemma expr_loop_phrase (n : nat) :
  forall node p sS c s0 r,
    derives AtExpr c node -> sS = c ++ s0 -> at_token txt p s0 ->
    expr_loop f rec n node p = Ok r -> phrase AtExpr txt sS r.
Proof.
  induction n as [| n IH]; intros node p sS c s0 r Hd HS Hp E;
    destruct (additive (type (current_token p))) eqn:Hm.
  - cbn [expr_loop] in E. unfold additive in Hm. rewrite Hm in E.
    discriminate.
  - rewrite expr_loop_exit in E by exact Hm. injection E as <-.
    exists c, s0. auto.
  - rewrite (expr_loop_step f rec (S n) node p ltac:(lia) Hm) in E.
    cbn [Nat.pred] in E. inv_bind E. inv_bind E. destruct a0 as [right_ p2].
    destruct (eat_at_token txt f _ p a s0 Hp E0) as (_ & s1 & Hnt & Ha).
    destruct (at_token_operator txt p s0 s1 (proj1 Hp) Hnt
                ltac:(rewrite Hm; reflexivity)) as [Hs0 Hop].
    destruct (term_phrase a s1 _ Ha E1) as (cr & s2 & Hs1 & Hdr & Hp2).
    cbn [fst snd] in *.
    set (o := operator_char (type (current_token p))) in *.
    apply (IH (BinOp node (current_token p) right_) p2 sS
             (c ++ String o cr) s2 r); [| | exact Hp2 | exact E].
    + rewrite Hop. apply derives_sum; [exact Hd | | exact Hdr].
      unfold o. unfold additive in Hm.
      destruct (type (current_token p)); try discriminate Hm; simpl; auto.
    + rewrite HS, Hs0, Hs1, string_app_assoc. reflexivity.
  - rewrite expr_loop_exit in E by exact Hm. injection E as <-.
    exists c, s0. auto.
Qed.

Lemma expr_body_phrase (p : Parser) (s0 : string) (r : AST * Parser) :
  at_token txt p s0 -> expr_body f rec p = Ok r -> phrase AtExpr txt s0 r.
Proof.
  intros Hp E. unfold expr_body in E. inv_bind E. destruct a as [node p1].
  destruct (term_phrase p s0 _ Hp E0) as (c & s1 & Hs0 & Hd & Hp1).
  cbn [fst snd] in *.
  exact (expr_loop_phrase f node p1 s0 c s1 r (derives_term _ _ Hd) Hs0
           Hp1 E).
Qed.
End ProductionsPhrase.

Lemma expr_phrase (txt : string) (fuel : nat) :
  forall p s0 r, at_token txt p s0 -> expr fuel p = Ok r ->
                 phrase AtExpr txt s0 r.
Proof.
  induction fuel as [| f IH]; intros p s0 r Hp E; [discriminate |].
  cbn [expr] in E. exact (expr_body_phrase txt f (expr f) IH p s0 r Hp E).
Qed.

Lemma Parser_init_at_token (fuel : nat) (txt : string) (p : Parser) :
  spaceless txt = true -> Parser_init fuel (at_pos txt 0) = Ok p ->
  at_token txt p txt.
Proof.
  intros Hs E. unfold Parser_init in E. inv_bind E.
  destruct a as [tok l']. injection E as <-.
  destruct (get_next_token_ok_pure fuel txt 0 tok l' E0) as (k' & -> & Hnt).
  change (drop 0 txt) with txt in Hnt.
  split; [exact Hs |]. exists (drop k' txt). cbn [current_token lexer].
  split; [exact Hnt |]. split; [reflexivity |]. exists k'. auto.
Qed.

Lemma at_token_end (txt : string) (p : Parser) (s0 : string) :
  at_token txt p s0 -> (s0 = "" <-> current_token p = EOF_token).
Proof.
  intros (Hs & s1 & Hnt & _). split.
  - intros ->. simpl in Hnt. injection Hnt as <- _. reflexivity.
  - intros E. destruct (next_token_lexeme s0 _ s1 Hs Hnt) as [_ H].
    rewrite E in H. exact H.
Qed.

(** X20. Nothing outside the grammar is accepted: when the parser returns
    a tree for a line without whitespace, the line begins with an expression
    of the grammar whose tree is the one returned; what follows that
    expression is left unread, and it is empty exactly when the parser
    stopped at the end of the line. *)
Theorem X20_parsed_line_in_grammar (fuel : nat) (txt : string) (t : AST)
        (p' : Parser) :
  spaceless txt = true -> parse fuel txt = Ok (t, p') ->
  exists c rest,
    txt = c ++ rest /\ derives AtExpr c t
    /\ (rest = "" <-> current_token p' = EOF_token).
Proof.
  intros Hs E.
  destruct (parse_expr fuel txt _ E) as (l & p & El & Ep & Ee).
  assert (Hne : txt <> "") by (intros ->; discriminate El).
  rewrite (Lexer_init_at txt Hne) in El. injection El as <-.
  pose proof (Parser_init_at_token fuel txt p Hs Ep) as Hp.
  destruct (expr_phrase txt fuel p txt _ Hp Ee) as (c & rest & Ht & Hd & Hp').
  cbn [fst snd] in *.
  exists c, rest. split; [exact Ht |]. split; [exact Hd |].
  exact (at_token_end txt p' rest Hp').
Qed.

Lemma X20_parsed_line_in_grammar_witness :
  exists c rest,
    "2*3)4" = c ++ rest
    /\ derives AtExpr c (BinOp (Num (mkToken INTEGER (PyInt 2)))
                               (mkToken MUL (PyStr "*"))
                               (Num (mkToken INTEGER (PyInt 3))))
    /\ (rest = "" <-> mkToken RPAREN (PyStr ")") = EOF_token).
Proof.
  exact (X20_parsed_line_in_grammar 7 "2*3)4" _
           (mkParser (mkLexer "2*3)4" 4 (Some "4"%char))
                     (mkToken RPAREN (PyStr ")")))
           eq_refl eq_refl).
Defined.

(** * Division makes floats *)

Lemma py_truediv_float (a b v : pyval) :
  py_truediv a b = Ok v -> is_float v = true.
Proof.
  destruct a, b; cbn [py_truediv]; try discriminate; intros E;
    repeat inv_bind E; injection E as <-; reflexivity.
Qed.

Lemma py_add_float (a b v : pyval) :
  is_float a || is_float b = true -> py_add a b = Ok v -> is_float v = true.
Proof.
  destruct a, b; cbn [py_add is_float orb]; try discriminate; intros _ E;
    repeat inv_bind E; injection E as <-; reflexivity.
Qed.

Lemma py_sub_float (a b v : pyval) :
  is_float a || is_float b = true -> py_sub a b = Ok v -> is_float v = true.
Proof.
  destruct a, b; cbn [py_sub is_float orb]; try discriminate; intros _ E;
    repeat inv_bind E; injection E as <-; reflexivity.
Qed.

Lemma py_mul_float (a b v : pyval) :
  is_float a || is_float b = true -> py_mul a b = Ok v -> is_float v = true.
Proof.
  destruct a, b; cbn [py_mul is_float orb]; try discriminate; intros _ E;
    repeat inv_bind E; injection E as <-; reflexivity.
Qed.

Lemma visit_is_float (t : AST) :
  well_formed t = true ->
  forall v, visit t = Ok v -> is_float v = negb (no_division t).
Proof.
  induction t as [l IHl op r IHr | tok]; cbn [well_formed no_division visit].
  - intros Hw v E. apply andb_true_iff in Hw. destruct Hw as [Hw Hwr].
    apply andb_true_iff in Hw. destruct Hw as [Hwl Hop].
    specialize (IHl Hwl). specialize (IHr Hwr).
    destruct (no_division l && negb (TokenType_eqb (type op) DIV)
              && no_division r) eqn:Hn.
    + apply andb_true_iff in Hn. destruct Hn as [Hn Hnr].
      apply andb_true_iff in Hn. destruct Hn as [Hnl Hd].
      assert (Ht : no_division (BinOp l op r) = true)
        by (cbn [no_division]; rewrite Hnl, Hd, Hnr; reflexivity).
      assert (Hw : well_formed (BinOp l op r) = true)
        by (cbn [well_formed]; rewrite Hwl, Hop, Hwr; reflexivity).
      pose proof (visit_int_value _ Hw Ht) as Hv. cbn [visit] in Hv.
      rewrite Hv in E. injection E as <-. reflexivity.
    + cbn [negb]. unfold is_operator in Hop.
      destruct (type op) eqn:Ety; try discriminate Hop;
        cbn [TokenType_eqb negb] in *; inv_bind E; inv_bind E;
        try rewrite andb_true_r in Hn;
        try (apply py_truediv_float in E; exact E);
        (assert (Hf : is_float a || is_float a0 = true);
         [rewrite (IHl a eq_refl), (IHr a0 eq_refl);
          destruct (no_division l), (no_division r);
          try reflexivity; discriminate Hn |]).
      * exact (py_add_float a a0 v Hf E).
      * exact (py_sub_float a a0 v Hf E).
      * exact (py_mul_float a a0 v Hf E).
  - intros Hw v E. injection E as <-.
    destruct (number_token_eq tok Hw) as (n & -> & _). reflexivity.
Qed.

(** X21. The result is a float exactly when the tree has a division in it:
    [/] is true division, a float even when the quotient is whole, and a
    float operand makes the result of [+], [-] and [*] a float; a tree
    without [/] gives an [int]. *)
Theorem X21_float_iff_division (fuel : nat) (txt : string) (t : AST)
        (p' : Parser) (v : pyval) :
  parse fuel txt = Ok (t, p') -> evaluate fuel txt = Ok v ->
  is_float v = negb (no_division t)
  /\ (no_division t = true -> v = PyInt (int_value t)).
Proof.
  intros E Ev. pose proof (parse_well_formed fuel txt t p' E) as Hw.
  rewrite evaluate_as_parse, E in Ev. cbn [bind fst] in Ev.
  split; [exact (visit_is_float t Hw v Ev) |].
  intros Hn. rewrite (visit_int_value t Hw Hn) in Ev.
  injection Ev as <-. reflexivity.
Qed.

Lemma X21_float_iff_division_witness :
  is_float (PyFloat (S754_finite false 4503599627370496 (-51))) = true.
Proof.
  exact (proj1 (X21_float_iff_division 5 "4/2" _
                  (mkParser (mkLexer "4/2" 3 None) EOF_token)
                  (PyFloat (S754_finite false 4503599627370496 (-51)))
                  eq_refl eq_refl)).
Defined.

(** * The cap on the digits of a number *)

Lemma int_too_long (s : string) :
  (int_max_str_digits < Z.of_nat (String.length s))%Z ->
  int s = Raise ValueError.
Proof.
  intros H. unfold int. destruct s as [| c s]; [reflexivity |].
  apply Z.ltb_lt in H. rewrite H. reflexivity.
Qed.

(** X22. A number written with more than [int_max_str_digits] digits is
    refused: [Lexer.integer] hands the whole run of digits to [int], which
    raises [ValueError] beyond that many digits, so a line that begins
    with such a run raises [ValueError] from the parser's first token on. *)
Theorem X22_too_many_digits (ws ds rest : string) (fuel : nat) :
  all_chars isspace ws = true -> all_chars isdigit ds = true ->
  (int_max_str_digits < Z.of_nat (String.length ds))%Z ->
  starts_nondigit rest ->
  fuel_bound (ws ++ ds ++ rest) <= fuel ->
  parse fuel (ws ++ ds ++ rest) = Raise ValueError
  /\ evaluate fuel (ws ++ ds ++ rest) = Raise ValueError.
Proof.
  intros Hws Hd Hlen Hr Hf.
  assert (Hnt : next_token (ws ++ ds ++ rest) = Raise ValueError).
  { rewrite (next_token_skip ws _ Hws).
    destruct ds as [| d ds']; [simpl in Hlen; discriminate Hlen |].
    cbn [append].
    pose proof Hd as Hd'. simpl in Hd'. apply andb_true_iff in Hd'.
    destruct Hd' as [Hd1 Hd2].
    rewrite (next_token_digit d _ Hd1), (span_digits_app ds' rest Hd2 Hr).
    cbn [fst snd]. rewrite (int_too_long _ Hlen). reflexivity. }
  assert (Hne : ws ++ ds ++ rest <> "").
  { destruct ds; [simpl in Hlen; discriminate Hlen |].
    destruct ws; discriminate. }
  pose proof (parse_first fuel _ Hne Hf) as P. rewrite Hnt in P.
  split; [exact P |]. rewrite evaluate_as_parse, P. reflexivity.
Qed.

Lemma X22_too_many_digits_witness :
  evaluate 4303 ("" ++ str_repeat "7" 4301 ++ "") = Raise ValueError.
Proof.
  assert (Hd : all_chars isdigit (str_repeat "7" 4301) = true)
    by (vm_compute; reflexivity).
  assert (Hl : (int_max_str_digits
                < Z.of_nat (String.length (str_repeat "7" 4301)))%Z)
    by (vm_compute; reflexivity).
  assert (Hf : fuel_bound ("" ++ str_repeat "7" 4301 ++ "") <= 4303)
    by (apply Nat.leb_le; vm_compute; reflexivity).
  exact (proj2 (X22_too_many_digits "" (str_repeat "7" 4301) "" 4303
                  eq_refl Hd Hl I Hf)).
Defined.
